(** * Fixed-point CIFAR-10 training driver (examples/cifar10/main.py)

    A shallow embedding of the training driver and of the parts of the
    fixed-point core it calls, with the properties of the driver stated
    and proved over it.

    Conventions.
    - Python floats are modelled by exact rationals ([Q]); rounding of
      floating-point arithmetic is not modelled, so no statement bounds
      a computed float.  The [OverflowError] of a float power is
      modelled.  Equality of computed rationals is [Qeq] ([==]) unless
      a statement says otherwise.
    - Library calls raise where the arguments of the driver make them:
      argparse (usage error, help), [os.makedirs] and
      [torch.cuda.set_device] (as the world says), the [DataLoader] (a
      batch size that is not positive), [torch.optim.SGD] (a negative
      rate), [torch.load].  Paths are POSIX paths.
    - Python ints are [Z]; [//] is [Z.div] (floor division for a positive
      divisor).
    - Exceptions are values of [error]; a raising computation stops.
      [assert] statements are executed (the interpreter runs without
      [-O]).
    - The file is read by an interpreter that accepts it: [train] and
      [validate] pass [async=True], which Python 3.7 and later refuse
      as syntax.
    - Objects the driver mutates in place (the model, the optimizer) are
      passed and returned as values; the driver holds one reference to
      each. *)

From Stdlib Require Import ZArith QArith Qround Qabs Qpower Lia Lqa Ascii String.
From stdpp Require Import base option list strings pretty gmap fin_maps.

Local Open Scope Z_scope.

(** ** Exceptions *)

Inductive error :=
| UsageError (msg : string)      (* argparse: parser.error, exit status 2 *)
| HelpExit                       (* argparse: print_help, exit status 0 *)
| OverflowError                  (* a float operation out of range *)
| ValueError (what : string)
| AttributeError (name : string)
| TypeError (what : string)
| AssertionError
| ZeroDivisionError
| UnpicklingError (path : string)  (* torch.load on a file that holds no checkpoint *)
| FileNotFoundError (path : string)
| IndexError
| ConfigurationError (what : string).
(** ** AverageMeter *)

Module AverageMeter.

Record t := mk { val : Q; avg : Q; sum : Q; count : Z }.

(** [reset]: all four attributes become 0. *)
Definition reset : t := {| val := 0; avg := 0; sum := 0; count := 0 |}.

(** [__init__] only calls [reset]. *)
Definition init : t := reset.

(** [update(val, n)]: the division raises when the new count is 0. *)
Definition update (v : Q) (n : Z) (self : t) : error + t :=
  let sum' := (sum self + v * inject_Z n)%Q in
  let count' := count self + n in
  if count' =? 0 then inl ZeroDivisionError
  else inr {| val := v; avg := (sum' / inject_Z count')%Q;
              sum := sum'; count := count' |}.

(** A sequence of [update] calls, left to right. *)
Fixpoint updates (us : list (Q * Z)) (self : t) : error + t :=
  match us with
  | [] => inr self
  | (v, n) :: us' =>
      match update v n self with
      | inl e => inl e
      | inr self' => updates us' self'
      end
  end.

(** Sum of the weights and weighted sum of the values of a sequence. *)
Definition total_n (us : list (Q * Z)) : Z :=
  foldr (fun u acc => u.2 + acc) 0 us.

Definition total_val (us : list (Q * Z)) : Q :=
  foldr (fun u acc => (u.1 * inject_Z u.2 + acc)%Q) 0%Q us.

End AverageMeter.

(** ** The fixed-point core (package nics_fix_pt and net.FixNet)

    The driver imports the core ([nics_fix_pt], [net.FixNet]); its code is
    not part of the driver's file.  What the driver needs of it is modelled
    here from the design document, each definition saying so. *)

Module Core.

(** Modelled from the spec: the mode constants [nfp.FIX_NONE],
    [nfp.FIX_AUTO], [nfp.FIX_FIXED] of the package nics_fix_pt, which the
    driver imports (spec 4.3: states AUTO, FIXED, NONE). *)
Inductive fix_method := FIX_NONE | FIX_AUTO | FIX_FIXED.

#[export] Instance fix_method_eq_dec : EqDecision fix_method.
Proof. solve_decision. Defined.

(** Modelled from the spec: the range methods; the driver's help text
    numbers them 0: RANGE_MAX, 1: RANGE_3SIGMA, 3: RANGE_SWEEP. *)
Inductive RangeMethod := RANGE_MAX | RANGE_3SIGMA | RANGE_SWEEP.

#[export] Instance RangeMethod_eq_dec : EqDecision RangeMethod.
Proof. solve_decision. Defined.

Definition range_method_of_Z (z : Z) : option RangeMethod :=
  if z =? 0 then Some RANGE_MAX
  else if z =? 1 then Some RANGE_3SIGMA
  else if z =? 3 then Some RANGE_SWEEP
  else None.

(** A tensor, flattened: the list of its entries. *)
Definition Tensor := list Q.

(** [state_dict]: tensor values by name. *)
Abbreviation StateDict := (gmap string Tensor).

(** Modelled from the spec: RangeDescriptor (spec 3),
    [{method; value}]. *)
Record RangeDescriptor := { method : RangeMethod; value : Q }.

(** Modelled from the spec: the number of positive levels,
    [2^(bitwidth-1) - 1]. *)
Definition levels (b : Z) : Z := 2 ^ (b - 1) - 1.

(** Modelled from the spec: [scale = value / (2^(bitwidth-1) - 1)]
    (spec 3).  Division in [Q] is total ([x / 0 == 0]). *)
Definition scale (b : Z) (r : RangeDescriptor) : Q :=
  (value r / inject_Z (levels b))%Q.

(** The spec writes [round] without naming the tie rule; both usual
    rules are modelled. *)
Inductive rounding := HalfEven | HalfAway.

Definition round (rm : rounding) (x : Q) : Z :=
  let f := Qfloor x in
  match (x - inject_Z f ?= 1 # 2)%Q with
  | Lt => f
  | Gt => f + 1
  | Eq => match rm with
          | HalfEven => if Z.even f then f else f + 1
          | HalfAway => if 0 <=? f then f + 1 else f
          end
  end.

Definition clamp (lo hi k : Z) : Z := Z.max lo (Z.min hi k).

(** Modelled from the spec: the Quantizer (spec 4.2),
    [round(x / scale) * scale] clamped to
    [[-(2^(b-1)-1), 2^(b-1)-1] * scale]. *)
Definition level_of (rm : rounding) (b : Z) (r : RangeDescriptor) (x : Q) : Z :=
  clamp (- levels b) (levels b) (round rm (x / scale b r)).

Definition quantize_value (rm : rounding) (b : Z) (r : RangeDescriptor) (x : Q) : Q :=
  (inject_Z (level_of rm b r x) * scale b r)%Q.

Definition quantize (rm : rounding) (b : Z) (r : RangeDescriptor) (x : Tensor) : Tensor :=
  map (quantize_value rm b r) x.

(** Modelled from the spec: FixPolicy (spec 3): mode, bitwidth and the
    cached range. *)
Record FixPolicy := { mode : fix_method; bitwidth : Z; range : RangeDescriptor }.

Definition set_mode (md : fix_method) (p : FixPolicy) : FixPolicy :=
  {| mode := md; bitwidth := bitwidth p; range := range p |}.

Definition set_range (r : RangeDescriptor) (p : FixPolicy) : FixPolicy :=
  {| mode := mode p; bitwidth := bitwidth p; range := r |}.

(** Modelled from the spec: one use of a policy on a tensor (spec 4.3).
    NONE passes the tensor through; AUTO recomputes the range from the
    tensor and quantizes; FIXED quantizes with the cached range.  The
    range estimator [est] (spec 4.1) is a parameter. *)
Definition apply_policy (est : RangeMethod -> Tensor -> Q) (rm : rounding)
    (p : FixPolicy) (x : Tensor) : Tensor * FixPolicy :=
  match mode p with
  | FIX_NONE => (x, p)
  | FIX_AUTO =>
      let r := {| method := method (range p);
                  value := est (method (range p)) x |} in
      (quantize rm (bitwidth p) r x, set_range r p)
  | FIX_FIXED => (quantize rm (bitwidth p) (range p) x, p)
  end.

(** Modelled from the spec: FixModule (spec 3, 4.4): a layer of a given
    module type with one policy per tracked role. *)
Record FixModule := {
  module_name : string;
  module_type : string;
  policies : gmap string FixPolicy
}.

(** Modelled from the spec: the construction arguments of FixNet
    (spec 6, model construction interface), named as the driver passes
    them. *)
Record FixConfig := {
  fix_bn : bool;
  fix_grad : bool;
  range_method : RangeMethod;
  grad_range_method : RangeMethod;
  bitwidth_data : Z;
  bitwidth_grad : Z
}.

(** Modelled from the spec: FixNet (spec 3): the tree of FixModules,
    the configuration it was built from, and the trainable tensor
    values. *)
Record FixNet := {
  config : FixConfig;
  modules : list FixModule;
  state : StateDict
}.

(** The network topology (net.py) is outside the spec; the layers, their
    types and tracked roles, and the initial values are parameters. *)
Record Topology := {
  layout : list (string * string * list string); (* name, type, roles *)
  initial_mode : fix_method;
  initial_range : Q;
  initial_state : StateDict
}.

Definition new_module (c : FixConfig) (t : Topology)
    (l : string * string * list string) : FixModule :=
  {| module_name := l.1.1;
     module_type := l.1.2;
     policies :=
       list_to_map
         (map (fun role =>
                 (role, {| mode := initial_mode t;
                           bitwidth := bitwidth_data c;
                           range := {| method := range_method c;
                                       value := initial_range t |} |}))
              l.2) |}.

Definition is_bn (l : string * string * list string) : bool :=
  String.eqb l.1.2 "BatchNorm2d_fix".

(** Modelled from the spec: the FixNet constructor.  Invalid bitwidths
    (≤ 0) and range selections outside {0, 1, 3} are rejected with a
    configuration error (spec 4.2, 7); with [fix_bn] false the
    normalization layers carry no policy (spec 6). *)
Definition FixNet_init (t : Topology) (fix_bn fix_grad : bool)
    (range_method grad_range_method bitwidth_data bitwidth_grad : Z)
    : error + FixNet :=
  if bitwidth_data <=? 0 then inl (ConfigurationError "bitwidth_data")
  else if bitwidth_grad <=? 0 then inl (ConfigurationError "bitwidth_grad")
  else
    match range_method_of_Z range_method,
          range_method_of_Z grad_range_method with
    | Some rm, Some grm =>
        let c := {| fix_bn := fix_bn; fix_grad := fix_grad;
                    range_method := rm; grad_range_method := grm;
                    bitwidth_data := bitwidth_data;
                    bitwidth_grad := bitwidth_grad |} in
        let ls := if fix_bn then layout t
                  else filter (fun l => is_bn l = false) (layout t) in
        inr {| config := c;
               modules := map (new_module c t) ls;
               state := initial_state t |}
    | _, _ => inl (ConfigurationError "range_method")
    end.

(** [method_by_type]: module type, then role, to mode. *)
Abbreviation Overrides := (gmap string (gmap string fix_method)).

(** Modelled from the spec: the mode a policy takes under
    [set_fix_method(default, overrides)] (spec 4.5): the override for
    its (module type, role) when there is one, else the default. *)
Definition resolve (default : fix_method) (by_type : option Overrides)
    (mtype role : string) : fix_method :=
  match by_type with
  | None => default
  | Some ov =>
      match ov !! mtype with
      | None => default
      | Some roles => from_option id default (roles !! role)
      end
  end.

Definition set_module_method (default : fix_method)
    (by_type : option Overrides) (md : FixModule) : FixModule :=
  {| module_name := module_name md;
     module_type := module_type md;
     policies :=
       map_imap (fun role p =>
                   Some (set_mode (resolve default by_type (module_type md) role) p))
                (policies md) |}.

(** Modelled from the spec: [set_fix_method(default_mode, overrides)]
    (spec 4.5), applied to every policy in the tree. *)
Definition set_fix_method (default : fix_method)
    (by_type : option Overrides) (m : FixNet) : FixNet :=
  {| config := config m;
     modules := map (set_module_method default by_type) (modules m);
     state := state m |}.

(** Modelled from the spec: [load_state_dict] restores the trainable
    tensor values and nothing else (spec 6, checkpoint boundary). *)
Definition load_state_dict (sd : StateDict) (m : FixNet) : FixNet :=
  {| config := config m; modules := modules m; state := sd |}.

(** [state_dict()]: the tensor values. *)
Definition state_dict (m : FixNet) : StateDict := state m.

(** Modelled from the spec: a forward pass consults every policy on the
    tensor it governs (spec 4.4); [seen name role] is that tensor.  The
    policies keep what [apply_policy] leaves in them. *)
Definition forward_policies (est : RangeMethod -> Tensor -> Q) (rm : rounding)
    (seen : string -> string -> Tensor) (m : FixNet) : FixNet :=
  {| config := config m;
     modules :=
       map (fun md =>
              {| module_name := module_name md;
                 module_type := module_type md;
                 policies :=
                   map_imap (fun role p =>
                               Some (apply_policy est rm p
                                       (seen (module_name md) role)).2)
                            (policies md) |})
           (modules m);
     state := state m |}.

(** Modelled from the spec: gradient quantization (spec 4.4).  When it
    is enabled globally, a gradient tensor passes through the quantizer
    with the gradient bitwidth and range method before it reaches the
    optimizer; otherwise it is handed over as it is. *)
Definition backward_hook (est : RangeMethod -> Tensor -> Q) (rm : rounding)
    (c : FixConfig) (g : Tensor) : Tensor :=
  if fix_grad c then
    quantize rm (bitwidth_grad c)
      {| method := grad_range_method c;
         value := est (grad_range_method c) g |} g
  else g.

(** The mode of the policy of [role] in the module called [name]. *)
Definition mode_of (m : FixNet) (name role : string) : option fix_method :=
  md ← List.find (fun md => String.eqb (module_name md) name) (modules m);
  mode <$> policies md !! role.

(** Every policy of the tree has mode [md]. *)
Definition all_modes (md : fix_method) (m : FixNet) : Prop :=
  Forall (fun mo => map_Forall (fun _ p => mode p = md) (policies mo))
         (modules m).

End Core.
(** ** Python values and the command line *)

(** The values the driver's namespace holds. *)
Inductive pyval :=
| VNone
| VBool (b : bool)
| VInt (z : Z)
| VFloat (q : Q)
| VStr (s : string).

(** The number a value compares as, when it is one. *)
Definition num_of (v : pyval) : option Q :=
  match v with
  | VBool b => Some (if b then 1%Q else 0%Q)
  | VInt z => Some (inject_Z z)
  | VFloat q => Some q
  | VNone | VStr _ => None
  end.

(** Python's [==]: numbers compare by value, strings with strings, and a
    string never equals a number. *)
Definition py_eq (a b : pyval) : bool :=
  match a, b with
  | VNone, VNone => true
  | VStr s, VStr t => String.eqb s t
  | _, _ =>
      match num_of a, num_of b with
      | Some x, Some y => Qeq_bool x y
      | _, _ => false
      end
  end.

(** [v in choices]. *)
Definition py_in (v : pyval) (l : list pyval) : bool := existsb (py_eq v) l.

(** Truth value, as tested by [if v:]. *)
Definition truthy (v : pyval) : bool :=
  match v with
  | VNone => false
  | VBool b => b
  | VInt z => negb (z =? 0)
  | VFloat q => negb (Qeq_bool q 0)
  | VStr s => negb (String.eqb s "")
  end.

(** [int(s)] on a string: optional sign and decimal digits, surrounded by
    optional white space.  (Digit-group underscores are not accepted.) *)
Fixpoint lstrip (s : string) : string :=
  match s with
  | String a s' => if Ascii.is_space a then lstrip s' else s
  | EmptyString => EmptyString
  end.

Definition strip (s : string) : string :=
  String.rev (lstrip (String.rev (lstrip s))).

Fixpoint digits (s : string) (acc : Z) : option Z :=
  match s with
  | EmptyString => Some acc
  | String a s' =>
      match Ascii.is_nat a with
      | Some d => digits s' (10 * acc + Z.of_nat d)
      | None => None
      end
  end.

Definition unsigned (s : string) : option Z :=
  match s with
  | EmptyString => None
  | _ => digits s 0
  end.

Definition py_int (s : string) : option Z :=
  match strip s with
  | String "-"%char r => Z.opp <$> unsigned r
  | String "+"%char r => unsigned r
  | r => unsigned r
  end.

(** [s.split(sep)] for a one-character separator: never empty. *)
Fixpoint split (sep : ascii) (s : string) : list string :=
  match s with
  | EmptyString => [EmptyString]
  | String a s' =>
      if Ascii.eqb a sep then EmptyString :: split sep s'
      else match split sep s' with
           | h :: t => String a h :: t
           | [] => [String a EmptyString]
           end
  end.

(** [range(a, b)]. *)
Definition py_range (a b : Z) : list Z :=
  map (fun i => a + Z.of_nat i) (seq 0 (Z.to_nat (b - a))).

(** *** argparse

    [parser.add_argument] calls become rows of a table.  The command line
    is taken as argparse splits it: a list of occurrences, each the
    option string a word was matched to (abbreviations resolved, bundled
    short flags taken apart) with the argument argparse hands to its
    action, if any: the word that follows an option that takes one, or
    the explicit value of [--opt=value].  A word that is neither an
    option nor the argument of one is an occurrence of its own, which
    matches no row. *)

Inductive action_kind := Store | StoreTrue.

(** [type=]: absent (the argument string is stored as it is), [str],
    [int], [float]. *)
Inductive arg_type := T_absent | T_str | T_int | T_float.

Record Action := add_argument {
  option_strings : list string;
  dest : string;
  action : action_kind;
  type_ : arg_type;
  default : pyval;
  choices : option (list pyval);
  required : bool
}.

Definition parser : list Action := [
  add_argument ["--save-dir"] "save_dir" Store T_str VNone None true;
  add_argument ["--gpu"] "gpu" Store T_absent (VStr "0") None false;
  add_argument ["--epoch"] "epoch" Store T_int (VInt 100) None false;
  add_argument ["--start-epoch"] "start_epoch" Store T_int (VInt 0) None false;
  add_argument ["-b"; "--batch-size"] "batch_size" Store T_int (VInt 128) None false;
  add_argument ["--test-batch-size"] "test_batch_size" Store T_int (VInt 32) None false;
  add_argument ["--lr"; "--learning-rate"] "lr" Store T_float (VFloat (5 # 100)) None false;
  add_argument ["--momentum"] "momentum" Store T_float (VFloat (9 # 10)) None false;
  add_argument ["--weight-decay"; "--wd"] "weight_decay" Store T_float
    (VFloat (5 # 10000)) None false;
  add_argument ["--print-freq"; "-p"] "print_freq" Store T_int (VInt 40) None false;
  add_argument ["--resume"] "resume" Store T_str (VStr "") None false;
  add_argument ["--prefix"] "prefix" Store T_str (VStr "") None false;
  add_argument ["--float-bn"] "float_bn" StoreTrue T_absent (VBool false) None false;
  add_argument ["--fix-grad"] "fix_grad" StoreTrue T_absent (VBool false) None false;
  add_argument ["--range-method"] "range_method" Store T_absent (VInt 0)
    (Some [VInt 0; VInt 1; VInt 3]) false;
  add_argument ["--grad-range-method"] "grad_range_method" Store T_absent (VInt 0)
    (Some [VInt 0; VInt 1; VInt 3]) false;
  add_argument ["-e"; "--evaluate"] "evaluate" StoreTrue T_absent (VBool false) None false;
  add_argument ["--pretrained"] "pretrained" Store T_str (VStr "") None false;
  add_argument ["--bitwidth-data"] "bitwidth_data" Store T_int (VInt 8) None false;
  add_argument ["--bitwidth-grad"] "bitwidth_grad" Store T_int (VInt 16) None false
].

(** One occurrence of an option on the command line. *)
Record Occurrence := { opt : string; arg : option string }.

Abbreviation Namespace := (gmap string pyval).

(** The action every parser made by [argparse.ArgumentParser(...)] holds
    besides its table ([add_help=True]): [-h] and [--help] take no
    argument, print the help and exit with status 0 where they stand on
    the command line. *)
Definition help_option_strings : list string := ["-h"; "--help"].

Definition asks_help (o : Occurrence) : bool :=
  bool_decide (opt o ∈ help_option_strings) &&
  match arg o with None => true | Some _ => false end.

Section Argparse.
(** [float(s)] on a string is a parameter. *)
Variable float_of_string : string -> option Q.

(** The [type=] conversion of an argument string. *)
Definition convert (t : arg_type) (s : string) : option pyval :=
  match t with
  | T_absent | T_str => Some (VStr s)
  | T_int => VInt <$> py_int s
  | T_float => VFloat <$> float_of_string s
  end.

Definition find_action (p : list Action) (o : string) : option Action :=
  List.find (fun a => bool_decide (o ∈ option_strings a)) p.

(** Namespace with every default. *)
Definition defaults (p : list Action) : Namespace :=
  foldl (fun ns a => <[dest a := default a]> ns) ∅ p.

(** The state of the parse: the namespace, the dests seen, and whether
    some occurrence matched no action (reported last). *)
Record ParseState := {
  ns : Namespace;
  seen : list string;
  extras : bool
}.

Definition consume (p : list Action) (st : ParseState) (o : Occurrence)
    : error + ParseState :=
  if asks_help o then inl HelpExit
  else if bool_decide (opt o ∈ help_option_strings)
  then inl (UsageError "ignored explicit argument")
  else
  match find_action p (opt o) with
  | None => inr {| ns := ns st; seen := seen st; extras := true |}
  | Some a =>
      match action a, arg o with
      | Store, None => inl (UsageError "expected one argument")
      | Store, Some s =>
          match convert (type_ a) s with
          | None => inl (UsageError "invalid value")
          | Some v =>
              if match choices a with
                 | Some cs => py_in v cs
                 | None => true
                 end
              then inr {| ns := <[dest a := v]> (ns st);
                          seen := dest a :: seen st;
                          extras := extras st |}
              else inl (UsageError "invalid choice")
          end
      | StoreTrue, Some _ => inl (UsageError "ignored explicit argument")
      | StoreTrue, None =>
          inr {| ns := <[dest a := VBool true]> (ns st);
                 seen := dest a :: seen st;
                 extras := extras st |}
      end
  end.

Fixpoint consume_all (p : list Action) (st : ParseState)
    (os : list Occurrence) : error + ParseState :=
  match os with
  | [] => inr st
  | o :: os' =>
      match consume p st o with
      | inl e => inl e
      | inr st' => consume_all p st' os'
      end
  end.

(** [parser.parse_args()]. *)
Definition parse_args (p : list Action) (os : list Occurrence)
    : error + Namespace :=
  match consume_all p {| ns := defaults p; seen := []; extras := false |} os with
  | inl e => inl e
  | inr st =>
      if forallb (fun a => negb (required a) || bool_decide (dest a ∈ seen st)) p
      then if extras st then inl (UsageError "unrecognized arguments")
           else inr (ns st)
      else inl (UsageError "the following arguments are required")
  end.

End Argparse.
(** ** The world around the driver *)

Import Core.

(** The blob [torch.save] writes and [torch.load] reads: the dict with the
    keys "epoch", "state_dict", "best_prec1" that [main] builds. *)
Record Checkpoint := {
  ck_epoch : Z;
  ck_state_dict : StateDict;
  ck_best_prec1 : Q
}.

(** One batch of a loader: [input.size(0)] and [target.size(0)] are the
    lengths. *)
Record Batch := { input : list Tensor; target : list Z }.

(** [torch.optim.SGD]: the parameter groups (dicts holding "lr",
    "momentum", "weight_decay") and the momentum buffers. *)
Record Optimizer := {
  param_groups : list (gmap string Q);
  momentum_buffer : StateDict
}.

(** What the driver takes from its collaborators (file system, data
    loaders, autograd, optimizer, network topology). *)
Record World := {
  float_of_string : string -> option Q;          (* float(s) *)
  path_exists : string -> bool;                  (* os.path.exists *)
  makedirs_error : string -> option error;       (* what os.makedirs raises, if it does *)
  set_device_error : Z -> option error;          (* what torch.cuda.set_device raises *)
  files : gmap string (option Checkpoint);       (* regular files; Some ck: loadable *)
  topology : Topology;                           (* net.py *)
  rounding_mode : rounding;
  estimate_range : RangeMethod -> Tensor -> Q;   (* spec 4.1 *)
  observed : FixNet -> Batch -> string -> string -> Tensor;
  loss_of : FixNet -> Batch -> Q;                (* criterion(output, target).item() *)
  correct_top1 : FixNet -> Batch -> Z;           (* correct[:1].sum() in accuracy *)
  autograd : FixNet -> Batch -> StateDict;       (* raw gradients of loss.backward() *)
  sgd_step : Optimizer -> StateDict -> StateDict -> StateDict * StateDict;
  train_loader : Z -> Z -> list Batch;           (* batch size, epoch *)
  val_loader : Z -> list Batch                   (* test batch size *)
}.

(** ** Events: the calls the driver makes on its collaborators, in order *)

Inductive event :=
| EvPrint (what : string)
| EvPrintLr (epoch : Z) (lr : Q)               (* "Epoch {}: lr: {}" *)
| EvPrintEpoch (epoch i : Z)                   (* progress line of train *)
| EvPrintTest (i : Z)                          (* progress line of validate *)
| EvPrintPrec (top1_avg best : Q)              (* " * Prec@1 ... Best Prec@1 ..." *)
| EvPrintBest (best : Q)                       (* "Best acc: {}" *)
| EvSetDevice (gpu : Z)
| EvMakedirs (dir : string)
| EvPrintFixConfigs (m : FixNet)
| EvCuda
| EvDataParallel (gpus : list Z)
| EvTorchLoad (path : string)
| EvLoadStateDict (sd : StateDict)
| EvDataLoaders
| EvSetFixMethod (method : fix_method) (method_by_type : option Overrides)
| EvModelTrain
| EvModelEval
| EvTrainBatch (epoch i : Z) (m : FixNet)      (* p_model(input) in train, on model m *)
| EvBackward (raw handed : StateDict)          (* gradients computed, handed to the optimizer *)
| EvOptimizerStep
| EvValBatch (i : Z) (m : FixNet)              (* p_model(input) in validate *)
| EvTorchSave (filename : string) (ck : Checkpoint).

(** ** The driver's monad: module globals, an event trace, exceptions *)

(** The module-level globals [args] and [best_prec1]. *)
Record Globals := { args : Namespace; best_prec1 : Q }.

Definition Outcome (A : Type) : Type := error + A * Globals.

Definition M (A : Type) : Type := Globals -> list event * Outcome A.

#[export] Instance M_ret : MRet M := fun A a g => ([], inr (a, g)).

#[export] Instance M_bind : MBind M := fun A B k c g =>
  match c g with
  | (tr, inl e) => (tr, inl e)
  | (tr, inr (a, g')) => let r := k a g' in (tr ++ r.1, r.2)
  end.

Definition raise {A} (e : error) : M A := fun _ => ([], inl e).

Definition emit (e : event) : M unit := fun g => ([e], inr (tt, g)).

Definition lift {A} (r : error + A) : M A :=
  match r with inl e => raise e | inr a => mret a end.

(** [args.name]. *)
Definition attr (name : string) : M pyval := fun g =>
  match args g !! name with
  | Some v => ([], inr (v, g))
  | None => ([], inl (AttributeError name))
  end.

(** [args.name = v]. *)
Definition setattr (name : string) (v : pyval) : M unit := fun g =>
  ([], inr (tt, {| args := <[name := v]> (args g); best_prec1 := best_prec1 g |})).

(** [args = ns]. *)
Definition set_args (a : Namespace) : M unit := fun g =>
  ([], inr (tt, {| args := a; best_prec1 := best_prec1 g |})).

Definition get_best_prec1 : M Q := fun g => ([], inr (best_prec1 g, g)).

Definition set_best_prec1 (q : Q) : M unit := fun g =>
  ([], inr (tt, {| args := args g; best_prec1 := q |})).

(** Uses of a value where a type is needed. *)
Definition as_str (v : pyval) : M string :=
  match v with VStr s => mret s | _ => raise (TypeError "str") end.

Definition int_of (v : pyval) : option Z :=
  match v with
  | VInt z => Some z
  | VBool b => Some (if b then 1 else 0)
  | _ => None
  end.

Definition as_int (v : pyval) : M Z :=
  match int_of v with Some z => mret z | None => raise (TypeError "int") end.

Definition as_float (v : pyval) : M Q :=
  match num_of v with Some q => mret q | None => raise (TypeError "float") end.

(** [assert c]. *)
Definition py_assert (c : bool) : M unit :=
  if c then mret tt else raise AssertionError.

(** [for x in xs: s = body(s, x)]. *)
Fixpoint for_each {X S} (body : S -> X -> M S) (xs : list X) (s : S) : M S :=
  match xs with
  | [] => mret s
  | x :: xs' => s' ← body s x; for_each body xs' s'
  end.

(** [enumerate(xs)]. *)
Definition enumerate {X} (xs : list X) : list (Z * X) :=
  imap (fun i x => (Z.of_nat i, x)) xs.

(** [[int(d) for d in l]]. *)
Fixpoint ints (l : list string) : error + list Z :=
  match l with
  | [] => inr []
  | d :: l' =>
      match py_int d with
      | None => inl (ValueError "invalid literal for int()")
      | Some z =>
          match ints l' with
          | inl e => inl e
          | inr zs => inr (z :: zs)
          end
      end
  end.

Definition Qlt_bool (a b : Q) : bool := negb (Qle_bool b a).

(** [max(a, b)]: the first argument unless the second is greater. *)
Definition py_max (a b : Q) : Q := if Qlt_bool a b then b else a.

(** A call on a collaborator that can raise: the exception the world
    gives for it, else the event. *)
Definition call (fault : option error) (e : event) : M unit :=
  match fault with
  | Some err => raise err
  | None => emit e
  end.

(** The ints that do not convert to a float: from [2^1024 - 2^970] on
    the nearest double is out of range. *)
Definition float_int_limit : Z := 2 ^ 1024 - 2 ^ 970.

(** [0.5 ** k] for an int [k]: [OverflowError] when the power
    ([k <= -1024]) or the exponent itself is out of the range of a
    float. *)
Definition half_power (k : Z) : error + Q :=
  if (k <=? -1024) || (float_int_limit <=? k) then inl OverflowError
  else inr ((1 # 2) ^ k)%Q.

(** ['{:.3f}'.format(x)]: [x] rounded to three decimals, a half to the
    even digit. *)
Definition round_half_even (q : Q) : Z :=
  let f := Qfloor q in
  match (q - inject_Z f ?= 1 # 2)%Q with
  | Lt => f
  | Gt => f + 1
  | Eq => if Z.even f then f else f + 1
  end.

Definition zfill3 (s : string) : string :=
  match String.length s with
  | 0%nat => "000"
  | 1%nat => "00" +:+ s
  | 2%nat => "0" +:+ s
  | _ => s
  end.

Definition format_3f (x : Q) : string :=
  let n := round_half_even (Qabs x * 1000) in
  (if Qlt_bool x 0 then "-" else "")
  +:+ pretty (n `div` 1000) +:+ "." +:+ zfill3 (pretty (n `mod` 1000)).

(** [os.path.join(a, b)] (POSIX). *)
Definition path_join (a b : string) : string :=
  if String.prefix "/" b then b
  else if String.eqb a ""
  then b
  else match String.rev a with
       | String "/"%char _ => a +:+ b
       | _ => a +:+ "/" +:+ b
       end.

(** The program starts with [best_prec1 = 90] and [args] unbound. *)
Definition initial_globals : Globals := {| args := ∅; best_prec1 := 90 |}.
(** ** The driver: main.py *)

Section Driver.
Context (W : World).

(** *** Mode-set helpers *)

Definition _set_fix_method_train_ori (model : FixNet) : M FixNet :=
  emit (EvSetFixMethod FIX_AUTO None);;
  mret (set_fix_method FIX_AUTO None model).

Definition _set_fix_method_eval_ori (model : FixNet) : M FixNet :=
  emit (EvSetFixMethod FIX_FIXED None);;
  mret (set_fix_method FIX_FIXED None model).

(** The per-type configuration the source offers for small bitwidths:
    the running statistics of BatchNorm2d_fix are not quantized during
    training.  Defined in the source; [train] and [validate] call the
    [_ori] helpers above. *)
Definition train_method_by_type : Overrides :=
  {[ "BatchNorm2d_fix" :=
       <["weight" := FIX_AUTO]> (<["bias" := FIX_AUTO]>
       (<["running_mean" := FIX_NONE]> (<["running_var" := FIX_NONE]> ∅))) ]}.

Definition eval_method_by_type : Overrides :=
  {[ "BatchNorm2d_fix" :=
       <["weight" := FIX_FIXED]> (<["bias" := FIX_FIXED]>
       (<["running_mean" := FIX_AUTO]> (<["running_var" := FIX_AUTO]> ∅))) ]}.

Definition _set_fix_method_train (model : FixNet) : M FixNet :=
  emit (EvSetFixMethod FIX_AUTO (Some train_method_by_type));;
  mret (set_fix_method FIX_AUTO (Some train_method_by_type) model).

Definition _set_fix_method_eval (model : FixNet) : M FixNet :=
  emit (EvSetFixMethod FIX_FIXED (Some eval_method_by_type));;
  mret (set_fix_method FIX_FIXED (Some eval_method_by_type) model).

(** *** accuracy, for [topk=(1,)]: [correct_k.mul_(100.0 / batch_size)] *)
Definition accuracy (model : FixNet) (b : Batch) : M Q :=
  let batch_size := Z.of_nat (length (target b)) in
  if batch_size =? 0 then raise ZeroDivisionError
  else mret (inject_Z (correct_top1 W model b) * (100 / inject_Z batch_size))%Q.

(** [if i % args.print_freq == 0: print(...)] *)
Definition progress (i : Z) (line : event) : M unit :=
  print_freq ← attr "print_freq" ≫= as_int;
  if print_freq =? 0 then raise ZeroDivisionError
  else if i `mod` print_freq =? 0 then emit line else mret tt.

(** The forward pass of [p_model]: every policy is consulted. *)
Definition forward (model : FixNet) (b : Batch) : FixNet :=
  forward_policies (estimate_range W) (rounding_mode W) (observed W model b) model.

(** *** train *)

Definition train_state : Type := FixNet * Optimizer * AverageMeter.t * AverageMeter.t.

Definition train_batch (epoch : Z) (st : train_state) (ib : Z * Batch)
    : M train_state :=
  let '(model, optimizer, losses, top1) := st in
  let '(i, b) := ib in
  (* compute output *)
  emit (EvTrainBatch epoch i model);;
  let model1 := forward model b in
  let loss := loss_of W model b in
  (* compute gradient and do SGD step *)
  let raw := autograd W model b in
  let handed :=
    backward_hook (estimate_range W) (rounding_mode W) (config model) <$> raw in
  emit (EvBackward raw handed);;
  emit EvOptimizerStep;;
  let '(params, buf) := sgd_step W optimizer (state model1) handed in
  let model2 := load_state_dict params model1 in
  let optimizer2 := {| param_groups := param_groups optimizer;
                       momentum_buffer := buf |} in
  (* measure accuracy and record loss *)
  prec1 ← accuracy model b;
  let n := Z.of_nat (length (input b)) in
  losses ← lift (AverageMeter.update loss n losses);
  top1 ← lift (AverageMeter.update prec1 n top1);
  progress i (EvPrintEpoch epoch i);;
  mret (model2, optimizer2, losses, top1).

Definition train (train_loader : Z -> list Batch) (model : FixNet)
    (optimizer : Optimizer) (epoch : Z) : M (FixNet * Optimizer) :=
  let losses := AverageMeter.init in
  let top1 := AverageMeter.init in
  (* switch to train mode *)
  model ← _set_fix_method_train_ori model;
  emit EvModelTrain;;
  st ← for_each (train_batch epoch)
         (enumerate (train_loader epoch))
         (model, optimizer, losses, top1);
  mret (st.1.1.1, st.1.1.2).

(** *** validate *)

Definition validate_state : Type := FixNet * AverageMeter.t * AverageMeter.t.

Definition validate_batch (st : validate_state) (ib : Z * Batch)
    : M validate_state :=
  let '(model, losses, top1) := st in
  let '(i, b) := ib in
  emit (EvValBatch i model);;
  let model1 := forward model b in
  let loss := loss_of W model b in
  prec1 ← accuracy model b;
  let n := Z.of_nat (length (input b)) in
  losses ← lift (AverageMeter.update loss n losses);
  top1 ← lift (AverageMeter.update prec1 n top1);
  progress i (EvPrintTest i);;
  mret (model1, losses, top1).

Definition validate (val_loader : list Batch) (model : FixNet)
    : M (Q * FixNet) :=
  let losses := AverageMeter.init in
  let top1 := AverageMeter.init in
  (* switch to evaluate mode *)
  model ← _set_fix_method_eval_ori model;
  emit EvModelEval;;
  st ← for_each validate_batch (enumerate val_loader) (model, losses, top1);
  best ← get_best_prec1;
  emit (EvPrintPrec (AverageMeter.avg st.2) best);;
  mret (AverageMeter.avg st.2, st.1.1).

(** *** save_checkpoint: [torch.save(state, filename)] *)
Definition save_checkpoint (state : Checkpoint) (is_best : bool)
    (filename : string) : M unit :=
  emit (EvTorchSave filename state).

(** *** adjust_learning_rate *)

Definition set_lr (lr : Q) (param_group : gmap string Q) : gmap string Q :=
  <["lr" := lr]> param_group.

Definition adjust_learning_rate (optimizer : Optimizer) (epoch : Z)
    : M Optimizer :=
  lr0 ← attr "lr" ≫= as_float;
  decay ← lift (half_power (epoch `div` 10));
  let lr := (lr0 * decay)%Q in
  let optimizer' := {| param_groups := map (set_lr lr) (param_groups optimizer);
                       momentum_buffer := momentum_buffer optimizer |} in
  emit (EvPrintLr epoch lr);;
  mret optimizer'.

(** *** main *)

Definition isfile (path : string) : bool :=
  bool_decide (is_Some (files W !! path)).

Definition torch_load (path : string) : M Checkpoint :=
  emit (EvTorchLoad path);;
  match files W !! path with
  | Some (Some ck) => mret ck
  | Some None => raise (UnpicklingError path)
  | None => raise (FileNotFoundError path)
  end.

(** The optimizer [torch.optim.SGD(model.parameters(), lr=...,
    momentum=..., weight_decay=...)] returns: one parameter group, no
    momentum buffer yet. *)
Definition SGD_groups (lr momentum weight_decay : Q) : Optimizer :=
  {| param_groups :=
       [ <["lr" := lr]> (<["momentum" := momentum]>
         (<["weight_decay" := weight_decay]> ∅)) ];
     momentum_buffer := ∅ |}.

(** The constructor refuses a negative learning rate, momentum or
    weight decay. *)
Definition SGD (lr momentum weight_decay : Q) : error + Optimizer :=
  if Qlt_bool lr 0 then inl (ValueError "Invalid learning rate")
  else if Qlt_bool momentum 0 then inl (ValueError "Invalid momentum value")
  else if Qlt_bool weight_decay 0
  then inl (ValueError "Invalid weight_decay value")
  else inr (SGD_groups lr momentum weight_decay).

(** [torch.utils.data.DataLoader(dataset, batch_size=n, ...)] refuses
    a batch size that is not positive. *)
Definition DataLoader {A} (batches : Z -> A) (batch_size : Z) : error + A :=
  if batch_size <=? 0
  then inl (ValueError "batch_size should be a positive integer value")
  else inr (batches batch_size).

(** [model = FixNet(fix_bn=not args.float_bn, ...)] *)
Definition build_model : M FixNet :=
  float_bn ← attr "float_bn";
  fix_grad ← attr "fix_grad";
  range_method ← attr "range_method" ≫= as_int;
  grad_range_method ← attr "grad_range_method" ≫= as_int;
  bitwidth_data ← attr "bitwidth_data" ≫= as_int;
  bitwidth_grad ← attr "bitwidth_grad" ≫= as_int;
  lift (FixNet_init (topology W) (negb (truthy float_bn)) (truthy fix_grad)
          range_method grad_range_method bitwidth_data bitwidth_grad).

(** [if args.resume: ...] *)
Definition resume_from (model : FixNet) : M FixNet :=
  resume ← attr "resume";
  if truthy resume then
    path ← as_str resume;
    if isfile path then
      emit (EvPrint "=> loading checkpoint");;
      checkpoint ← torch_load path;
      setattr "start_epoch" (VInt (ck_epoch checkpoint));;
      set_best_prec1 (ck_best_prec1 checkpoint);;
      emit (EvLoadStateDict (ck_state_dict checkpoint));;
      emit (EvPrint "=> loaded checkpoint");;
      mret (load_state_dict (ck_state_dict checkpoint) model)
    else
      emit (EvPrint "=> no checkpoint found");;
      py_assert (isfile path);;
      mret model
  else mret model.

(** [if args.pretrained: ...] *)
Definition pretrained_from (model : FixNet) : M FixNet :=
  pretrained ← attr "pretrained";
  if truthy pretrained then
    path ← as_str pretrained;
    if isfile path then
      emit (EvPrint "=> fintune from checkpoint");;
      checkpoint ← torch_load path;
      emit (EvLoadStateDict (ck_state_dict checkpoint));;
      mret (load_state_dict (ck_state_dict checkpoint) model)
    else
      emit (EvPrint "=> no checkpoint found");;
      py_assert (isfile path);;
      mret model
  else mret model.

(** [os.path.join(args.save_dir,
    "checkpoint_{}_{:.3f}.tar".format(args.prefix, best_prec1))] *)
Definition checkpoint_file (save_dir pfx : string) (best : Q) : string :=
  path_join save_dir
    ("checkpoint_" +:+ pfx +:+ "_" +:+ format_3f best +:+ ".tar").

(** The body of [for epoch in range(args.start_epoch, args.epoch)]. *)
Definition epoch_body (train_loader : Z -> list Batch)
    (val_loader : list Batch) (st : FixNet * Optimizer) (epoch : Z)
    : M (FixNet * Optimizer) :=
  let '(model, optimizer) := st in
  optimizer ← adjust_learning_rate optimizer epoch;
  (* train for one epoch *)
  '(model, optimizer) ← train train_loader model optimizer epoch;
  (* evaluate on validation set *)
  '(prec1, model) ← validate val_loader model;
  (* remember best prec@1 and save checkpoint *)
  best ← get_best_prec1;
  let is_best := Qlt_bool best prec1 in
  let best := py_max prec1 best in
  set_best_prec1 best;;
  (if Qlt_bool 90 best && is_best then
     save_dir ← attr "save_dir" ≫= as_str;
     pfx ← attr "prefix" ≫= as_str;
     save_checkpoint
       {| ck_epoch := epoch + 1;
          ck_state_dict := state_dict model;
          ck_best_prec1 := best |}
       is_best (checkpoint_file save_dir pfx best);;
     emit (EvPrintFixConfigs model)
   else mret tt);;
  mret (model, optimizer).

(** [main] is given in two halves, cut where its locals are complete.

    The first half: from [parser.parse_args()] to the optimizer. *)

(** [gpus = [int(d) for d in args.gpu.split(",")]];
    [torch.cuda.set_device(gpus[0])] *)
Definition select_device : M (list Z) :=
  gpu ← attr "gpu" ≫= as_str;
  gpus ← lift (ints (split "," gpu));
  match gpus with
  | g :: _ => call (set_device_error W g) (EvSetDevice g)
  | [] => raise IndexError
  end;;
  mret gpus.

Definition locals : Type := FixNet * Optimizer * (Z -> list Batch) * list Batch.

Definition startup (argv : list Occurrence) : M locals :=
  a ← lift (parse_args (float_of_string W) parser argv);
  set_args a;;
  emit (EvPrint "cmd line arguments");;
  gpus ← select_device;
  (* Check the save_dir exists or not *)
  save_dir ← attr "save_dir" ≫= as_str;
  (if path_exists W save_dir then mret tt
   else call (makedirs_error W save_dir) (EvMakedirs save_dir));;
  model ← build_model;
  emit (EvPrintFixConfigs model);;
  emit EvCuda;;
  (if (1 <? length gpus)%nat then emit (EvDataParallel gpus) else mret tt);;
  (* optionally resume from a checkpoint *)
  model ← resume_from model;
  model ← pretrained_from model;
  batch_size ← attr "batch_size" ≫= as_int;
  train_loader ← lift (DataLoader (train_loader W) batch_size);
  test_batch_size ← attr "test_batch_size" ≫= as_int;
  val_loader ← lift (DataLoader (val_loader W) test_batch_size);
  emit EvDataLoaders;;
  (* define loss function (criterion) and optimizer *)
  lr ← attr "lr" ≫= as_float;
  momentum ← attr "momentum" ≫= as_float;
  weight_decay ← attr "weight_decay" ≫= as_float;
  optimizer ← lift (SGD lr momentum weight_decay);
  mret (model, optimizer, train_loader, val_loader).

(** The second half: [if args.evaluate: ...] and the epoch loop. *)
Definition phases (l : locals) : M unit :=
  let '(model, optimizer, train_loader, val_loader) := l in
  evaluate ← attr "evaluate";
  if truthy evaluate then
    validate val_loader model;;
    mret tt
  else
    start_epoch ← attr "start_epoch" ≫= as_int;
    epoch ← attr "epoch" ≫= as_int;
    for_each (epoch_body train_loader val_loader)
      (py_range start_epoch epoch) (model, optimizer);;
    best ← get_best_prec1;
    emit (EvPrintBest best).

Definition main (argv : list Occurrence) : M unit :=
  l ← startup argv;
  phases l.

(** Running the program from its initial globals. *)
Definition run (argv : list Occurrence) : list event * Outcome unit :=
  main argv initial_globals.

End Driver.
(** ** A small concrete world, for running the model *)

Module Example.

(** [float] on the few literals the examples use. *)
Definition parse_float (s : string) : option Q :=
  if String.eqb s "0.05" then Some (5 # 100)%Q
  else if String.eqb s "0.1" then Some (1 # 10)%Q
  else if String.eqb s "-1" then Some (- (1))%Q
  else if String.eqb s "-1.0" then Some (- (1))%Q
  else inject_Z <$> py_int s.

(** Largest absolute value of a tensor (RANGE_MAX), used for every
    method here. *)
Definition range_max (x : Tensor) : Q :=
  foldr (fun v acc => if Qle_bool acc (Qabs v) then Qabs v else acc) 0%Q x.

(** One convolution and one normalization layer. *)
Definition net : Topology :=
  {| layout := [ ("conv1", "Conv2d_fix", ["weight"; "bias"]);
                 ("bn1", "BatchNorm2d_fix",
                  ["weight"; "bias"; "running_mean"; "running_var"]) ];
     initial_mode := FIX_AUTO;
     initial_range := 1;
     initial_state := {[ "conv1.weight" := [(1 # 2)%Q; (- (1 # 4))%Q] ]} |}.

Definition batch (n : nat) : Batch :=
  {| input := replicate n [1%Q]; target := replicate n 0 |}.

(** A checkpoint as a previous run would have saved it. *)
Definition saved : Checkpoint :=
  {| ck_epoch := 7;
     ck_state_dict := {[ "conv1.weight" := [(3 # 4)%Q; 0%Q] ]};
     ck_best_prec1 := 93 |}.

(** A world over [net] with two training batches and one validation
    batch of four samples each; [correct] counts the samples of a batch
    that the model classifies correctly.  Every path but the empty one
    exists, and [os.makedirs('')] raises [FileNotFoundError]. *)
Definition world (correct : FixNet -> Batch -> Z) : World :=
  {| float_of_string := parse_float;
     path_exists := fun p => negb (String.eqb p "");
     makedirs_error :=
       fun p => if String.eqb p "" then Some (FileNotFoundError "") else None;
     set_device_error := fun _ => None;
     files := {[ "ck.tar" := Some saved; "notes.txt" := None ]};
     topology := net;
     rounding_mode := HalfEven;
     estimate_range := fun _ => range_max;
     observed := fun m _ name role =>
                   from_option id [] (state m !! (name +:+ "." +:+ role));
     loss_of := fun _ _ => 1%Q;
     correct_top1 := correct;
     autograd := fun m _ => state m;
     sgd_step := fun _ params grads => (params, grads);
     train_loader := fun _ _ => [batch 4; batch 4];
     val_loader := fun _ => [batch 4] |}.

Definition all_correct : FixNet -> Batch -> Z :=
  fun _ b => Z.of_nat (length (target b)).

Definition half_correct : FixNet -> Batch -> Z :=
  fun _ b => Z.of_nat (length (target b)) `div` 2.

(** Two meter updates: batches of 128 and 64 samples. *)
Definition two_batches : list (Q * Z) := [((1 # 2)%Q, 128); ((3 # 4)%Q, 64)].

Definition cmd (o : string) (a : option string) : Occurrence :=
  {| opt := o; arg := a |}.

(** [main.py --save-dir out --epoch 1] *)
Definition argv_one_epoch : list Occurrence :=
  [cmd "--save-dir" (Some "out"); cmd "--epoch" (Some "1")].

(** [main.py --save-dir out --resume missing.tar] *)
Definition argv_resume_missing : list Occurrence :=
  [cmd "--save-dir" (Some "out"); cmd "--resume" (Some "missing.tar")].

(** [main.py --save-dir out --pretrained missing.tar] *)
Definition argv_pretrained_missing : list Occurrence :=
  [cmd "--save-dir" (Some "out"); cmd "--pretrained" (Some "missing.tar")].

(** [main.py --save-dir out --resume ck.tar --epoch 8] *)
Definition argv_resume : list Occurrence :=
  [cmd "--save-dir" (Some "out"); cmd "--resume" (Some "ck.tar");
   cmd "--epoch" (Some "8")].

(** [main.py --save-dir out --bitwidth-data 0] *)
Definition argv_zero_bitwidth : list Occurrence :=
  [cmd "--save-dir" (Some "out"); cmd "--bitwidth-data" (Some "0")].

(** [main.py --save-dir out --range-method 1] *)
Definition argv_range_method : list Occurrence :=
  [cmd "--save-dir" (Some "out"); cmd "--range-method" (Some "1")].

(** [main.py --save-dir '' --bitwidth-data 0] *)
Definition argv_no_dir_zero_bitwidth : list Occurrence :=
  [cmd "--save-dir" (Some ""); cmd "--bitwidth-data" (Some "0")].

(** [main.py -h --range-method 2] *)
Definition argv_help_range_method : list Occurrence :=
  [cmd "-h" None; cmd "--range-method" (Some "2")].

(** The decimal digits of 10^400 and of 10^400 + 1. *)
Definition far_digits (last : string) : string :=
  "1" +:+ String.concat "" (replicate 399 "0") +:+ last.

(** [main.py --save-dir out --start-epoch 10^400 --epoch 10^400+1] *)
Definition argv_far_epoch : list Occurrence :=
  [cmd "--save-dir" (Some "out");
   cmd "--start-epoch" (Some (far_digits "0"));
   cmd "--epoch" (Some (far_digits "1"))].

(** [main.py --save-dir out -b 0] *)
Definition argv_zero_batch : list Occurrence :=
  [cmd "--save-dir" (Some "out"); cmd "-b" (Some "0")].

(** [main.py --save-dir out --lr -1] *)
Definition argv_negative_lr : list Occurrence :=
  [cmd "--save-dir" (Some "out"); cmd "--lr" (Some "-1")].

End Example.
(** ** Notions used by the statements *)

(** [wp c Φ h g]: running [c] from globals [g] after the events [h] ends
    with a trace and an outcome that satisfy [Φ].  The driver is a total
    function, so this is its result read as a postcondition. *)
Definition wp {A} (c : M A) (Φ : list event -> Outcome A -> Prop)
    (h : list event) (g : Globals) : Prop :=
  Φ (h ++ (c g).1) (c g).2.

(** The learning rate of every parameter group. *)
Definition lrs (o : Optimizer) : list (option Q) :=
  map (fun group => group !! "lr") (param_groups o).

(** The policy of [role] in the module called [name]. *)
Definition policy_of (m : FixNet) (name role : string) : option FixPolicy :=
  md ← List.find (fun md => String.eqb (module_name md) name) (modules m);
  policies md !! role.

(** What [train] emits after its mode switch, on a model built with
    configuration [c]: batches that run with every policy in AUTO,
    gradients handed to the optimizer through the backward hook, optimizer
    steps and progress lines. *)
Definition train_event (W : World) (c : FixConfig) (e : event) : Prop :=
  match e with
  | EvTrainBatch _ _ m => config m = c /\ all_modes FIX_AUTO m
  | EvBackward raw handed =>
      handed = backward_hook (estimate_range W) (rounding_mode W) c <$> raw
  | EvOptimizerStep | EvPrintEpoch _ _ => True
  | _ => False
  end.

(** What [validate] emits between its mode switch and its summary line:
    batches that run with every policy in FIXED, and progress lines. *)
Definition validate_event (c : FixConfig) (e : event) : Prop :=
  match e with
  | EvValBatch _ m => config m = c /\ all_modes FIX_FIXED m
  | EvPrintTest _ => True
  | _ => False
  end.

(** The trace of one call of [train] / [validate]. *)
Definition train_trace (W : World) (c : FixConfig) (tr : list event) : Prop :=
  exists batches,
    tr = EvSetFixMethod FIX_AUTO None :: EvModelTrain :: batches /\
    Forall (train_event W c) batches.

Definition validate_trace (c : FixConfig) (tr : list event) : Prop :=
  exists batches,
    tr = EvSetFixMethod FIX_FIXED None :: EvModelEval :: batches /\
    Forall (validate_event c) batches.

(** An event of a training or evaluation phase. *)
Definition is_step (e : event) : Prop :=
  match e with
  | EvSetFixMethod _ _ | EvModelTrain | EvModelEval
  | EvTrainBatch _ _ _ | EvValBatch _ _ | EvBackward _ _ | EvOptimizerStep
  | EvPrintLr _ _ | EvPrintEpoch _ _ | EvPrintTest _ | EvPrintPrec _ _
  | EvPrintBest _ | EvTorchSave _ _ => True
  | _ => False
  end.

(** An event of the first half of [main]: not a step of a phase, and a
    [torch.load] only of an existing file. *)
Definition quiet (W : World) (e : event) : Prop :=
  match e with
  | EvPrint _ | EvSetDevice _ | EvMakedirs _ | EvPrintFixConfigs _ | EvCuda
  | EvDataParallel _ | EvLoadStateDict _ | EvDataLoaders => True
  | EvTorchLoad path => isfile W path = true
  | _ => False
  end.

(** The configuration derived from the construction arguments, as
    [main] passes them to [FixNet(...)]. *)
Definition int_attr (a : Namespace) (name : string) : option Z :=
  v ← a !! name; int_of v.

Definition derived_config (a : Namespace) : option FixConfig :=
  float_bn ← a !! "float_bn";
  fix_grad ← a !! "fix_grad";
  rm ← int_attr a "range_method";
  rm ← range_method_of_Z rm;
  grm ← int_attr a "grad_range_method";
  grm ← range_method_of_Z grm;
  bd ← int_attr a "bitwidth_data";
  bg ← int_attr a "bitwidth_grad";
  Some {| fix_bn := negb (truthy float_bn); fix_grad := truthy fix_grad;
          range_method := rm; grad_range_method := grm;
          bitwidth_data := bd; bitwidth_grad := bg |}.

(** Every policy of the model has the data bitwidth and the data range
    method of the configuration. *)
Definition policies_follow (c : FixConfig) (m : FixNet) : Prop :=
  Forall (fun md =>
            map_Forall (fun _ p => bitwidth p = bitwidth_data c /\
                                   method (range p) = range_method c)
                       (policies md))
         (modules m).

(** The checkpoint that [--resume] or [--pretrained] (attribute [name])
    makes [main] load, if any. *)
Definition loaded (W : World) (a : Namespace) (name : string)
    : option Checkpoint :=
  match a !! name with
  | Some (VStr path) => if String.eqb path "" then None else mjoin (files W !! path)
  | _ => None
  end.

(** The path given for attribute [name], if one is given, names a file
    that holds a checkpoint. *)
Definition checkpoint_present (W : World) (a : Namespace) (name : string) : Prop :=
  forall path, a !! name = Some (VStr path) -> path <> "" ->
    exists ck, files W !! path = Some (Some ck).

(** The locals and globals at the end of the first half of [main], for
    the arguments [a]: the model has the configuration derived from the
    arguments, its tensors are those of the last checkpoint loaded (or
    the initial ones), and only [--resume] changes [start_epoch] and
    [best_prec1]. *)
Definition started (W : World) (a : Namespace) (g : Globals)
    (l : locals) (g' : Globals) : Prop :=
  let model := l.1.1.1 in
  exists c,
    derived_config a = Some c /\
    0 < bitwidth_data c /\ 0 < bitwidth_grad c /\
    config model = c /\
    policies_follow c model /\
    state model =
      from_option ck_state_dict
        (from_option ck_state_dict (initial_state (topology W))
           (loaded W a "resume"))
        (loaded W a "pretrained") /\
    args g' = match loaded W a "resume" with
              | Some ck => <["start_epoch" := VInt (ck_epoch ck)]> a
              | None => a
              end /\
    best_prec1 g' = match loaded W a "resume" with
                    | Some ck => ck_best_prec1 ck
                    | None => best_prec1 g
                    end /\
    checkpoint_present W a "resume" /\
    checkpoint_present W a "pretrained".

(** An event of the second half of [main], on a model built with
    configuration [c]: training batches run with every policy in AUTO,
    evaluation batches with every policy in FIXED, and the gradients
    handed to the optimizer are the raw ones passed through the backward
    hook. *)
Definition phase_event (W : World) (c : FixConfig) (e : event) : Prop :=
  match e with
  | EvTrainBatch _ _ m => config m = c /\ all_modes FIX_AUTO m
  | EvValBatch _ m => config m = c /\ all_modes FIX_FIXED m
  | EvBackward raw handed =>
      handed = backward_hook (estimate_range W) (rounding_mode W) c <$> raw
  | _ => True
  end.

(** Gradients reach the optimizer as autograd computed them. *)
Definition gradients_untouched (e : event) : Prop :=
  match e with
  | EvBackward raw handed => handed = raw
  | _ => True
  end.

Definition is_save (e : event) : Prop :=
  match e with EvTorchSave _ _ => True | _ => False end.

Definition is_summary (e : event) : Prop :=
  match e with EvPrintPrec _ _ => True | _ => False end.

(** Traces in which every save is justified: a checkpoint is written
    right after a validation summary whose precision exceeds 90 and the
    precision of every earlier summary, and it records that precision. *)
Inductive justified : list event -> Prop :=
| justified_nil : justified []
| justified_snoc h e : justified h -> ~ is_save e -> justified (h ++ [e])
| justified_save h avg best file ck :
    justified h ->
    (90 < avg)%Q ->
    (best < avg)%Q ->
    (forall avg' best', In (EvPrintPrec avg' best') h -> (avg' < avg)%Q) ->
    ck_best_prec1 ck = avg ->
    justified (h ++ [EvPrintPrec avg best; EvTorchSave file ck]).

(** No validation summary so far reports more than [best]. *)
Definition bounded (best : Q) (h : list event) : Prop :=
  forall avg b, In (EvPrintPrec avg b) h -> (avg <= best)%Q.

(** The invariant of the second half of [main]. *)
Definition phase_inv (W : World) (c : FixConfig) (h : list event)
    (g : Globals) : Prop :=
  Forall (phase_event W c) h /\ justified h /\ bounded (best_prec1 g) h.

(** An event that is neither a batch, a gradient, a save nor a summary. *)
Definition plain (e : event) : Prop :=
  match e with
  | EvTrainBatch _ _ _ | EvValBatch _ _ | EvBackward _ _
  | EvTorchSave _ _ | EvPrintPrec _ _ => False
  | _ => True
  end.

(** The value the command line gives attribute [name], when the parser
    accepts the command line. *)
Definition given (W : World) (argv : list Occurrence) (name : string)
    : option pyval :=
  match parse_args (float_of_string W) parser argv with
  | inr a => a !! name
  | inl _ => None
  end.

(** The errors that reject a configuration: the usage error of the parser
    and the configuration error of the constructor. *)
Definition configuration_error (e : error) : Prop :=
  match e with
  | UsageError _ | ConfigurationError _ => True
  | _ => False
  end.

(** The run stopped before [FixNet(...)] was called, with the
    exception [e]: the parser printed the help and left, or the
    conversion of the [--gpu] list, [torch.cuda.set_device] or
    [os.makedirs] raised [e]. *)
Definition stopped_earlier (W : World) (argv : list Occurrence) (e : error)
    : Prop :=
  (e = HelpExit /\ Exists (fun o => asks_help o = true) argv) \/
  (exists s, given W argv "gpu" = Some (VStr s) /\
             (ints (split "," s) = inl e \/
              exists d ds, ints (split "," s) = inr (d :: ds) /\
                           set_device_error W d = Some e)) \/
  (exists dir, given W argv "save_dir" = Some (VStr dir) /\
               path_exists W dir = false /\
               makedirs_error W dir = Some e).

(** The events that precede the construction of the model. *)
Definition before_model (e : event) : Prop :=
  match e with
  | EvPrint _ | EvSetDevice _ | EvMakedirs _ => True
  | _ => False
  end.

(** The first checkpoint save of a trace, with what precedes and what
    follows it. *)
Fixpoint split_at_save (tr : list event)
    : option (list event * (string * Checkpoint) * list event) :=
  match tr with
  | [] => None
  | EvTorchSave file ck :: post => Some ([], (file, ck), post)
  | e :: tr' =>
      match split_at_save tr' with
      | Some (pre, s, post) => Some (e :: pre, s, post)
      | None => None
      end
  end.

(** An outcome that is an uncaught exception. *)
Definition fails {A} (o : Outcome A) : Prop :=
  match o with inl _ => True | inr _ => False end.

(** The mode under which a batch of a phase runs: AUTO for every policy of
    a training batch, FIXED for every policy of an evaluation batch. *)
Definition phase_modes (e : event) : Prop :=
  match e with
  | EvTrainBatch _ _ m => all_modes FIX_AUTO m
  | EvValBatch _ m => all_modes FIX_FIXED m
  | _ => True
  end.

(** No mode switch and no batch of the other phase among the events that
    follow the mode switch of a phase. *)
Definition within_training (e : event) : Prop :=
  match e with
  | EvSetFixMethod _ _ | EvValBatch _ _ => False
  | EvTrainBatch _ _ m => all_modes FIX_AUTO m
  | _ => True
  end.

Definition within_evaluation (e : event) : Prop :=
  match e with
  | EvSetFixMethod _ _ | EvTrainBatch _ _ _ => False
  | EvValBatch _ m => all_modes FIX_FIXED m
  | _ => True
  end.

(** The reading of the exemption of running statistics as a property of
    [train]: whenever a training batch runs, the policy of the running
    mean and of the running variance of a BatchNorm2d_fix module is in
    mode NONE. *)
Definition running_statistics_exempt_in_training : Prop :=
  forall (W : World) loader model optimizer epoch g e i m md role p,
    In (EvTrainBatch e i m) (train W loader model optimizer epoch g).1 ->
    In md (modules m) ->
    module_type md = "BatchNorm2d_fix" ->
    role = "running_mean" \/ role = "running_var" ->
    policies md !! role = Some p ->
    mode p = FIX_NONE.

(** A model with one normalization layer, all policies in NONE. *)
Definition bn_model : FixNet :=
  {| config := {| fix_bn := true; fix_grad := false;
                  range_method := RANGE_MAX; grad_range_method := RANGE_MAX;
                  bitwidth_data := 8; bitwidth_grad := 16 |};
     modules :=
       [ {| module_name := "bn1"; module_type := "BatchNorm2d_fix";
            policies :=
              {[ "running_mean" :=
                   {| mode := FIX_NONE; bitwidth := 8;
                      range := {| method := RANGE_MAX; value := 1 |} |} ]} |} ];
     state := {[ "bn1.running_mean" := [(1 # 3)%Q] ]} |}.

(** *** The namespace after a successful parse *)

Inductive pytype := TyStr | TyInt | TyFloat | TyBool | TyZero.

Definition has_type (t : pytype) (v : pyval) : Prop :=
  match t, v with
  | TyStr, VStr _ | TyInt, VInt _ | TyFloat, VFloat _ | TyBool, VBool _ => True
  | TyZero, VInt z => z = 0
  | _, _ => False
  end.

(** The type each attribute holds once the parser has accepted a command
    line.  The two range methods can only be 0: the parser compares the
    argument string with the integers 0, 1, 3. *)
Definition schema : list (string * pytype) :=
  [ ("save_dir", TyStr); ("gpu", TyStr); ("epoch", TyInt);
    ("start_epoch", TyInt); ("batch_size", TyInt);
    ("test_batch_size", TyInt); ("lr", TyFloat); ("momentum", TyFloat);
    ("weight_decay", TyFloat); ("print_freq", TyInt); ("resume", TyStr);
    ("prefix", TyStr); ("float_bn", TyBool); ("fix_grad", TyBool);
    ("range_method", TyZero); ("grad_range_method", TyZero);
    ("evaluate", TyBool); ("pretrained", TyStr);
    ("bitwidth_data", TyInt); ("bitwidth_grad", TyInt) ].

Definition type_for (d : string) : option pytype :=
  snd <$> List.find (fun dt => String.eqb dt.1 d) schema.

Definition well_typed (ns : Namespace) : Prop :=
  forall d t, type_for d = Some t ->
    exists v, ns !! d = Some v /\ has_type t v.

(** The invariant of the parse: every attribute is present, with a value
    of its type, the required [save_dir] at the latest once seen. *)
Definition parse_invariant (st : ParseState) : Prop :=
  forall d t, type_for d = Some t ->
    exists v, ns st !! d = Some v /\
              (has_type t v \/ (d = "save_dir" /\ d ∉ seen st)).

(** What a successful [consume] stores for an action. *)
Definition stored (float_of_string : string -> option Q) (a : Action)
    (arg : option string) (v : pyval) : Prop :=
  match action a with
  | Store =>
      exists s, arg = Some s /\
                convert float_of_string (type_ a) s = Some v /\
                match choices a with
                | Some cs => py_in v cs = true
                | None => True
                end
  | StoreTrue => arg = None /\ v = VBool true
  end.

(** The command line selects a range method (for data or for
    gradients). *)
Definition selects_range_method (o : Occurrence) : Prop :=
  opt o = "--range-method" \/ opt o = "--grad-range-method".

(** A command line with a range method outside 0, 1, 3, or one the
    parser accepts with a bitwidth that is not positive. *)
Definition invalid_configuration (W : World) (argv : list Occurrence) : Prop :=
  Exists (fun o => selects_range_method o /\
                   forall s z, arg o = Some s -> py_int s = Some z ->
                               range_method_of_Z z = None) argv \/
  (exists b, b <= 0 /\
     (given W argv "bitwidth_data" = Some (VInt b) \/
      given W argv "bitwidth_grad" = Some (VInt b))).

(** The claim as it is written: every such run ends with a
    configuration error. *)
Definition rejected_with_configuration_error : Prop :=
  forall (W : World) (argv : list Occurrence),
    invalid_configuration W argv ->
    exists e, (run W argv).2 = inl e /\ configuration_error e.

(** The claim as it is written, read as a property of
    [adjust_learning_rate] in a program whose optimizer was built from
    [args.lr] (so that [torch.optim.SGD] has accepted the rate): for
    every epoch [e >= 0] the call returns, and every parameter group
    then holds [args.lr * 0.5^(e div 10)]. *)
Definition learning_rate_set_at_every_epoch : Prop :=
  forall (optimizer : Optimizer) g lr0 momentum weight_decay e,
    args g !! "lr" = Some (VFloat lr0) ->
    SGD lr0 momentum weight_decay = inr optimizer ->
    0 <= e ->
    exists optimizer',
      (adjust_learning_rate optimizer e g).2 = inr (optimizer', g) /\
      Forall (fun l => l = Some (lr0 * (1 # 2) ^ (e `div` 10))%Q)
             (lrs optimizer').

(** An epoch number too large for a float: 10^400. *)
Definition far_epoch : Z := 10 ^ 400.

(** Globals as [main] leaves them for the default learning rate. *)
Definition default_lr_globals : Globals :=
  {| args := {[ "lr" := VFloat (5 # 100) ]}; best_prec1 := 90 |}.

(** Globals as [main] leaves them for a run with the default print
    frequency. *)
Definition bn_globals : Globals :=
  {| args := {[ "print_freq" := VInt 40 ]}; best_prec1 := 90 |}.

(** The trace of one training epoch over a single batch on [bn_model]. *)
Definition bn_train_trace : list event :=
  (train (Example.world Example.all_correct) (fun _ => [Example.batch 4])
         bn_model (SGD_groups (5 # 100) (9 # 10) (5 # 10000)) 0 bn_globals).1.

(** ** Notions used by the further properties *)

(** A result that is not an exception. *)
Definition succeeds {E A} (r : E + A) : bool :=
  match r with inr _ => true | inl _ => false end.

(** An occurrence whose option string the parser does not know: no row
    of the table declares it, and it is not a help option. *)
Definition unknown_option (o : Occurrence) : Prop :=
  (opt o ∉ help_option_strings) /\ find_action parser (opt o) = None.

(** How the parser leaves when it does not return a namespace: with the
    usage error, or, when an option asks for it, with the help. *)
Definition parser_exit (argv : list Occurrence) (e : error) : Prop :=
  match e with
  | UsageError _ => True
  | HelpExit => Exists (fun o => asks_help o = true) argv
  | _ => False
  end.

(** *** Reading a trace *)

(** The epochs whose learning rate a trace sets, in order. *)
Definition lr_epochs (h : list event) : list Z :=
  omap (fun e => match e with EvPrintLr epoch _ => Some epoch | _ => None end) h.

(** The precisions of the validation summaries of a trace, in order. *)
Definition summaries (h : list event) : list Q :=
  omap (fun e => match e with EvPrintPrec avg _ => Some avg | _ => None end) h.

(** [best_prec1] after validations with the precisions [avgs]:
    [best_prec1 = max(prec1, best_prec1)] after each. *)
Definition best_after (best : Q) (avgs : list Q) : Q :=
  foldl (fun b avg => py_max avg b) best avgs.

(** The epoch of the last learning-rate line of a trace, [cur] when it
    has none. *)
Fixpoint cur_after (cur : option Z) (h : list event) : option Z :=
  match h with
  | [] => cur
  | EvPrintLr epoch _ :: h' => cur_after (Some epoch) h'
  | _ :: h' => cur_after cur h'
  end.

(** The checkpoints a trace writes, each with the epoch of the last
    learning-rate line before it. *)
Fixpoint save_log (cur : option Z) (h : list event)
    : list (option Z * (string * Checkpoint)) :=
  match h with
  | [] => []
  | EvPrintLr epoch _ :: h' => save_log (Some epoch) h'
  | EvTorchSave file ck :: h' => (cur, (file, ck)) :: save_log cur h'
  | _ :: h' => save_log cur h'
  end.

(** An event that is no learning-rate line, no validation summary, no
    save and no final line. *)
Definition inert (e : event) : Prop :=
  match e with
  | EvPrintLr _ _ | EvPrintPrec _ _ | EvTorchSave _ _ | EvPrintBest _ => False
  | _ => True
  end.

(** A save as [main] makes it: the checkpoint records the epoch after
    the one whose learning rate was set last, and the file is the one
    that [os.path.join] and the format string build from
    [args.save_dir], [args.prefix] and the precision the checkpoint
    records. *)
Definition save_ok (a : Namespace)
    (s : option Z * (string * Checkpoint)) : Prop :=
  let '(cur, (file, ck)) := s in
  cur = Some (ck_epoch ck - 1) /\
  exists dir pfx,
    a !! "save_dir" = Some (VStr dir) /\
    a !! "prefix" = Some (VStr pfx) /\
    file = checkpoint_file dir pfx (ck_best_prec1 ck).

(** The trace of [main] while its loop has the epochs [rest] still to
    run, out of [range(start, total)]: the learning rate has been set for
    the epochs before them, in order, and every save is as above. *)
Definition loop_trace (a : Namespace) (start total : Z) (rest : list Z)
    (h : list event) : Prop :=
  lr_epochs h ++ rest = py_range start total /\
  Forall (save_ok a) (save_log None h).

(** The invariant of the loop of [main]: [args] is not touched, and
    [best_prec1] is the best of its first value and the validations so
    far. *)
Definition loop_inv (a : Namespace) (best0 : Q) (start total : Z)
    (rest : list Z) (h : list event) (g : Globals) : Prop :=
  loop_trace a start total rest h /\
  args g = a /\
  best_prec1 g = best_after best0 (summaries h).

(** An event that only the loop of [main] produces: a learning-rate
    line, a step of [train], a save, the final line. *)
Definition training_event (e : event) : Prop :=
  match e with
  | EvPrintLr _ _ | EvModelTrain | EvTrainBatch _ _ _ | EvBackward _ _
  | EvOptimizerStep | EvPrintEpoch _ _ | EvTorchSave _ _ | EvPrintBest _
  | EvSetFixMethod FIX_AUTO _ => True
  | _ => False
  end.

(** The epoch the loop of [main] starts at: the epoch of the checkpoint
    that [--resume] loads, else [args.start_epoch]. *)
Definition first_epoch (W : World) (a : Namespace) : option Z :=
  match loaded W a "resume" with
  | Some ck => Some (ck_epoch ck)
  | None => int_attr a "start_epoch"
  end.

(** The best precision the loop of [main] starts with: that of the
    checkpoint that [--resume] loads, else the initial 90. *)
Definition first_best (W : World) (a : Namespace) : Q :=
  match loaded W a "resume" with
  | Some ck => ck_best_prec1 ck
  | None => best_prec1 initial_globals
  end.

(** The policy of a running statistic of a normalization layer. *)
Definition running_statistic (md : FixModule) (role : string) : Prop :=
  module_type md = "BatchNorm2d_fix" /\
  (role = "running_mean" \/ role = "running_var").

(** What stands behind each event of the first half of [main], for the
    arguments [a]: the device set is the first of the [--gpu] list, the
    directory made is [--save-dir] and did not exist, the model is wrapped
    for several devices only when the list names more than one, a file is
    loaded only when [--resume] or [--pretrained] names it and it exists,
    and the tensors restored are those of a checkpoint in such a file. *)
Definition startup_event (W : World) (a : Namespace) (e : event) : Prop :=
  match e with
  | EvSetDevice d =>
      exists gpu ds,
        a !! "gpu" = Some (VStr gpu) /\ ints (split "," gpu) = inr (d :: ds)
  | EvMakedirs dir =>
      a !! "save_dir" = Some (VStr dir) /\ path_exists W dir = false
  | EvDataParallel gpus =>
      (1 < length gpus)%nat /\
      exists gpu, a !! "gpu" = Some (VStr gpu) /\ ints (split "," gpu) = inr gpus
  | EvTorchLoad path =>
      path <> "" /\ isfile W path = true /\
      (a !! "resume" = Some (VStr path) \/ a !! "pretrained" = Some (VStr path))
  | EvLoadStateDict sd =>
      exists path ck,
        files W !! path = Some (Some ck) /\ sd = ck_state_dict ck /\
        (a !! "resume" = Some (VStr path) \/
         a !! "pretrained" = Some (VStr path))
  | EvPrint _ | EvPrintFixConfigs _ | EvCuda | EvDataLoaders => True
  | _ => False
  end.

(** *** More example runs *)

(** [main.py --save-dir out --evaluate] *)
Definition argv_evaluate : list Occurrence :=
  [Example.cmd "--save-dir" (Some "out"); Example.cmd "--evaluate" None].

(** [main.py --save-dir out --resume ck.tar --epoch 7]: the checkpoint
    was written after epoch 6, so no epoch is left. *)
Definition argv_finished : list Occurrence :=
  [Example.cmd "--save-dir" (Some "out");
   Example.cmd "--resume" (Some "ck.tar"); Example.cmd "--epoch" (Some "7")].

(** [main.py --save-dir out --epoch 2] *)
Definition argv_two_epochs : list Occurrence :=
  [Example.cmd "--save-dir" (Some "out"); Example.cmd "--epoch" (Some "2")].

(** [main.py --save-dir out --resume out/checkpoint__96.000.tar
    --epoch 3] *)
Definition argv_rerun : list Occurrence :=
  [Example.cmd "--save-dir" (Some "out");
   Example.cmd "--resume" (Some "out/checkpoint__96.000.tar");
   Example.cmd "--epoch" (Some "3")].

(** A world in which training helps: every optimizer step adds 1 to
    every weight, and of the 100 validation samples 95 plus the whole
    part of the first weight are classified correctly.  [files] are
    those the run starts with. *)
Definition rising_world (files : gmap string (option Checkpoint)) : World :=
  {| float_of_string := Example.parse_float;
     path_exists := fun _ => true;
     makedirs_error := fun _ => None;
     set_device_error := fun _ => None;
     files := files;
     topology := Example.net;
     rounding_mode := HalfEven;
     estimate_range := fun _ => Example.range_max;
     observed := fun m _ name role =>
                   from_option id [] (state m !! (name +:+ "." +:+ role));
     loss_of := fun _ _ => 1%Q;
     correct_top1 := fun m _ =>
                       95 + Qfloor (List.hd 0%Q
                                      (from_option id [] (state m !! "conv1.weight")));
     autograd := fun m _ => state m;
     sgd_step := fun _ params grads =>
                   (map (fun x => (x + 1)%Q) <$> params, grads);
     train_loader := fun _ _ => [Example.batch 4];
     val_loader := fun _ => [Example.batch 100] |}.

(** The namespace of a command line that the parser accepts (with the
    [float] of the examples). *)
Definition parsed (argv : list Occurrence) : Namespace :=
  match parse_args Example.parse_float parser argv with
  | inr a => a
  | inl _ => ∅
  end.

(** The globals a run ends with, when it ends without an exception. *)
Definition final_globals (o : Outcome unit) : Globals :=
  match o with
  | inr (_, g) => g
  | inl _ => initial_globals
  end.

(** The first two saves of a trace, with what is around them. *)
Definition split_two_saves (h : list event)
    : option (list event * (string * Checkpoint) * list event
              * (string * Checkpoint) * list event) :=
  match split_at_save h with
  | Some (pre, s1, rest) =>
      match split_at_save rest with
      | Some (mid, s2, post) => Some (pre, s1, mid, s2, post)
      | None => None
      end
  | None => None
  end.

(** The first checkpoint a trace writes, [Example.saved] when it writes
    none. *)
Definition first_saved (h : list event) : Checkpoint :=
  match save_log None h with
  | (_, (_, ck)) :: _ => ck
  | [] => Example.saved
  end.

(** The value [accuracy] returns on a batch that is not empty. *)
Definition prec_of (W : World) (model : FixNet) (b : Batch) : Q :=
  (inject_Z (correct_top1 W model b)
   * (100 / inject_Z (Z.of_nat (length (target b)))))%Q.

(** How a batch can end in an exception: a division by zero (an empty
    batch, a meter without weight, [print_freq] 0), or a failed read of
    [args.print_freq]. *)
Definition batch_error (g : Globals) (e : error) : Prop :=
  e = ZeroDivisionError \/
  (e = TypeError "int" /\
   exists v, args g !! "print_freq" = Some v /\ int_of v = None) \/
  (e = AttributeError "print_freq" /\ args g !! "print_freq" = None).

(** The progress line of batch [i], when [print_freq] says it is due. *)
Definition progress_line (g : Globals) (i : Z) (line : event)
    (tr : list event) : Prop :=
  exists v pf,
    args g !! "print_freq" = Some v /\ int_of v = Some pf /\ pf <> 0 /\
    tr = if i `mod` pf =? 0 then [line] else [].
(** * Properties *)

(** ** AverageMeter *)

Section AverageMeterFacts.
Import AverageMeter.

Lemma update_pos v n m :
  0 <= count m -> 0 < n ->
  update v n m =
    inr {| val := v;
           avg := ((sum m + v * inject_Z n) / inject_Z (count m + n))%Q;
           sum := (sum m + v * inject_Z n)%Q;
           count := count m + n |}.
Proof.
  intros Hc Hn. unfold update.
  destruct (Z.eqb_spec (count m + n) 0) as [E|E]; [lia | reflexivity].
Qed.

Lemma updates_from us : forall m,
  0 <= count m ->
  Forall (fun u => 0 < u.2) us ->
  exists m',
    updates us m = inr m' /\
    count m' = count m + total_n us /\
    (sum m' == sum m + total_val us)%Q /\
    0 <= count m' /\
    (us <> [] -> 0 < count m' /\ (avg m' == sum m' / inject_Z (count m'))%Q).
Proof.
  induction us as [|[v n] us IH]; intros m Hc Hpos.
  - exists m. cbn. repeat split; try lia; try ring; congruence.
  - apply Forall_cons in Hpos as [Hn Hpos]. cbn in Hn.
    cbn [updates]. rewrite update_pos by assumption.
    set (m1 := {| val := v |}).
    destruct (IH m1) as (m' & Hrun & Hcount & Hsum & Hge & Havg);
      [cbn; lia | assumption |].
    exists m'. split; [exact Hrun|].
    unfold total_n, total_val in *. cbn in Hcount, Hsum |- *.
    split; [lia|]. split; [rewrite Hsum; ring|]. split; [exact Hge|].
    intros _. destruct us as [|u us'].
    + cbn in Hrun. injection Hrun as <-. cbn. split; [lia | reflexivity].
    + apply Havg. discriminate.
Qed.

End AverageMeterFacts.


(** A concrete run: two batches of 128 and 64 samples. *)
Example two_batches_run :
  AverageMeter.updates Example.two_batches AverageMeter.init =
    inr (AverageMeter.mk (3 # 4) (896 # 1536) (896 # 8) 192) /\
  (896 # 8 == 112)%Q /\ (896 # 1536 == 7 # 12)%Q.
Proof. repeat split. Qed.


(** ** The quantizer *)

Section QuantizerFacts.
Import Core.

Lemma round_comp rm (x y : Q) : (x == y)%Q -> round rm x = round rm y.
Proof.
  intros H. unfold round.
  assert (Hf : Qfloor x = Qfloor y) by (apply Qfloor_comp; exact H).
  assert (Hc : (x - inject_Z (Qfloor x) ?= 1 # 2)%Q
               = (y - inject_Z (Qfloor y) ?= 1 # 2)%Q).
  { apply Qcompare_comp; [rewrite Hf, H; reflexivity | reflexivity]. }
  rewrite Hc, Hf. reflexivity.
Qed.

Lemma round_inject_Z rm (k : Z) : round rm (inject_Z k) = k.
Proof.
  unfold round. rewrite Qfloor_Z.
  generalize (inject_Z k). intros q.
  destruct (Qcompare_spec (q - q) (1 # 2)) as [H|H|H];
    [exfalso; lra | reflexivity | exfalso; lra].
Qed.

Lemma clamp_idem lo hi k : clamp lo hi (clamp lo hi k) = clamp lo hi k.
Proof. unfold clamp. lia. Qed.

Lemma level_of_quantized rm b r x :
  level_of rm b r (quantize_value rm b r x) = level_of rm b r x.
Proof.
  unfold quantize_value.
  set (k := level_of rm b r x). set (s := scale b r).
  unfold level_of. fold s.
  destruct (Qeq_dec s 0) as [Hz|Hnz].
  - (* a zero scale: both quotients are 0 *)
    assert (H1 : (inject_Z k * s / s == x / s)%Q).
    { unfold Qdiv. rewrite Hz. unfold Qinv; cbn. ring. }
    rewrite (round_comp rm _ _ H1). reflexivity.
  - assert (H1 : (inject_Z k * s / s == inject_Z k)%Q)
      by (apply Qdiv_mult_l; exact Hnz).
    rewrite (round_comp rm _ _ H1), round_inject_Z.
    subst k. unfold level_of. apply clamp_idem.
Qed.

Lemma quantize_value_idem rm b r x :
  quantize_value rm b r (quantize_value rm b r x) = quantize_value rm b r x.
Proof.
  unfold quantize_value at 1 3.
  rewrite level_of_quantized. reflexivity.
Qed.

End QuantizerFacts.

(** C7.  For every tensor [x], either tie rule of [round], every range
    descriptor [r] and every bitwidth [b >= 2], quantizing twice with the
    same bitwidth and range descriptor gives exactly what quantizing once
    gives. *)
Theorem quantize_idempotent (rm : Core.rounding) (b : Z)
    (r : Core.RangeDescriptor) (x : Core.Tensor) :
  2 <= b ->
  Core.quantize rm b r (Core.quantize rm b r x) = Core.quantize rm b r x.
Proof.
  intros _. unfold Core.quantize.
  induction x as [|v x IH]; cbn; [reflexivity|].
  rewrite quantize_value_idem. f_equal. exact IH.
Qed.

(** The spec's tensor [-10, -1, 0, 1, 10] at bitwidth 8 with range 10. *)
Lemma quantize_idempotent_witness :
  2 <= 8 /\
  let r := {| Core.method := Core.RANGE_MAX; Core.value := 10 |} in
  let x := [(- (10))%Q; (- (1))%Q; 0%Q; 1%Q; 10%Q] in
  Core.quantize Core.HalfEven 8 r (Core.quantize Core.HalfEven 8 r x)
  = Core.quantize Core.HalfEven 8 r x.
Proof.
  split; [lia|]. intros r x.
  apply (quantize_idempotent Core.HalfEven 8 r x). lia.
Defined.

(** ** Rules for [wp] *)

Section WpRules.
Context {A B : Type}.

Lemma wp_ret (a : A) Φ h g : Φ h (inr (a, g)) -> wp (mret a) Φ h g.
Proof. unfold wp; cbn. rewrite app_nil_r. done. Qed.

Lemma wp_raise (e : error) (Φ : list event -> Outcome A -> Prop) h g :
  Φ h (inl e) -> wp (raise e) Φ h g.
Proof. unfold wp; cbn. rewrite app_nil_r. done. Qed.

Lemma wp_bind (c : M A) (k : A -> M B) Φ h g :
  wp c (fun h' o => match o with
                    | inl e => Φ h' (inl e)
                    | inr (a, g') => wp (k a) Φ h' g'
                    end) h g ->
  wp (c ≫= k) Φ h g.
Proof.
  unfold wp, mbind, M_bind.
  destruct (c g) as [tr [e|[a g']]]; cbn; [done|].
  rewrite app_assoc. done.
Qed.

Lemma wp_lift (r : error + A) Φ h g :
  match r with inl e => Φ h (inl e) | inr a => Φ h (inr (a, g)) end ->
  wp (lift r) Φ h g.
Proof. destruct r; [apply wp_raise | apply wp_ret]. Qed.

Lemma wp_mono (c : M A) (Φ Ψ : list event -> Outcome A -> Prop) h g :
  (forall h' o, Φ h' o -> Ψ h' o) -> wp c Φ h g -> wp c Ψ h g.
Proof. unfold wp. auto. Qed.

(** An exception ends the sequence. *)
Lemma bind_raise (c : M A) (k : A -> M B) g tr e :
  c g = (tr, inl e) -> (c ≫= k) g = (tr, inl e).
Proof. intros H. unfold mbind, M_bind. rewrite H. reflexivity. Qed.

End WpRules.

Lemma wp_emit (e : event) Φ h g : Φ (h ++ [e]) (inr (tt, g)) -> wp (emit e) Φ h g.
Proof. done. Qed.

Lemma wp_call (fault : option error) (e : event) Φ h g :
  match fault with
  | Some err => Φ h (inl err)
  | None => Φ (h ++ [e]) (inr (tt, g))
  end ->
  wp (call fault e) Φ h g.
Proof. destruct fault; [apply wp_raise | apply wp_emit]. Qed.

Lemma wp_attr name Φ h g :
  match args g !! name with
  | Some v => Φ h (inr (v, g))
  | None => Φ h (inl (AttributeError name))
  end ->
  wp (attr name) Φ h g.
Proof.
  unfold wp, attr. destruct (args g !! name); cbn; rewrite app_nil_r; done.
Qed.

Lemma wp_setattr name v Φ h g :
  Φ h (inr (tt, {| args := <[name := v]> (args g); best_prec1 := best_prec1 g |})) ->
  wp (setattr name v) Φ h g.
Proof. unfold wp; cbn. rewrite app_nil_r. done. Qed.

Lemma wp_set_args a Φ h g :
  Φ h (inr (tt, {| args := a; best_prec1 := best_prec1 g |})) ->
  wp (set_args a) Φ h g.
Proof. unfold wp; cbn. rewrite app_nil_r. done. Qed.

Lemma wp_get_best_prec1 Φ h g :
  Φ h (inr (best_prec1 g, g)) -> wp get_best_prec1 Φ h g.
Proof. unfold wp; cbn. rewrite app_nil_r. done. Qed.

Lemma wp_set_best_prec1 q Φ h g :
  Φ h (inr (tt, {| args := args g; best_prec1 := q |})) ->
  wp (set_best_prec1 q) Φ h g.
Proof. unfold wp; cbn. rewrite app_nil_r. done. Qed.

Lemma wp_as_str v Φ h g :
  match v with
  | VStr s => Φ h (inr (s, g))
  | _ => Φ h (inl (TypeError "str"))
  end ->
  wp (as_str v) Φ h g.
Proof. destruct v; first [apply wp_ret | apply wp_raise]. Qed.

Lemma wp_as_int v Φ h g :
  match int_of v with
  | Some z => Φ h (inr (z, g))
  | None => Φ h (inl (TypeError "int"))
  end ->
  wp (as_int v) Φ h g.
Proof. unfold as_int. destruct (int_of v); [apply wp_ret | apply wp_raise]. Qed.

Lemma wp_as_float v Φ h g :
  match num_of v with
  | Some q => Φ h (inr (q, g))
  | None => Φ h (inl (TypeError "float"))
  end ->
  wp (as_float v) Φ h g.
Proof. unfold as_float. destruct (num_of v); [apply wp_ret | apply wp_raise]. Qed.

Lemma wp_py_assert (c : bool) Φ h g :
  (if c then Φ h (inr (tt, g)) else Φ h (inl AssertionError)) ->
  wp (py_assert c) Φ h g.
Proof. destruct c; [apply wp_ret | apply wp_raise]. Qed.

(** The loop rule, with an invariant over the remaining items, the loop
    state, the trace so far and the globals. *)
Lemma wp_for_each {X S} (body : S -> X -> M S)
    (I : list X -> S -> list event -> Globals -> Prop) Φ xs s h g :
  I xs s h g ->
  (forall x rest s h g,
     I (x :: rest) s h g ->
     wp (body s x) (fun h' o => match o with
                                | inl e => Φ h' (inl e)
                                | inr (s', g') => I rest s' h' g'
                                end) h g) ->
  (forall s h g, I [] s h g -> Φ h (inr (s, g))) ->
  wp (for_each body xs s) Φ h g.
Proof.
  intros HI Hbody Hdone. revert s h g HI.
  induction xs as [|x xs IH]; intros s h g HI; cbn [for_each].
  - apply wp_ret. auto.
  - apply wp_bind. eapply wp_mono; [|apply Hbody; exact HI].
    intros h' [e|[s' g']]; cbn; auto.
Qed.

(** One step of a walk through a computation. *)
Ltac wp_step :=
  lazymatch goal with
  | |- wp (mbind _ _) _ _ _ => apply wp_bind
  | |- wp (mret _) _ _ _ => apply wp_ret
  | |- wp (raise _) _ _ _ => apply wp_raise
  | |- wp (emit _) _ _ _ => apply wp_emit
  | |- wp (call _ _) _ _ _ => apply wp_call
  | |- wp (lift _) _ _ _ => apply wp_lift
  | |- wp (attr _) _ _ _ => apply wp_attr
  | |- wp (setattr _ _) _ _ _ => apply wp_setattr
  | |- wp (set_args _) _ _ _ => apply wp_set_args
  | |- wp get_best_prec1 _ _ _ => apply wp_get_best_prec1
  | |- wp (set_best_prec1 _) _ _ _ => apply wp_set_best_prec1
  | |- wp (as_str _) _ _ _ => apply wp_as_str
  | |- wp (as_int _) _ _ _ => apply wp_as_int
  | |- wp (as_float _) _ _ _ => apply wp_as_float
  | |- wp (py_assert _) _ _ _ => apply wp_py_assert
  | |- wp (if ?b then _ else _) _ _ _ => destruct b eqn:?
  | |- wp (match ?x with _ => _ end) _ _ _ => destruct x eqn:?
  | |- match ?x with _ => _ end => destruct x eqn:?
  | |- if ?b then _ else _ => destruct b eqn:?
  end; cbv beta iota.

Ltac wp_walk := repeat wp_step.

(** ** Modes under the orchestrator's operations *)

Section Modes.
Import Core.

Lemma apply_policy_mode est rm p x : mode (apply_policy est rm p x).2 = mode p.
Proof. unfold apply_policy. destruct (mode p) eqn:E; cbn; congruence. Qed.

Lemma apply_policy_bitwidth est rm p x :
  bitwidth (apply_policy est rm p x).2 = bitwidth p.
Proof. unfold apply_policy. destruct (mode p); reflexivity. Qed.

Lemma apply_policy_method est rm p x :
  method (range (apply_policy est rm p x).2) = method (range p).
Proof. unfold apply_policy. destruct (mode p); reflexivity. Qed.

Lemma all_modes_set_fix_method md m :
  all_modes md (set_fix_method md None m).
Proof.
  unfold all_modes, set_fix_method; cbn.
  apply Forall_map, Forall_forall. intros mo _. cbn.
  intros role p. rewrite map_lookup_imap.
  destruct (policies mo !! role) as [p0|]; cbn; [|discriminate].
  intros [= <-]. reflexivity.
Qed.

Lemma all_modes_forward est rm seen md m :
  all_modes md m -> all_modes md (forward_policies est rm seen m).
Proof.
  unfold all_modes, forward_policies; cbn. intros H.
  apply Forall_map. eapply Forall_impl; [exact H|].
  intros mo Hmo role p. cbn. rewrite map_lookup_imap.
  destruct (policies mo !! role) as [p0|] eqn:E; cbn; [|discriminate].
  intros [= <-]. rewrite apply_policy_mode. exact (Hmo role p0 E).
Qed.

(** Resolution of a mode against the per-type table of the source. *)
Lemma resolve_none default mtype role :
  resolve default None mtype role = default.
Proof. reflexivity. Qed.

End Modes.

(** ** The phases: train and validate *)

Section Phases.
Context (W : World).

Lemma train_batch_wp epoch model optimizer losses top1 i b Φ h g :
  all_modes FIX_AUTO model ->
  (forall tr o,
     Forall (train_event W (config model)) tr ->
     match o with
     | inr ((m', _, _, _), g') =>
         g' = g /\ config m' = config model /\ all_modes FIX_AUTO m'
     | inl _ => True
     end ->
     Φ (h ++ tr) o) ->
  wp (train_batch W epoch (model, optimizer, losses, top1) (i, b)) Φ h g.
Proof.
  intros Hm HΦ. unfold train_batch, accuracy, progress.
  wp_walk.
  all: rewrite <- ?app_assoc; apply HΦ; cbn [app];
    [ repeat (constructor; cbn; auto) | try exact I ].
  all: repeat split; apply all_modes_forward; exact Hm.
Qed.

Lemma validate_batch_wp model losses top1 i b Φ h g :
  all_modes FIX_FIXED model ->
  (forall tr o,
     Forall (validate_event (config model)) tr ->
     match o with
     | inr ((m', _, _), g') =>
         g' = g /\ config m' = config model /\ all_modes FIX_FIXED m'
     | inl _ => True
     end ->
     Φ (h ++ tr) o) ->
  wp (validate_batch W (model, losses, top1) (i, b)) Φ h g.
Proof.
  intros Hm HΦ. unfold validate_batch, accuracy, progress.
  wp_walk.
  all: rewrite <- ?app_assoc; apply HΦ; cbn [app];
    [ repeat (constructor; cbn; auto) | try exact I ].
  all: repeat split; apply all_modes_forward; exact Hm.
Qed.

(** One call of [train]: the mode switch to AUTO comes first, every
    batch then runs with every policy in AUTO, the globals are left as
    they were, and the model keeps its configuration. *)
Lemma train_wp loader model optimizer epoch Φ h g :
  (forall tr o,
     train_trace W (config model) tr ->
     match o with
     | inr ((m', _), g') =>
         g' = g /\ config m' = config model /\ all_modes FIX_AUTO m'
     | inl _ => True
     end ->
     Φ (h ++ tr) o) ->
  wp (train W loader model optimizer epoch) Φ h g.
Proof.
  intros HΦ. unfold train, _set_fix_method_train_ori.
  do 4 wp_step. do 2 wp_step.
  apply wp_bind.
  apply (wp_for_each _
    (fun _ st h' g' =>
       g' = g /\ config st.1.1.1 = config model /\
       all_modes FIX_AUTO st.1.1.1 /\
       exists tr, h' = h ++ EvSetFixMethod FIX_AUTO None :: EvModelTrain :: tr /\
                  Forall (train_event W (config model)) tr)).
  - cbn. repeat split; [apply all_modes_set_fix_method|].
    exists []. rewrite <- app_assoc. cbn. split; [reflexivity|constructor].
  - intros [i b] rest [[[m o] l] t] h' g' (-> & Hc & Hm & tr & -> & Htr).
    cbn in Hc, Hm.
    apply train_batch_wp; [exact Hm|].
    intros tr' out Htr' Hout. rewrite Hc in Htr'.
    assert (Hall : train_trace W (config model)
              (EvSetFixMethod FIX_AUTO None :: EvModelTrain :: tr ++ tr')).
    { eexists. split; [reflexivity|]. apply Forall_app. auto. }
    destruct out as [e|[[[[m' o'] l'] t'] g'']].
    + rewrite <- app_assoc. cbn. apply HΦ; [exact Hall | exact I].
    + destruct Hout as (-> & Hc' & Hm'). cbn.
      repeat split; [congruence | exact Hm' |].
      exists (tr ++ tr'). rewrite <- app_assoc. cbn.
      split; [reflexivity|]. apply Forall_app. auto.
  - intros [[[m o] l] t] h' g' (-> & Hc & Hm & tr & -> & Htr).
    cbn in Hc, Hm. wp_step. cbn.
    apply HΦ; [eexists; split; [reflexivity|exact Htr]|].
    auto.
Qed.

(** One call of [validate]: the mode switch to FIXED comes first, every
    batch runs with every policy in FIXED, and the summary line, which
    carries the returned precision and the current best, comes last. *)
Lemma validate_wp loader model Φ h g :
  (forall tr e, validate_trace (config model) tr -> Φ (h ++ tr) (inl e)) ->
  (forall tr avg m',
     validate_trace (config model) tr ->
     config m' = config model -> all_modes FIX_FIXED m' ->
     Φ (h ++ tr ++ [EvPrintPrec avg (best_prec1 g)]) (inr ((avg, m'), g))) ->
  wp (validate W loader model) Φ h g.
Proof.
  intros Herr Hok. unfold validate, _set_fix_method_eval_ori.
  do 4 wp_step. do 2 wp_step.
  apply wp_bind.
  apply (wp_for_each _
    (fun _ st h' g' =>
       g' = g /\ config st.1.1 = config model /\
       all_modes FIX_FIXED st.1.1 /\
       exists tr, h' = h ++ EvSetFixMethod FIX_FIXED None :: EvModelEval :: tr /\
                  Forall (validate_event (config model)) tr)).
  - cbn. repeat split; [apply all_modes_set_fix_method|].
    exists []. rewrite <- app_assoc. cbn. split; [reflexivity|constructor].
  - intros [i b] rest [[m l] t] h' g' (-> & Hc & Hm & tr & -> & Htr).
    cbn in Hc, Hm.
    apply validate_batch_wp; [exact Hm|].
    intros tr' out Htr' Hout. rewrite Hc in Htr'.
    destruct out as [e|[[[m' l'] t'] g'']].
    + rewrite <- app_assoc. cbn. apply Herr.
      eexists. split; [reflexivity|]. apply Forall_app. auto.
    + destruct Hout as (-> & Hc' & Hm'). cbn.
      repeat split; [congruence | exact Hm' |].
      exists (tr ++ tr'). rewrite <- app_assoc. cbn.
      split; [reflexivity|]. apply Forall_app. auto.
  - intros [[m l] t] h' g' (-> & Hc & Hm & tr & -> & Htr).
    cbn in Hc, Hm. wp_walk. cbn.
    rewrite <- app_assoc.
    apply (Hok (EvSetFixMethod FIX_FIXED None :: EvModelEval :: tr));
      [eexists; split; [reflexivity|exact Htr] | exact Hc | exact Hm].
Qed.

End Phases.

(** ** Mode switches of the phases *)

Lemma train_trace_of (W : World) loader model optimizer epoch g :
  train_trace W (config model) (train W loader model optimizer epoch g).1.
Proof.
  apply (train_wp W loader model optimizer epoch
           (fun h' _ => train_trace W (config model) h') [] g).
  intros tr o Htr _. exact Htr.
Qed.

Lemma validate_trace_of (W : World) loader model g :
  exists tr rest,
    (validate W loader model g).1 = tr ++ rest /\
    validate_trace (config model) tr /\
    (rest = [] \/ exists avg, rest = [EvPrintPrec avg (best_prec1 g)]).
Proof.
  apply (validate_wp W loader model
           (fun h' _ => exists tr rest,
                h' = tr ++ rest /\ validate_trace (config model) tr /\
                (rest = [] \/ exists avg, rest = [EvPrintPrec avg (best_prec1 g)]))
           [] g).
  - intros tr e Htr. exists tr, []. rewrite app_nil_r. auto.
  - intros tr avg m' Htr _ _. exists tr, [EvPrintPrec avg (best_prec1 g)].
    split; [reflexivity|]. split; [exact Htr|]. right. eauto.
Qed.

Lemma train_event_within W c e : train_event W c e -> within_training e.
Proof. destruct e; cbn; tauto. Qed.

Lemma validate_event_within c e : validate_event c e -> within_evaluation e.
Proof. destruct e; cbn; tauto. Qed.

(** What both phases do, stated once. *)
Lemma phase_traces (W : World) tloader vloader model optimizer epoch g :
  (exists rest,
     (train W tloader model optimizer epoch g).1 =
       EvSetFixMethod FIX_AUTO None :: EvModelTrain :: rest /\
     Forall within_training rest) /\
  (exists rest,
     (validate W vloader model g).1 =
       EvSetFixMethod FIX_FIXED None :: EvModelEval :: rest /\
     Forall within_evaluation rest).
Proof.
  split.
  - destruct (train_trace_of W tloader model optimizer epoch g)
      as (batches & -> & Hb).
    exists batches. split; [reflexivity|].
    eapply Forall_impl; [exact Hb|]. apply train_event_within.
  - destruct (validate_trace_of W vloader model g)
      as (tr & rest & -> & (batches & -> & Hb) & Hrest).
    exists (batches ++ rest). split; [reflexivity|].
    apply Forall_app. split.
    + eapply Forall_impl; [exact Hb|]. apply validate_event_within.
    + destruct Hrest as [->|[avg ->]]; repeat constructor.
Qed.


(** ** adjust_learning_rate *)

Section LearningRate.

Lemma halves_le_1 (d : Z) : 0 <= d -> ((1 # 2) ^ d <= 1)%Q.
Proof.
  intros Hd.
  assert (E : ((1 # 2) ^ d == / (2 ^ d))%Q) by (apply (Qinv_power 2 d)).
  rewrite E. apply Qle_shift_inv_r.
  - apply Qpower_0_lt. reflexivity.
  - rewrite Qmult_1_l. apply Qpower_1_le; [discriminate | exact Hd].
Qed.

Lemma halves_antitone (k1 k2 : Z) :
  k1 <= k2 -> ((1 # 2) ^ k2 <= (1 # 2) ^ k1)%Q.
Proof.
  intros Hk. replace k2 with (k1 + (k2 - k1)) by ring.
  rewrite Qpower_plus by discriminate.
  rewrite <- (Qmult_1_r ((1 # 2) ^ k1)) at 2.
  apply Qmult_le_compat_nonneg.
  - split; [apply Qpower_0_le; discriminate | apply Qle_refl].
  - split; [apply Qpower_0_le; discriminate | apply halves_le_1; lia].
Qed.

Lemma decay_antitone (lr0 : Q) (e1 e2 : Z) :
  (0 <= lr0)%Q -> e1 <= e2 ->
  (lr0 * (1 # 2) ^ (e2 `div` 10) <= lr0 * (1 # 2) ^ (e1 `div` 10))%Q.
Proof.
  intros Hlr He.
  apply Qmult_le_compat_nonneg.
  - split; [exact Hlr | apply Qle_refl].
  - split; [apply Qpower_0_le; discriminate|].
    apply halves_antitone. apply Z.div_le_mono; lia.
Qed.

Lemma lrs_set_lr lr groups :
  Forall (fun l => l = Some lr) (map (fun group => set_lr lr group !! "lr") groups).
Proof.
  apply Forall_map, Forall_forall. intros group _. cbn.
  unfold set_lr. apply lookup_insert_eq.
Qed.

(** [0.5 ** k] is the exact power inside the range of a float, and
    [OverflowError] outside. *)
Lemma half_power_inr (k : Z) :
  -1024 < k -> k < float_int_limit -> half_power k = inr ((1 # 2) ^ k)%Q.
Proof.
  intros Hlo Hhi. unfold half_power.
  destruct (Z.leb_spec k (-1024)); [lia|].
  destruct (Z.leb_spec float_int_limit k); [lia|]. reflexivity.
Qed.

Lemma half_power_inl (k : Z) :
  k <= -1024 \/ float_int_limit <= k -> half_power k = inl OverflowError.
Proof.
  intros Hk. unfold half_power.
  destruct (Z.leb_spec k (-1024)); [reflexivity|].
  destruct (Z.leb_spec float_int_limit k); [reflexivity | lia].
Qed.

Lemma half_power_cases (k : Z) :
  half_power k = inl OverflowError \/ half_power k = inr ((1 # 2) ^ k)%Q.
Proof.
  unfold half_power.
  destruct ((k <=? -1024) || (float_int_limit <=? k)); auto.
Qed.

(** What [torch.optim.SGD] accepts is not negative. *)
Lemma SGD_inr lr momentum weight_decay optimizer :
  SGD lr momentum weight_decay = inr optimizer ->
  (0 <= lr)%Q /\ (0 <= momentum)%Q /\ (0 <= weight_decay)%Q /\
  optimizer = SGD_groups lr momentum weight_decay.
Proof.
  unfold SGD, Qlt_bool.
  destruct (Qle_bool 0 lr) eqn:E1; cbn [negb]; [|discriminate].
  destruct (Qle_bool 0 momentum) eqn:E2; cbn [negb]; [|discriminate].
  destruct (Qle_bool 0 weight_decay) eqn:E3; cbn [negb]; [|discriminate].
  intros [= <-]. apply Qle_bool_iff in E1, E2, E3. auto.
Qed.

Lemma SGD_inl lr momentum weight_decay e :
  SGD lr momentum weight_decay = inl e -> exists what, e = ValueError what.
Proof.
  unfold SGD.
  repeat match goal with
         | |- context [if ?b then _ else _] => destruct b
         end; intros [= <-]; eauto.
Qed.

Lemma adjust_learning_rate_run optimizer epoch g v lr0 :
  args g !! "lr" = Some v -> num_of v = Some lr0 ->
  -1024 < epoch `div` 10 -> epoch `div` 10 < float_int_limit ->
  adjust_learning_rate optimizer epoch g =
    ([EvPrintLr epoch (lr0 * (1 # 2) ^ (epoch `div` 10))%Q],
     inr ({| param_groups :=
               map (set_lr (lr0 * (1 # 2) ^ (epoch `div` 10))%Q)
                   (param_groups optimizer);
             momentum_buffer := momentum_buffer optimizer |}, g)).
Proof.
  intros Hv Hn Hlo Hhi.
  unfold adjust_learning_rate, mbind, M_bind, attr, as_float.
  rewrite Hv, Hn, (half_power_inr _ Hlo Hhi). reflexivity.
Qed.

Lemma adjust_learning_rate_overflow optimizer epoch g v lr0 :
  args g !! "lr" = Some v -> num_of v = Some lr0 ->
  epoch `div` 10 <= -1024 \/ float_int_limit <= epoch `div` 10 ->
  adjust_learning_rate optimizer epoch g = ([], inl OverflowError).
Proof.
  intros Hv Hn Hk.
  unfold adjust_learning_rate, mbind, M_bind, attr, as_float.
  rewrite Hv, Hn, (half_power_inl _ Hk). reflexivity.
Qed.

End LearningRate.




(** ** The parser *)

Section ArgparseFacts.
Variable fl : string -> option Q.

Lemma find_action_spec p o a :
  find_action p o = Some a -> In a p /\ o ∈ option_strings a.
Proof.
  unfold find_action. intros H. apply find_some in H as [Hin Hb].
  split; [exact Hin|]. apply bool_decide_eq_true in Hb. exact Hb.
Qed.

(** What a successful [consume] does to the parse state. *)
Lemma consume_inr p st o st' :
  consume fl p st o = inr st' ->
  (ns st' = ns st /\ seen st' = seen st) \/
  exists a v,
    In a p /\ opt o ∈ option_strings a /\ stored fl a (arg o) v /\
    ns st' = <[dest a := v]> (ns st) /\ seen st' = dest a :: seen st.
Proof.
  unfold consume.
  destruct (asks_help o); [discriminate|].
  destruct (bool_decide (opt o ∈ help_option_strings)); [discriminate|].
  destruct (find_action p (opt o)) as [a|] eqn:Ea.
  - apply find_action_spec in Ea as [Hin Ho].
    destruct (action a) eqn:Eact, (arg o) as [s|] eqn:Earg; try discriminate.
    + destruct (convert fl (type_ a) s) as [v|] eqn:Ec; [|discriminate].
      destruct (match choices a with Some cs => py_in v cs | None => true end)
        eqn:Ech; [|discriminate].
      intros [= <-]. right. exists a, v. cbn.
      repeat split; try assumption.
      unfold stored. rewrite Eact. exists s. repeat split; [exact Ec|].
      destruct (choices a); [exact Ech | exact I].
    + intros [= <-]. right. exists a, (VBool true). cbn.
      repeat split; try assumption.
      unfold stored. rewrite Eact. auto.
  - intros [= <-]. left. auto.
Qed.

(** A help option that takes no argument ends the parse there. *)
Lemma consume_help p st o :
  asks_help o = true -> consume fl p st o = inl HelpExit.
Proof. intros H. unfold consume. rewrite H. reflexivity. Qed.

(** The parser leaves with the help where an option asks for it;
    every other error of the parser is a usage error. *)
Lemma consume_inl p st o e :
  consume fl p st o = inl e ->
  (e = HelpExit /\ asks_help o = true) \/ exists msg, e = UsageError msg.
Proof.
  unfold consume. destruct (asks_help o); [intros [= <-]; auto|].
  repeat case_match; intros [= <-]; eauto.
Qed.

Lemma consume_all_inl p os : forall st e,
  consume_all fl p st os = inl e -> parser_exit os e.
Proof.
  induction os as [|o os IH]; intros st e; cbn [consume_all];
    [discriminate|].
  destruct (consume fl p st o) as [e'|st'] eqn:E.
  - intros [= <-]. apply consume_inl in E as [[-> Hh]|[msg ->]]; cbn.
    + apply Exists_cons_hd. exact Hh.
    + exact I.
  - intros H. specialize (IH _ _ H).
    destruct e; cbn in *; try exact IH. apply Exists_cons_tl. exact IH.
Qed.

Lemma parse_args_inl p os e :
  parse_args fl p os = inl e -> parser_exit os e.
Proof.
  unfold parse_args.
  destruct (consume_all fl p _ os) as [e'|st] eqn:E.
  - intros [= <-]. eapply consume_all_inl; eauto.
  - repeat case_match; intros [= <-]; exact I.
Qed.

(** Without a help option the parser leaves with a usage error only. *)
Lemma parser_exit_usage os e :
  parser_exit os e -> Forall (fun o => asks_help o = false) os ->
  exists msg, e = UsageError msg.
Proof.
  destruct e; cbn; try contradiction; [eauto|].
  intros Hex Hall. exfalso. apply Exists_exists in Hex as (o & Hin & Ho).
  rewrite Forall_forall in Hall. rewrite (Hall o Hin) in Ho. discriminate.
Qed.

(** An invariant of the namespace kept by every successful [consume] is
    kept by [consume_all]. *)
Lemma consume_all_invariant p (I : ParseState -> Prop) os : forall st st',
  (forall st o st', In o os -> I st -> consume fl p st o = inr st' -> I st') ->
  I st -> consume_all fl p st os = inr st' -> I st'.
Proof.
  induction os as [|o os IH]; intros st st' Hstep HI; cbn.
  - intros [= <-]. exact HI.
  - destruct (consume fl p st o) as [e|st1] eqn:E; [discriminate|].
    apply IH.
    + intros st2 o2 st2' Hin. apply Hstep. right. exact Hin.
    + eapply Hstep; [left; reflexivity | exact HI | exact E].
Qed.

(** What each row of the table can store has the type of its
    attribute. *)
Lemma table_types :
  Forall (fun a => forall arg v, stored fl a arg v ->
            match type_for (dest a) with
            | Some t => has_type t v
            | None => True
            end) parser.
Proof.
  unfold parser. repeat constructor.
  all: intros arg v; unfold stored; cbn.
  all: first [ intros (s & _ & Hc & Hch) | intros (_ & ->) ]; cbn; try exact I.
  all: try (destruct (py_int s); simplify_eq/=; exact I).
  all: try (destruct (fl s); simplify_eq/=; exact I).
  all: try (simplify_eq/=; exact I).
  all: try discriminate.
Qed.

Lemma type_for_schema d t : type_for d = Some t -> In (d, t) schema.
Proof.
  unfold type_for. destruct (List.find _ schema) as [[d' t']|] eqn:E;
    [|discriminate].
  apply find_some in E as [Hin Heq]. cbn in Heq.
  apply String.eqb_eq in Heq as ->. intros [= <-]. exact Hin.
Qed.

Lemma parse_invariant_defaults :
  parse_invariant {| ns := defaults parser; seen := []; extras := false |}.
Proof.
  intros d t Hdt. apply type_for_schema in Hdt. cbn in Hdt.
  repeat (destruct Hdt as [[= <- <-]|Hdt];
          [eexists; split; [vm_compute; reflexivity|];
           first [left; exact I | left; reflexivity
                 | right; split; [reflexivity | apply not_elem_of_nil]]|]).
  destruct Hdt.
Qed.

Lemma parse_invariant_consume st o st' :
  parse_invariant st -> consume fl parser st o = inr st' ->
  parse_invariant st'.
Proof.
  intros Hinv Hc d t Hdt.
  destruct (Hinv d t Hdt) as (v0 & Hv0 & Ht0).
  apply consume_inr in Hc as [[-> ->]|(a & v & Hin & _ & Hst & -> & ->)].
  - eauto.
  - destruct (decide (dest a = d)) as [<-|Hne].
    + exists v. split; [apply lookup_insert_eq|]. left.
      pose proof table_types as Htab. rewrite Forall_forall in Htab.
      apply list_elem_of_In in Hin.
      specialize (Htab a Hin (arg o) v Hst). rewrite Hdt in Htab. exact Htab.
    + exists v0. split; [rewrite lookup_insert_ne by exact Hne; exact Hv0|].
      destruct Ht0 as [Ht0|[-> Hns]]; [left; exact Ht0|].
      right. split; [reflexivity|]. apply not_elem_of_cons. auto.
Qed.

(** After a successful parse every attribute holds a value of its
    type. *)
Lemma parse_args_well_typed os a :
  parse_args fl parser os = inr a -> well_typed a.
Proof.
  unfold parse_args.
  destruct (consume_all fl parser _ os) as [e|st] eqn:E; [discriminate|].
  destruct (forallb _ parser) eqn:Hreq; [|discriminate].
  destruct (extras st); [discriminate|]. intros [= <-].
  assert (Hinv : parse_invariant st).
  { eapply (consume_all_invariant parser parse_invariant os); [| |exact E].
    - intros st1 o st1' _. apply parse_invariant_consume.
    - apply parse_invariant_defaults. }
  assert (Hseen : "save_dir" ∈ seen st).
  { cbn in Hreq. apply andb_prop in Hreq as [Hreq _].
    apply bool_decide_eq_true in Hreq. exact Hreq. }
  intros d t Hdt. destruct (Hinv d t Hdt) as (v & Hv & [Ht|[-> Hns]]).
  - eauto.
  - contradiction.
Qed.

(** The rows that write [fix_grad] are reached by [--fix-grad] only. *)
Lemma table_fix_grad :
  Forall (fun a => dest a = "fix_grad" -> option_strings a = ["--fix-grad"])
         parser.
Proof. unfold parser. repeat constructor; cbn; intros; congruence. Qed.

(** Without [--fix-grad] on the command line, [fix_grad] keeps its
    default, False. *)
Lemma parse_args_fix_grad_default os a :
  parse_args fl parser os = inr a ->
  Forall (fun o => opt o <> "--fix-grad") os ->
  a !! "fix_grad" = Some (VBool false).
Proof.
  unfold parse_args. intros Hp Hos.
  destruct (consume_all fl parser _ os) as [e|st] eqn:E; [discriminate|].
  assert (Hinv : ns st !! "fix_grad" = Some (VBool false)).
  { eapply (consume_all_invariant parser
              (fun st => ns st !! "fix_grad" = Some (VBool false)) os);
      [| |exact E].
    - intros st1 o st1' Hin Hst Hc.
      apply consume_inr in Hc as [[-> _]|(a' & v & Ha & Ho & _ & -> & _)];
        [exact Hst|].
      rewrite lookup_insert_ne; [exact Hst|].
      intros Hd. pose proof table_fix_grad as Htab.
      rewrite Forall_forall in Htab. apply list_elem_of_In in Ha.
      rewrite (Htab a' Ha Hd) in Ho. apply list_elem_of_singleton in Ho.
      rewrite Forall_forall in Hos. apply list_elem_of_In in Hin.
      exact (Hos o Hin Ho).
    - vm_compute. reflexivity. }
  repeat case_match; simplify_eq. exact Hinv.
Qed.

(** The data range method and the gradient range method: the argument
    string is kept as a string ([type=] is absent) and is then looked up
    among the integers 0, 1, 3, where no string is found. *)
Lemma consume_range_method st o :
  selects_range_method o ->
  exists msg, consume fl parser st o = inl (UsageError msg).
Proof.
  intros Hsel.
  assert (Hh : bool_decide (opt o ∈ help_option_strings) = false).
  { destruct Hsel as [->| ->]; vm_compute; reflexivity. }
  destruct Hsel as [Ho|Ho]; unfold consume, asks_help; rewrite Hh;
    cbn [andb]; rewrite Ho.
  - replace (find_action parser "--range-method")
      with (Some (add_argument ["--range-method"] "range_method" Store
                    T_absent (VInt 0) (Some [VInt 0; VInt 1; VInt 3]) false))
      by (vm_compute; reflexivity).
    cbn. destruct (arg o); cbn; eauto.
  - replace (find_action parser "--grad-range-method")
      with (Some (add_argument ["--grad-range-method"] "grad_range_method"
                    Store T_absent (VInt 0) (Some [VInt 0; VInt 1; VInt 3])
                    false))
      by (vm_compute; reflexivity).
    cbn. destruct (arg o); cbn; eauto.
Qed.

Lemma consume_all_range_method os : forall st,
  Exists selects_range_method os ->
  exists e, consume_all fl parser st os = inl e.
Proof.
  induction os as [|o os IH]; intros st Hex; [inversion Hex|].
  cbn [consume_all]. destruct (consume fl parser st o) as [e|st1] eqn:E.
  - eauto.
  - apply Exists_cons in Hex as [Ho|Hos].
    + destruct (consume_range_method st o Ho) as [msg Hmsg]. congruence.
    + apply IH. exact Hos.
Qed.

Lemma parse_args_range_method os :
  Exists selects_range_method os ->
  exists e, parse_args fl parser os = inl e /\ parser_exit os e.
Proof.
  intros Hex.
  destruct (consume_all_range_method os
              {| ns := defaults parser; seen := []; extras := false |} Hex)
    as [e He].
  assert (Hp : parse_args fl parser os = inl e).
  { unfold parse_args. rewrite He. reflexivity. }
  exists e. split; [exact Hp|]. exact (parse_args_inl _ _ _ Hp).
Qed.

End ArgparseFacts.

(** ** The first half of main *)

(** Bring the facts of a load branch into usable form. *)
Ltac load_facts :=
  repeat match goal with
  | H : truthy (VStr _) = _ |- _ =>
      cbn in H;
      first [apply negb_true_iff in H | apply negb_false_iff in H]
  end.

Ltac load_rewrite :=
  repeat match goal with
  | H : args _ !! _ = Some _ |- _ => rewrite H in *; clear H
  | H : String.eqb _ _ = _ |- _ => rewrite H in *
  | H : files _ !! _ = Some _ |- _ => rewrite H in *
  end.

(** No path is given: the attribute is falsy. *)
Ltac none_given :=
  match goal with
  | H : truthy ?v = false |- _ =>
      try (is_var v; destruct v);
      cbn in H |- *; try reflexivity; try discriminate;
      try (apply negb_false_iff in H; rewrite H; reflexivity);
      try (apply negb_false_iff, String.eqb_eq in H; congruence)
  end.

(** A trace assembled from quiet pieces is quiet. *)
Ltac quiet_trace :=
  rewrite <- ?app_assoc; cbn [app];
  repeat first
    [ assumption
    | apply List.Forall_nil
    | apply List.Forall_cons; [first [exact I | cbn; assumption]|]
    | apply Forall_app; split ].

Section Startup.
Context (W : World).

Lemma new_module_policy c t l role p :
  policies (new_module c t l) !! role = Some p ->
  bitwidth p = bitwidth_data c /\ method (range p) = range_method c.
Proof.
  unfold new_module; cbn. intros H.
  apply elem_of_list_to_map_2 in H.
  apply list_elem_of_In, in_map_iff in H as (r & [= _ <-] & _).
  split; reflexivity.
Qed.

(** What a successful construction gives. *)
Lemma FixNet_init_inr t fb fg rm grm bd bg m :
  FixNet_init t fb fg rm grm bd bg = inr m ->
  0 < bd /\ 0 < bg /\
  exists r gr,
    range_method_of_Z rm = Some r /\ range_method_of_Z grm = Some gr /\
    config m = {| fix_bn := fb; fix_grad := fg; range_method := r;
                  grad_range_method := gr; bitwidth_data := bd;
                  bitwidth_grad := bg |} /\
    policies_follow (config m) m /\
    state m = initial_state t.
Proof.
  unfold FixNet_init.
  destruct (Z.leb_spec bd 0); [discriminate|].
  destruct (Z.leb_spec bg 0); [discriminate|].
  destruct (range_method_of_Z rm) as [r|]; [|discriminate].
  destruct (range_method_of_Z grm) as [gr|]; [|discriminate].
  intros [= <-]. split; [lia|]. split; [lia|].
  exists r, gr. cbn. repeat split.
  unfold policies_follow; cbn. apply Forall_map, Forall_forall.
  intros l _ role p Hp. exact (new_module_policy _ _ _ _ _ Hp).
Qed.

(** A rejected construction is a configuration error. *)
Lemma FixNet_init_inl t fb fg rm grm bd bg e :
  FixNet_init t fb fg rm grm bd bg = inl e ->
  exists what, e = ConfigurationError what.
Proof.
  unfold FixNet_init. repeat case_match; intros [= <-]; eauto.
Qed.

Lemma FixNet_init_bad_bitwidth t fb fg rm grm bd bg :
  bd <= 0 \/ bg <= 0 ->
  exists what, FixNet_init t fb fg rm grm bd bg = inl (ConfigurationError what).
Proof.
  intros Hbad. unfold FixNet_init.
  destruct (Z.leb_spec bd 0); [eauto|].
  destruct (Z.leb_spec bg 0); [eauto|]. lia.
Qed.

Lemma build_model_wp Φ h g :
  (forall e, Φ h (inl e)) ->
  (forall m c,
     derived_config (args g) = Some c ->
     0 < bitwidth_data c -> 0 < bitwidth_grad c ->
     config m = c -> policies_follow c m ->
     state m = initial_state (topology W) ->
     Φ h (inr (m, g))) ->
  wp (build_model W) Φ h g.
Proof.
  intros HE HS. unfold build_model. wp_walk; try apply HE.
  match goal with H : FixNet_init _ _ _ _ _ _ _ = inr _ |- _ =>
    apply FixNet_init_inr in H as (Hbd & Hbg & r & gr & Hr & Hgr & Hc & Hp & Hs)
  end.
  eapply HS; [| | |reflexivity| exact Hp | exact Hs];
    [|rewrite Hc; exact Hbd | rewrite Hc; exact Hbg].
  unfold derived_config, int_attr. rewrite Hc. simplify_option_eq.
  reflexivity.
Qed.

Lemma resume_from_wp model Φ h g :
  (forall tr e, Forall (quiet W) tr -> Φ (h ++ tr) (inl e)) ->
  (loaded W (args g) "resume" = None ->
   checkpoint_present W (args g) "resume" ->
   Φ h (inr (model, g))) ->
  (forall tr ck,
     Forall (quiet W) tr ->
     loaded W (args g) "resume" = Some ck ->
     checkpoint_present W (args g) "resume" ->
     Φ (h ++ tr)
       (inr (load_state_dict (ck_state_dict ck) model,
             {| args := <["start_epoch" := VInt (ck_epoch ck)]> (args g);
                best_prec1 := ck_best_prec1 ck |}))) ->
  wp (resume_from W model) Φ h g.
Proof.
  intros HE HN HS. unfold resume_from, torch_load.
  wp_walk; rewrite <- ?app_assoc; cbn [app].
  all: try (rewrite <- (app_nil_r h); apply HE; constructor).
  all: try (apply HE; repeat constructor; done).
  - (* the checkpoint is loaded *)
    cbn [args]. load_facts. apply HS; [repeat constructor; done | |].
    + unfold loaded. load_rewrite. reflexivity.
    + intros path Hpath _. load_rewrite. simplify_eq. eauto.
  - (* no path given *)
    apply HN.
    + unfold loaded. load_rewrite. none_given.
    + intros path Hpath Hne. load_rewrite. simplify_eq. none_given.
Qed.

Lemma pretrained_from_wp model Φ h g :
  (forall tr e, Forall (quiet W) tr -> Φ (h ++ tr) (inl e)) ->
  (loaded W (args g) "pretrained" = None ->
   checkpoint_present W (args g) "pretrained" ->
   Φ h (inr (model, g))) ->
  (forall tr ck,
     Forall (quiet W) tr ->
     loaded W (args g) "pretrained" = Some ck ->
     checkpoint_present W (args g) "pretrained" ->
     Φ (h ++ tr) (inr (load_state_dict (ck_state_dict ck) model, g))) ->
  wp (pretrained_from W model) Φ h g.
Proof.
  intros HE HN HS. unfold pretrained_from, torch_load.
  wp_walk; rewrite <- ?app_assoc; cbn [app].
  all: try (rewrite <- (app_nil_r h); apply HE; constructor).
  all: try (apply HE; repeat constructor; done).
  - cbn [args]. load_facts. apply HS; [repeat constructor; done | |].
    + unfold loaded. load_rewrite. reflexivity.
    + intros path Hpath _. load_rewrite. simplify_eq. eauto.
  - apply HN.
    + unfold loaded. load_rewrite. none_given.
    + intros path Hpath Hne. load_rewrite. simplify_eq. none_given.
Qed.

Lemma loaded_insert_ne a k v name :
  k <> name -> loaded W (<[k := v]> a) name = loaded W a name.
Proof. intros Hne. unfold loaded. rewrite lookup_insert_ne by exact Hne. done. Qed.

Lemma checkpoint_present_insert_ne a k v name :
  k <> name ->
  checkpoint_present W (<[k := v]> a) name -> checkpoint_present W a name.
Proof.
  intros Hne H path Hp. apply H. rewrite lookup_insert_ne by exact Hne. done.
Qed.

(** The first half of [main]: its events are quiet, and when it returns,
    the locals and globals are as [started] says. *)
Lemma startup_wp argv Φ g :
  (forall tr e, Forall (quiet W) tr -> Φ tr (inl e)) ->
  (forall tr a l g',
     Forall (quiet W) tr ->
     parse_args (float_of_string W) parser argv = inr a ->
     started W a g l g' ->
     Φ tr (inr (l, g'))) ->
  wp (startup W argv) Φ [] g.
Proof.
  intros HE HS. unfold startup, select_device.
  wp_walk.
  all: try (apply HE; solve [quiet_trace]).
  all: apply build_model_wp; [intros; apply HE; quiet_trace|].
  all: intros m c Hc Hbd Hbg Hcm Hpf Hst; cbn [args] in Hc.
  all: wp_walk.
  all: apply resume_from_wp;
    [ intros; apply HE; quiet_trace
    | intros Hlr Hpr | intros trr ckr Htrr Hlr Hpr ];
    cbn [args] in Hlr, Hpr.
  all: cbv beta iota; apply wp_bind; apply pretrained_from_wp;
    [ intros; apply HE; quiet_trace
    | intros Hlp Hpp | intros trp ckp Htrp Hlp Hpp ];
    cbn [args] in Hlp, Hpp;
    rewrite ?loaded_insert_ne in Hlp by discriminate;
    try (apply checkpoint_present_insert_ne in Hpp; [|discriminate]).
  all: wp_walk.
  all: try (apply HE; solve [quiet_trace]).
  all: eapply HS; [quiet_trace | reflexivity |].
  all: exists c; cbn; rewrite Hlr, Hlp; cbn.
  all: repeat split; try assumption; try reflexivity.
Qed.

End Startup.

(** ** The second half of main *)

Section Comparisons.

Lemma Qlt_bool_true a b : Qlt_bool a b = true <-> (a < b)%Q.
Proof.
  unfold Qlt_bool. rewrite negb_true_iff. split.
  - intros H. apply Qnot_le_lt. intros Hle.
    apply Qle_bool_iff in Hle. congruence.
  - intros H. destruct (Qle_bool b a) eqn:E; [|reflexivity].
    apply Qle_bool_iff in E. exfalso. exact (Qlt_not_le _ _ H E).
Qed.

Lemma Qlt_bool_false a b : Qlt_bool a b = false <-> (b <= a)%Q.
Proof.
  unfold Qlt_bool. rewrite negb_false_iff. apply Qle_bool_iff.
Qed.

Lemma py_max_ge_l a b : (a <= py_max a b)%Q.
Proof.
  unfold py_max. destruct (Qlt_bool a b) eqn:E.
  - apply Qlt_bool_true in E. apply Qlt_le_weak. exact E.
  - apply Qle_refl.
Qed.

Lemma py_max_ge_r a b : (b <= py_max a b)%Q.
Proof.
  unfold py_max. destruct (Qlt_bool a b) eqn:E.
  - apply Qle_refl.
  - apply Qlt_bool_false in E. exact E.
Qed.

Lemma py_max_new_best a b : (b < a)%Q -> py_max a b = a.
Proof.
  intros H. unfold py_max. destruct (Qlt_bool a b) eqn:E; [|reflexivity].
  apply Qlt_bool_true in E. exfalso.
  exact (Qlt_irrefl _ (Qlt_trans _ _ _ H E)).
Qed.

End Comparisons.

Section TraceFacts.

Lemma justified_app h tr :
  justified h -> Forall (fun e => ~ is_save e) tr -> justified (h ++ tr).
Proof.
  intros Hh Htr. revert h Hh.
  induction Htr as [|e tr He _ IH]; intros h Hh.
  - rewrite app_nil_r. exact Hh.
  - replace (h ++ e :: tr) with ((h ++ [e]) ++ tr)
      by (rewrite <- app_assoc; reflexivity).
    apply IH. apply justified_snoc; assumption.
Qed.

Lemma bounded_app best h tr :
  bounded best h -> Forall (fun e => ~ is_summary e) tr ->
  bounded best (h ++ tr).
Proof.
  intros Hh Htr avg b Hin. apply in_app_or in Hin as [Hin|Hin].
  - exact (Hh avg b Hin).
  - rewrite Forall_forall in Htr. apply list_elem_of_In in Hin.
    exfalso. exact (Htr _ Hin I).
Qed.

Lemma bounded_mono best best' h :
  (best <= best')%Q -> bounded best h -> bounded best' h.
Proof.
  intros Hle Hh avg b Hin. eapply Qle_trans; [exact (Hh avg b Hin)|exact Hle].
Qed.

Lemma bounded_summary best h avg b :
  bounded best h -> (avg <= best)%Q -> bounded best (h ++ [EvPrintPrec avg b]).
Proof.
  intros Hh Hle avg' b' Hin. apply in_app_or in Hin as [Hin|[[= <- <-]|[]]].
  - exact (Hh avg' b' Hin).
  - exact Hle.
Qed.

(** What [justified] means: every save in the trace comes right after a
    summary whose precision exceeds 90, the best before it, and every
    earlier summary. *)
Lemma justified_save_inv tr :
  justified tr ->
  forall pre post file ck,
    tr = pre ++ EvTorchSave file ck :: post ->
    exists pre' avg best,
      pre = pre' ++ [EvPrintPrec avg best] /\
      (90 < avg)%Q /\ (best < avg)%Q /\ ck_best_prec1 ck = avg /\
      forall avg' best', In (EvPrintPrec avg' best') pre' -> (avg' < avg)%Q.
Proof.
  induction 1 as [|h e Hh IH He|h avg best file0 ck0 Hh IH H90 Hb Hprev Hck];
    intros pre post file ck Heq.
  - destruct pre; discriminate.
  - destruct post as [|e' post' _] using rev_ind.
    + apply (app_inj_tail h) in Heq as [_ ->]. exfalso. apply He. exact I.
    + rewrite app_comm_cons, app_assoc in Heq.
      apply app_inj_tail in Heq as [-> _].
      exact (IH pre post' file ck eq_refl).
  - destruct post as [|e' post' _] using rev_ind.
    + change (h ++ [EvPrintPrec avg best; EvTorchSave file0 ck0])
        with (h ++ [EvPrintPrec avg best] ++ [EvTorchSave file0 ck0]) in Heq.
      rewrite app_assoc in Heq.
      apply app_inj_tail in Heq as [<- [= <- <-]].
      exists h, avg, best. auto.
    + change (h ++ [EvPrintPrec avg best; EvTorchSave file0 ck0])
        with (h ++ [EvPrintPrec avg best] ++ [EvTorchSave file0 ck0]) in Heq.
      rewrite app_assoc in Heq.
      rewrite app_comm_cons, (app_assoc pre) in Heq.
      apply app_inj_tail in Heq as [Heq _].
      destruct post' as [|e'' post'' _] using rev_ind.
      * apply app_inj_tail in Heq as [_ [=]].
      * rewrite app_comm_cons, app_assoc in Heq.
        apply app_inj_tail in Heq as [-> _].
        exact (IH pre post'' file ck eq_refl).
Qed.

End TraceFacts.

Section PhasesOfMain.
Context (W : World).

Lemma train_trace_events c tr :
  train_trace W c tr ->
  Forall (phase_event W c) tr /\
  Forall (fun e => ~ is_save e) tr /\
  Forall (fun e => ~ is_summary e) tr.
Proof.
  intros (batches & -> & Hb).
  repeat split; repeat (apply List.Forall_cons; [cbn; tauto|]).
  all: eapply Forall_impl; [exact Hb|]; intros [] H; cbn in *; tauto.
Qed.

Lemma validate_trace_events c tr :
  validate_trace c tr ->
  Forall (phase_event W c) tr /\
  Forall (fun e => ~ is_save e) tr /\
  Forall (fun e => ~ is_summary e) tr.
Proof.
  intros (batches & -> & Hb).
  repeat split; repeat (apply List.Forall_cons; [cbn; tauto|]).
  all: eapply Forall_impl; [exact Hb|]; intros [] H; cbn in *; tauto.
Qed.

Lemma inv_pieces c h g tr :
  phase_inv W c h g ->
  Forall (phase_event W c) tr ->
  Forall (fun e => ~ is_save e) tr ->
  Forall (fun e => ~ is_summary e) tr ->
  phase_inv W c (h ++ tr) g.
Proof.
  intros (He & Hj & Hb) Htr Hs Hp. repeat split.
  - apply Forall_app. auto.
  - apply justified_app; assumption.
  - apply bounded_app; assumption.
Qed.

Lemma inv_train c h g tr :
  phase_inv W c h g -> train_trace W c tr -> phase_inv W c (h ++ tr) g.
Proof.
  intros Hi Htr. apply train_trace_events in Htr as (? & ? & ?).
  apply inv_pieces; assumption.
Qed.

Lemma inv_validate c h g tr :
  phase_inv W c h g -> validate_trace c tr -> phase_inv W c (h ++ tr) g.
Proof.
  intros Hi Htr. apply validate_trace_events in Htr as (? & ? & ?).
  apply inv_pieces; assumption.
Qed.

Lemma inv_event c h g e :
  phase_inv W c h g -> plain e -> phase_inv W c (h ++ [e]) g.
Proof.
  intros Hi He. apply inv_pieces; [exact Hi| | |];
    repeat constructor; destruct e; cbn in *; tauto.
Qed.

(** A validation summary, with the update of [best_prec1]. *)
Lemma inv_summary c h g a avg :
  phase_inv W c h g ->
  phase_inv W c (h ++ [EvPrintPrec avg (best_prec1 g)])
    {| args := a; best_prec1 := py_max avg (best_prec1 g) |}.
Proof.
  intros (He & Hj & Hb). repeat split.
  - apply Forall_app. split; [exact He|repeat constructor].
  - apply justified_snoc; [exact Hj | cbn; tauto].
  - cbn. apply bounded_summary; [|apply py_max_ge_l].
    eapply bounded_mono; [apply py_max_ge_r | exact Hb].
Qed.

(** A validation summary followed by the save of a checkpoint. *)
Lemma inv_save c h g a avg file epoch sd :
  phase_inv W c h g ->
  Qlt_bool 90 (py_max avg (best_prec1 g)) && Qlt_bool (best_prec1 g) avg = true ->
  phase_inv W c
    ((h ++ [EvPrintPrec avg (best_prec1 g)]) ++
     [EvTorchSave file
        {| ck_epoch := epoch; ck_state_dict := sd;
           ck_best_prec1 := py_max avg (best_prec1 g) |}])
    {| args := a; best_prec1 := py_max avg (best_prec1 g) |}.
Proof.
  intros (He & Hj & Hb) Hsave.
  apply andb_prop in Hsave as [H90 Hbest].
  apply Qlt_bool_true in Hbest.
  rewrite (py_max_new_best _ _ Hbest) in *.
  apply Qlt_bool_true in H90.
  rewrite <- app_assoc. cbn [app]. repeat split.
  - apply Forall_app. split; [exact He|repeat constructor].
  - apply justified_save; auto.
    intros avg' best' Hin. eapply Qle_lt_trans; [exact (Hb _ _ Hin)|exact Hbest].
  - cbn. intros avg' b' Hin.
    apply in_app_or in Hin as [Hin|[[= <- <-]|[[=]|[]]]].
    + apply Qlt_le_weak. eapply Qle_lt_trans; [exact (Hb _ _ Hin)|exact Hbest].
    + apply Qle_refl.
Qed.

(** Assemble the invariant for a trace built from such pieces. *)
Ltac inv_trace :=
  rewrite ?app_assoc;
  repeat first
    [ eassumption
    | apply inv_save; [|eassumption]
    | apply inv_summary
    | apply inv_train; [|eassumption]
    | apply inv_validate; [|eassumption]
    | apply inv_event; [|exact I] ].

(** One turn of the epoch loop keeps the invariant and the model's
    configuration. *)
Lemma epoch_body_wp tl vl model optimizer epoch c h g :
  config model = c -> phase_inv W c h g ->
  wp (epoch_body W tl vl (model, optimizer) epoch)
     (fun h' o =>
        match o with
        | inl _ => exists g', phase_inv W c h' g'
        | inr ((m', _), g') => phase_inv W c h' g' /\ config m' = c
        end) h g.
Proof.
  intros Hc Hinv. unfold epoch_body, adjust_learning_rate, save_checkpoint.
  wp_walk.
  all: try (exists g; solve [inv_trace]).
  apply train_wp. intros tr [e|[[m1 o1] g1]] Htr Ho; rewrite Hc in Htr.
  { exists g. inv_trace. }
  destruct Ho as (-> & Hc1 & _). cbv beta iota.
  apply wp_bind. apply validate_wp; rewrite Hc1, Hc.
  { intros trv e Htrv. exists g. inv_trace. }
  intros trv avg m2 Htrv Hc2 _. cbv beta iota.
  wp_walk; cbn [args best_prec1] in *.
  all: try (exists {| args := args g;
                      best_prec1 := py_max avg (best_prec1 g) |};
            solve [inv_trace]).
  all: split; [solve [inv_trace] | congruence].
Qed.

Lemma quiet_plain e : quiet W e -> plain e.
Proof. destruct e; cbn; tauto. Qed.

(** The first half leaves a trace on which the invariant holds. *)
Lemma inv_quiet c tr g : Forall (quiet W) tr -> phase_inv W c tr g.
Proof.
  intros Hq.
  assert (Hnil : phase_inv W c [] g).
  { repeat split; [constructor | constructor | intros ? ? []]. }
  change tr with ([] ++ tr). apply inv_pieces; [exact Hnil| | |].
  all: eapply Forall_impl; [exact Hq|]; intros [] H; cbn in *; tauto.
Qed.

(** The second half of [main] keeps the invariant. *)
Lemma phases_wp l c h g :
  config l.1.1.1 = c -> phase_inv W c h g ->
  wp (phases W l) (fun h' _ => exists g', phase_inv W c h' g') h g.
Proof.
  destruct l as [[[model optimizer] tl] vl]. cbn [fst].
  intros Hc Hinv. unfold phases.
  wp_walk.
  all: try (exists g; solve [inv_trace]).
  - (* evaluate only *)
    apply validate_wp; rewrite Hc.
    + intros trv e Htrv. exists g. inv_trace.
    + intros trv avg m' Htrv _ _. cbv beta iota. wp_walk.
      exists {| args := args g; best_prec1 := py_max avg (best_prec1 g) |}.
      inv_trace.
  - (* the epoch loop *)
    apply (wp_for_each _
      (fun _ st h' g' => phase_inv W c h' g' /\ config st.1 = c)).
    + split; assumption.
    + intros epoch rest [m o] h' g' [Hi Hcm]. cbn [fst] in Hcm.
      eapply wp_mono; [|apply (epoch_body_wp _ _ _ _ _ c); assumption].
      intros h'' [e|[[m' o'] g'']]; cbn; auto.
    + intros [m o] h' g' [Hi Hcm]. cbv beta iota. wp_walk.
      exists g'. inv_trace.
Qed.

(** A run of the program either stops in its first half, on an
    exception and with a quiet trace, or passes it with checkpoints
    present and positive bitwidths and then keeps the invariant of the
    phases. *)
Lemma main_trace argv g :
  (fails (main W argv g).2 /\ Forall (quiet W) (main W argv g).1) \/
  exists a c g',
    parse_args (float_of_string W) parser argv = inr a /\
    derived_config a = Some c /\
    0 < bitwidth_data c /\ 0 < bitwidth_grad c /\
    checkpoint_present W a "resume" /\
    checkpoint_present W a "pretrained" /\
    phase_inv W c (main W argv g).1 g'.
Proof.
  change (wp (main W argv)
            (fun h o =>
               (fails o /\ Forall (quiet W) h) \/
               exists a c g',
                 parse_args (float_of_string W) parser argv = inr a /\
                 derived_config a = Some c /\
                 0 < bitwidth_data c /\ 0 < bitwidth_grad c /\
                 checkpoint_present W a "resume" /\
                 checkpoint_present W a "pretrained" /\
                 phase_inv W c h g') [] g).
  unfold main. apply wp_bind. apply startup_wp.
  - intros tr e Hq. left. split; [exact I | exact Hq].
  - intros tr a l g1 Hq Hp (c & Hd & Hbd & Hbg & Hc & _ & _ & _ & _ & Hpr & Hpp).
    eapply wp_mono; [|apply (phases_wp l c tr g1 Hc); apply inv_quiet; exact Hq].
    intros h' o [g' Hi]. right. exists a, c, g'. auto 10.
Qed.

End PhasesOfMain.
(** C2.  Every call of [train] first issues [set_fix_method(FIX_AUTO)]
    with no override, which puts every policy of the model in AUTO; the
    rest of its trace holds no further mode switch, and every training
    batch in it runs on a model whose policies are all in AUTO.  Every call
    of [validate] first issues [set_fix_method(FIX_FIXED)] with no
    override, which puts every policy in FIXED; no further mode switch
    follows, and every evaluation batch runs with all policies in FIXED. *)
Theorem mode_set_before_each_phase (W : World) tloader vloader model
    optimizer epoch g :
  (exists rest,
     (train W tloader model optimizer epoch g).1 =
       EvSetFixMethod FIX_AUTO None :: EvModelTrain :: rest /\
     Forall within_training rest) /\
  all_modes FIX_AUTO (set_fix_method FIX_AUTO None model) /\
  (exists rest,
     (validate W vloader model g).1 =
       EvSetFixMethod FIX_FIXED None :: EvModelEval :: rest /\
     Forall within_evaluation rest) /\
  all_modes FIX_FIXED (set_fix_method FIX_FIXED None model).
Proof.
  destruct (phase_traces W tloader vloader model optimizer epoch g) as [Ht Hv].
  split; [exact Ht|]. split; [apply all_modes_set_fix_method|].
  split; [exact Hv|]. apply all_modes_set_fix_method.
Qed.

(** ** Running statistics of normalization layers *)

Lemma all_modes_policy md m mo role p :
  all_modes md m -> In mo (modules m) -> policies mo !! role = Some p ->
  mode p = md.
Proof.
  unfold all_modes. intros H Hin Hp.
  rewrite Forall_forall in H. apply list_elem_of_In in Hin.
  exact (H mo Hin role p Hp).
Qed.

(** The per-type table the source defines for small bitwidths would put
    the running statistics in NONE during training and in AUTO during
    evaluation; [train] and [validate] do not use it. *)
Lemma resolve_train_method_by_type :
  resolve FIX_AUTO (Some train_method_by_type) "BatchNorm2d_fix" "running_mean" = FIX_NONE /\
  resolve FIX_AUTO (Some train_method_by_type) "BatchNorm2d_fix" "running_var" = FIX_NONE /\
  resolve FIX_AUTO (Some train_method_by_type) "BatchNorm2d_fix" "weight" = FIX_AUTO /\
  resolve FIX_AUTO (Some train_method_by_type) "Conv2d_fix" "weight" = FIX_AUTO /\
  resolve FIX_FIXED (Some eval_method_by_type) "BatchNorm2d_fix" "running_mean" = FIX_AUTO /\
  resolve FIX_FIXED (Some eval_method_by_type) "BatchNorm2d_fix" "running_var" = FIX_AUTO.
Proof. vm_compute. repeat split. Qed.

(** C1, as the code has it.  [train] switches modes with
    [set_fix_method(FIX_AUTO)] and no per-type override, so in every
    training batch every policy, the running mean and running variance of
    a normalization layer included, is in AUTO: each use recomputes the
    range and quantizes the tensor.  [validate] switches with
    [set_fix_method(FIX_FIXED)] and no override, so in every evaluation
    batch those statistics are quantized with the cached range. *)
Theorem running_statistics_quantized_in_both_phases (W : World) tloader
    vloader model optimizer epoch g md role p :
  policies md !! role = Some p ->
  (forall e i m,
     In (EvTrainBatch e i m) (train W tloader model optimizer epoch g).1 ->
     In md (modules m) ->
     mode p = FIX_AUTO /\
     forall x,
       apply_policy (estimate_range W) (rounding_mode W) p x =
         let r := {| method := method (range p);
                     value := estimate_range W (method (range p)) x |} in
         (quantize (rounding_mode W) (bitwidth p) r x, set_range r p)) /\
  (forall i m,
     In (EvValBatch i m) (validate W vloader model g).1 ->
     In md (modules m) ->
     mode p = FIX_FIXED /\
     forall x,
       apply_policy (estimate_range W) (rounding_mode W) p x =
         (quantize (rounding_mode W) (bitwidth p) (range p) x, p)) /\
  In (EvSetFixMethod FIX_AUTO None) (train W tloader model optimizer epoch g).1 /\
  In (EvSetFixMethod FIX_FIXED None) (validate W vloader model g).1.
Proof.
  intros Hp.
  destruct (phase_traces W tloader vloader model optimizer epoch g)
    as ((trest & Et & Ht) & (vrest & Ev & Hv)).
  rewrite Et, Ev. rewrite Forall_forall in Ht, Hv.
  split; [|split; [|split; left; reflexivity]].
  - intros e i m [H|[H|H]] Hmd; try discriminate.
    apply list_elem_of_In in H.
    assert (Hmode : mode p = FIX_AUTO)
      by exact (all_modes_policy _ _ _ _ _ (Ht _ H) Hmd Hp).
    split; [exact Hmode|]. intros x. unfold apply_policy.
    rewrite Hmode. reflexivity.
  - intros i m [H|[H|H]] Hmd; try discriminate.
    apply list_elem_of_In in H.
    assert (Hmode : mode p = FIX_FIXED)
      by exact (all_modes_policy _ _ _ _ _ (Hv _ H) Hmd Hp).
    split; [exact Hmode|]. intros x. unfold apply_policy.
    rewrite Hmode. reflexivity.
Qed.

(** The trace of [train] on a model with one normalization layer: the
    mode switch carries no override, and the batch runs with the running
    mean in AUTO. *)
Example bn_train_trace_modes :
  omap (fun e => match e with
                 | EvSetFixMethod md ov => Some (md, ov)
                 | _ => None
                 end) bn_train_trace = [(FIX_AUTO, None)] /\
  omap (fun e => match e with
                 | EvTrainBatch _ _ m => Some (mode_of m "bn1" "running_mean")
                 | _ => None
                 end) bn_train_trace = [Some FIX_AUTO].
Proof. vm_compute. split; reflexivity. Qed.

(** C1, counterexample.  On a model with one BatchNorm2d_fix layer, the
    training batch of [train] runs with the running mean in AUTO, not in
    NONE. *)
Lemma running_statistics_not_exempt :
  ~ running_statistics_exempt_in_training.
Proof.
  intros H.
  set (m := set_fix_method FIX_AUTO None bn_model).
  assert (Hin : In (EvTrainBatch 0 0 m) bn_train_trace).
  { vm_compute. right; right; left. reflexivity. }
  destruct (modules m) as [|md mds] eqn:Emd; [discriminate|].
  assert (Hmd : In md (modules m)) by (rewrite Emd; left; reflexivity).
  injection Emd as <- _.
  specialize (H _ _ _ _ _ _ _ _ m _ "running_mean"
                (set_mode FIX_AUTO
                   {| mode := FIX_NONE; bitwidth := 8;
                      range := {| method := RANGE_MAX; value := 1 |} |})
                Hin Hmd eq_refl (or_introl eq_refl)).
  discriminate H. vm_compute. reflexivity.
Qed.

(** An instance: the normalization layer of [bn_model] during the
    training batch of [bn_train_trace]. *)
Lemma running_statistics_quantized_in_both_phases_witness :
  let W := Example.world Example.all_correct in
  let p := {| mode := FIX_AUTO; bitwidth := 8;
              range := {| method := RANGE_MAX; value := 1 |} |} in
  let md := {| module_name := "bn1"; module_type := "BatchNorm2d_fix";
               policies := {[ "running_mean" := p ]} |} in
  policies md !! "running_mean" = Some p /\
  In (EvSetFixMethod FIX_AUTO None)
     (train W (fun _ => [Example.batch 4]) bn_model
        (SGD_groups (5 # 100) (9 # 10) (5 # 10000)) 0 bn_globals).1.
Proof.
  intros W p md.
  assert (Hp : policies md !! "running_mean" = Some p) by (vm_compute; reflexivity).
  split; [exact Hp|].
  exact (proj1 (proj2 (proj2
    (running_statistics_quantized_in_both_phases W
       (fun _ => [Example.batch 4]) [Example.batch 4] bn_model
       (SGD_groups (5 # 100) (9 # 10) (5 # 10000)) 0 bn_globals md
       "running_mean" p Hp)))).
Defined.

(** ** Runs of the program *)

Section RunFacts.
Context (W : World).

Lemma quiet_not_step e : quiet W e -> ~ is_step e.
Proof. destruct e; cbn; tauto. Qed.

Lemma quiet_load tr path :
  Forall (quiet W) tr -> In (EvTorchLoad path) tr -> isfile W path = true.
Proof.
  intros Hq Hin. rewrite Forall_forall in Hq.
  apply list_elem_of_In in Hin. exact (Hq _ Hin).
Qed.

Lemma given_parse argv name v :
  given W argv name = Some v ->
  exists a, parse_args (float_of_string W) parser argv = inr a /\
            a !! name = Some v.
Proof.
  unfold given. destruct (parse_args _ _ _) as [e|a]; [discriminate|]. eauto.
Qed.

Lemma checkpoint_present_isfile a name path :
  checkpoint_present W a name -> a !! name = Some (VStr path) ->
  path <> "" -> isfile W path = true.
Proof.
  intros Hp Ha Hne. destruct (Hp path Ha Hne) as [ck Hck].
  unfold isfile. rewrite Hck. apply bool_decide_eq_true. eauto.
Qed.

Lemma justified_of_inv c h g : phase_inv W c h g -> justified h.
Proof. intros (_ & H & _). exact H. Qed.

Lemma events_of_inv c h g : phase_inv W c h g -> Forall (phase_event W c) h.
Proof. intros (H & _). exact H. Qed.

(** Every save of a run is justified. *)
Lemma main_justified argv g : justified (main W argv g).1.
Proof.
  destruct (main_trace W argv g)
    as [[_ Hq]|(a & c & g' & _ & _ & _ & _ & _ & _ & Hi)].
  - eapply justified_of_inv. apply (inv_quiet W
      {| fix_bn := true; fix_grad := false; range_method := RANGE_MAX;
         grad_range_method := RANGE_MAX; bitwidth_data := 8;
         bitwidth_grad := 16 |} _ g). exact Hq.
  - eapply justified_of_inv. exact Hi.
Qed.

Lemma split_at_save_spec tr pre file ck post :
  split_at_save tr = Some (pre, (file, ck), post) ->
  tr = pre ++ EvTorchSave file ck :: post.
Proof.
  revert pre. induction tr as [|e tr IH]; intros pre; cbn; [discriminate|].
  destruct e;
    try (destruct (split_at_save tr) as [[[pre' s] post']|]; [|discriminate];
         intros [= <- -> ->]; cbn; f_equal; apply IH; reflexivity).
  intros [= <- <- <- <-]. reflexivity.
Qed.

(** The backward hook of a configuration without gradient quantization
    is the identity. *)
Lemma backward_hook_off est rm c (raw : StateDict) :
  fix_grad c = false -> backward_hook est rm c <$> raw = raw.
Proof.
  intros Hc. apply map_eq. intros k. rewrite lookup_fmap.
  destruct (raw !! k) as [t|]; cbn; [|reflexivity].
  unfold backward_hook. rewrite Hc. reflexivity.
Qed.

Lemma derived_config_fix_grad a c v :
  derived_config a = Some c -> a !! "fix_grad" = Some v ->
  fix_grad c = truthy v.
Proof.
  unfold derived_config, int_attr. intros H Hv.
  simplify_option_eq. reflexivity.
Qed.

Lemma ints_inl l e : ints l = inl e -> exists w, e = ValueError w.
Proof.
  induction l as [|d l IH]; cbn; [discriminate|].
  destruct (py_int d); [|intros [= <-]; eauto].
  destruct (ints l); [|discriminate]. intros [= <-]. apply IH. reflexivity.
Qed.

Lemma ints_nil l : ints l = inr [] -> l = [].
Proof.
  destruct l as [|d l]; cbn; [reflexivity|].
  destruct (py_int d); [|discriminate]. destruct (ints l); discriminate.
Qed.

Lemma split_nonempty sep s : split sep s <> [].
Proof.
  destruct s as [|a s]; cbn; [discriminate|].
  destruct (Ascii.eqb a sep); [discriminate|].
  destruct (split sep s); discriminate.
Qed.

(** The typed attributes the first half of [main] reads before it
    builds the model. *)
Lemma well_typed_lookups a :
  well_typed a ->
  exists gpu save_dir float_bn fix_grad bd bg,
    a !! "gpu" = Some (VStr gpu) /\
    a !! "save_dir" = Some (VStr save_dir) /\
    a !! "float_bn" = Some (VBool float_bn) /\
    a !! "fix_grad" = Some (VBool fix_grad) /\
    a !! "range_method" = Some (VInt 0) /\
    a !! "grad_range_method" = Some (VInt 0) /\
    a !! "bitwidth_data" = Some (VInt bd) /\
    a !! "bitwidth_grad" = Some (VInt bg).
Proof.
  intros Hwt.
  destruct (Hwt "gpu" TyStr eq_refl) as ([] & H1 & T1); try contradiction.
  destruct (Hwt "save_dir" TyStr eq_refl) as ([] & H2 & T2); try contradiction.
  destruct (Hwt "float_bn" TyBool eq_refl) as ([] & H3 & T3); try contradiction.
  destruct (Hwt "fix_grad" TyBool eq_refl) as ([] & H4 & T4); try contradiction.
  destruct (Hwt "range_method" TyZero eq_refl) as ([] & H5 & T5);
    try contradiction.
  destruct (Hwt "grad_range_method" TyZero eq_refl) as ([] & H6 & T6);
    try contradiction.
  destruct (Hwt "bitwidth_data" TyInt eq_refl) as ([] & H7 & T7);
    try contradiction.
  destruct (Hwt "bitwidth_grad" TyInt eq_refl) as ([] & H8 & T8);
    try contradiction.
  cbn in T5, T6. subst.
  eauto 20.
Qed.

(** With a bitwidth that is not positive, the first half of [main]
    stops before it has a model: on the configuration error of the
    constructor, or earlier, where the device list, the device
    selection or the creation of the save directory raises. *)
Lemma startup_bad_bitwidth argv a g b :
  parse_args (float_of_string W) parser argv = inr a ->
  b <= 0 ->
  a !! "bitwidth_data" = Some (VInt b) \/ a !! "bitwidth_grad" = Some (VInt b) ->
  wp (startup W argv)
     (fun h o =>
        Forall before_model h /\
        exists e, o = inl e /\
          (configuration_error e \/ stopped_earlier W argv e))
     [] g.
Proof.
  intros Hp Hb Hbad.
  destruct (well_typed_lookups a (parse_args_well_typed _ _ _ Hp))
    as (gpu & save_dir & float_bn & fix_grad & bd & bg &
        Hgpu & Hsd & Hfb & Hfg & Hrm & Hgrm & Hbd & Hbg).
  unfold stopped_earlier, given.
  unfold startup, select_device, build_model. rewrite Hp.
  repeat first
    [ progress (cbn [args int_of];
                rewrite ?Hgpu, ?Hsd, ?Hfb, ?Hfg, ?Hrm, ?Hgrm, ?Hbd, ?Hbg;
                cbv beta iota)
    | wp_step ].
  (* the constructor cannot succeed *)
  all: try (exfalso;
            match goal with
            | H : FixNet_init _ _ _ _ _ _ _ = inr _ |- _ =>
                apply FixNet_init_inr in H as (? & ? & _)
            end;
            destruct Hbad as [Hx|Hx];
            [rewrite Hbd in Hx | rewrite Hbg in Hx];
            injection Hx as ->; lia).
  all: try (exfalso;
            match goal with
            | H : ints _ = inr [] |- _ =>
                apply ints_nil in H; exact (split_nonempty _ _ H)
            end).
  all: split;
    [ rewrite <- ?app_assoc; cbn [app]; repeat constructor
    | eexists; split; [reflexivity|] ].
  all: try (match goal with
            | H : FixNet_init _ _ _ _ _ _ _ = inl _ |- _ =>
                apply FixNet_init_inl in H as [w ->]
            end; left; exact I).
  all: right; right.
  all: try (right; exists save_dir; repeat split; assumption).
  all: left; exists gpu; split; [reflexivity|].
  all: first [ left; assumption | right; eauto ].
Qed.

End RunFacts.

(** C3.  When the parser accepts the command line and the path given
    with [--resume] or with [--pretrained] is not the empty string and
    names no existing file, the run ends with an uncaught exception; its
    trace holds no event of a training or evaluation phase, and no
    [torch.load] of the missing path (or of any other missing file). *)
Theorem missing_checkpoint_is_fatal (W : World) (argv : list Occurrence)
    (path : string) :
  path <> "" ->
  isfile W path = false ->
  given W argv "resume" = Some (VStr path) \/
  given W argv "pretrained" = Some (VStr path) ->
  exists e,
    (run W argv).2 = inl e /\
    Forall (fun ev => ~ is_step ev) (run W argv).1 /\
    ~ In (EvTorchLoad path) (run W argv).1 /\
    forall p, In (EvTorchLoad p) (run W argv).1 -> isfile W p = true.
Proof.
  intros Hne Hmiss Hgiven. unfold run.
  destruct (main_trace W argv initial_globals)
    as [[Hf Hq]|(a & c & g' & Hp & _ & _ & _ & Hr & Hpt & _)].
  - destruct ((main W argv initial_globals).2) as [e|?] eqn:E; [|destruct Hf].
    exists e. split; [reflexivity|]. split; [|split].
    + eapply Forall_impl; [exact Hq|]. apply quiet_not_step.
    + intros Hin. rewrite (quiet_load W _ _ Hq Hin) in Hmiss. discriminate.
    + intros p. apply quiet_load. exact Hq.
  - exfalso.
    destruct Hgiven as [Hg|Hg]; apply given_parse in Hg as (a' & Hp' & Ha);
      rewrite Hp in Hp'; injection Hp' as <-.
    + rewrite (checkpoint_present_isfile W a "resume" path Hr Ha Hne) in Hmiss.
      discriminate.
    + rewrite (checkpoint_present_isfile W a "pretrained" path Hpt Ha Hne) in Hmiss.
      discriminate.
Qed.

Lemma missing_checkpoint_is_fatal_witness :
  let W := Example.world Example.all_correct in
  "missing.tar" <> "" /\
  isfile W "missing.tar" = false /\
  exists e,
    (run W Example.argv_resume_missing).2 = inl e /\
    Forall (fun ev => ~ is_step ev) (run W Example.argv_resume_missing).1 /\
    ~ In (EvTorchLoad "missing.tar") (run W Example.argv_resume_missing).1 /\
    forall p, In (EvTorchLoad p) (run W Example.argv_resume_missing).1 ->
              isfile W p = true.
Proof.
  intros W.
  assert (Hne : "missing.tar" <> "") by discriminate.
  assert (Hmiss : isfile W "missing.tar" = false) by (vm_compute; reflexivity).
  assert (Hg : given W Example.argv_resume_missing "resume"
               = Some (VStr "missing.tar")) by (vm_compute; reflexivity).
  split; [exact Hne|]. split; [exact Hmiss|].
  exact (missing_checkpoint_is_fatal W Example.argv_resume_missing
           "missing.tar" Hne Hmiss (or_introl Hg)).
Defined.

(** The exception of the two example runs is the failed assertion. *)
Example missing_checkpoint_runs :
  (run (Example.world Example.all_correct) Example.argv_resume_missing).2
    = inl AssertionError /\
  (run (Example.world Example.all_correct) Example.argv_pretrained_missing).2
    = inl AssertionError.
Proof. vm_compute. split; reflexivity. Qed.

(** ** Rejected configurations *)

Lemma main_of_startup_failure (W : World) argv g e :
  (startup W argv g).2 = inl e ->
  main W argv g = ((startup W argv g).1, inl e).
Proof.
  unfold main, mbind, M_bind.
  destruct (startup W argv g) as [tr [e'|[l g']]]; cbn [fst snd];
    [|discriminate].
  intros [= <-]. reflexivity.
Qed.

Lemma startup_of_parse_failure (W : World) argv g e :
  parse_args (float_of_string W) parser argv = inl e ->
  startup W argv g = ([], inl e).
Proof.
  intros Hp. unfold startup. apply bind_raise. rewrite Hp. reflexivity.
Qed.

(** C4.  A command line that selects a range method (for data or for
    gradients) outside 0, 1, 3, and a command line the parser accepts with
    a data or gradient bitwidth that is not positive, are both rejected:
    the run ends with an exception before a model exists (its trace holds
    only the argument print, the device selection and the creation of the
    save directory), so no default takes the place of the value.  The
    exception is the usage error of the parser or the configuration error
    of the constructor, unless the run stopped before the value was
    looked at: a help option made the parser print the help and leave,
    or the conversion of the [--gpu] list, [torch.cuda.set_device] or
    [os.makedirs] raised first. *)
Theorem invalid_configuration_is_rejected (W : World)
    (argv : list Occurrence) :
  invalid_configuration W argv ->
  exists e,
    (run W argv).2 = inl e /\
    Forall before_model (run W argv).1 /\
    (configuration_error e \/ stopped_earlier W argv e).
Proof.
  intros [Hsel|(b & Hb & Hgiven)]; unfold run.
  - assert (Hex : Exists selects_range_method argv).
    { eapply Exists_impl; [exact Hsel|]. intros o [Ho _]. exact Ho. }
    destruct (parse_args_range_method (float_of_string W) argv Hex)
      as (e & Hp & Hexit).
    pose proof (startup_of_parse_failure W argv initial_globals _ Hp) as Hs.
    rewrite (main_of_startup_failure W argv initial_globals e)
      by (rewrite Hs; reflexivity).
    rewrite Hs. exists e. cbn [fst snd].
    split; [reflexivity|]. split; [constructor|].
    destruct e; cbn in Hexit; try contradiction.
    + left. exact I.
    + right. left. split; [reflexivity | exact Hexit].
  - assert (Hbad : exists a,
               parse_args (float_of_string W) parser argv = inr a /\
               (a !! "bitwidth_data" = Some (VInt b) \/
                a !! "bitwidth_grad" = Some (VInt b))).
    { destruct Hgiven as [Hg|Hg]; apply given_parse in Hg as (a & Hp & Ha);
        eauto. }
    destruct Hbad as (a & Hp & Hbad).
    pose proof (startup_bad_bitwidth W argv a initial_globals b Hp Hb Hbad)
      as Hwp.
    unfold wp in Hwp. cbn [app] in Hwp.
    destruct Hwp as (Htr & e & He & Hclass).
    rewrite (main_of_startup_failure W argv initial_globals e He).
    exists e. cbn [fst snd]. split; [reflexivity|]. split; [exact Htr|].
    exact Hclass.
Qed.

Lemma invalid_configuration_is_rejected_witness :
  let W := Example.world Example.all_correct in
  invalid_configuration W Example.argv_zero_bitwidth /\
  exists e,
    (run W Example.argv_zero_bitwidth).2 = inl e /\
    Forall before_model (run W Example.argv_zero_bitwidth).1 /\
    (configuration_error e \/ stopped_earlier W Example.argv_zero_bitwidth e).
Proof.
  intros W.
  assert (H : invalid_configuration W Example.argv_zero_bitwidth).
  { right. exists 0. split; [lia|]. left. vm_compute. reflexivity. }
  split; [exact H|].
  exact (invalid_configuration_is_rejected W Example.argv_zero_bitwidth H).
Defined.

(** C4, counterexample.  [main.py --save-dir '' --bitwidth-data 0] has
    a bitwidth that is not positive and does not end with a
    configuration error: [os.makedirs('')] raises [FileNotFoundError]
    before the constructor is called. *)
Lemma zero_bitwidth_without_configuration_error :
  ~ rejected_with_configuration_error.
Proof.
  intros H.
  destruct (H (Example.world Example.all_correct)
              Example.argv_no_dir_zero_bitwidth) as (e & He & Hc).
  - right. exists 0. split; [lia|]. left. vm_compute. reflexivity.
  - assert (E : (run (Example.world Example.all_correct)
                   Example.argv_no_dir_zero_bitwidth).2
                = inl (FileNotFoundError "")) by (vm_compute; reflexivity).
    rewrite E in He. injection He as <-. exact Hc.
Qed.

(** The example command lines.  A zero bitwidth reaches the constructor,
    which rejects it; a range method is rejected by the parser, here even
    the listed value 1, because the parser compares the argument string
    with integers.  With [--save-dir ''] the run stops at [os.makedirs]
    before the constructor sees the zero bitwidth; with [-h] in front the
    parser prints the help and leaves before it looks at the range
    method. *)
Example rejected_runs :
  run (Example.world Example.all_correct) Example.argv_zero_bitwidth
    = ([EvPrint "cmd line arguments"; EvSetDevice 0],
       inl (ConfigurationError "bitwidth_data")) /\
  run (Example.world Example.all_correct) Example.argv_range_method
    = ([], inl (UsageError "invalid choice")) /\
  run (Example.world Example.all_correct) Example.argv_no_dir_zero_bitwidth
    = ([EvPrint "cmd line arguments"; EvSetDevice 0],
       inl (FileNotFoundError "")) /\
  run (Example.world Example.all_correct) Example.argv_help_range_method
    = ([], inl HelpExit).
Proof. vm_compute. repeat split; reflexivity. Qed.

(** ** Checkpoint loads *)

Lemma startup_started (W : World) argv g :
  match (startup W argv g).2 with
  | inl _ => True
  | inr (l, g') =>
      exists a, parse_args (float_of_string W) parser argv = inr a /\
                started W a g l g'
  end.
Proof.
  apply (startup_wp W argv
           (fun _ o => match o with
                       | inl _ => True
                       | inr (l, g') =>
                           exists a,
                             parse_args (float_of_string W) parser argv = inr a /\
                             started W a g l g'
                       end) g).
  - intros tr e _. exact I.
  - intros tr a l g' _ Hp Hs. eauto.
Qed.

(** C5.  When the first half of [main] returns, having loaded the
    checkpoints that [--resume] and [--pretrained] name, the model has the
    configuration derived from the command-line arguments, every policy
    has the bitwidth and range method of that configuration, and the
    tensors are those of the checkpoint loaded last (the initial ones when
    none is loaded).  Besides the tensors a resume restores the epoch
    counter ([args.start_epoch]) and [best_prec1], a pretrained load
    restores nothing else; every other attribute of [args] is as
    parsed. *)
Theorem checkpoint_load_keeps_policy_configuration (W : World)
    (argv : list Occurrence) (g : Globals) (l : locals) (g' : Globals) :
  (startup W argv g).2 = inr (l, g') ->
  exists a c,
    parse_args (float_of_string W) parser argv = inr a /\
    derived_config a = Some c /\
    config l.1.1.1 = c /\
    policies_follow c l.1.1.1 /\
    state l.1.1.1 =
      from_option ck_state_dict
        (from_option ck_state_dict (initial_state (topology W))
           (loaded W a "resume"))
        (loaded W a "pretrained") /\
    args g' = match loaded W a "resume" with
              | Some ck => <["start_epoch" := VInt (ck_epoch ck)]> a
              | None => a
              end /\
    best_prec1 g' = match loaded W a "resume" with
                    | Some ck => ck_best_prec1 ck
                    | None => best_prec1 g
                    end.
Proof.
  intros Hrun. pose proof (startup_started W argv g) as H.
  rewrite Hrun in H.
  destruct H as (a & Hp & c & Hd & _ & _ & Hc & Hpf & Hst & Ha & Hb & _).
  exists a, c. auto 10.
Qed.

Lemma checkpoint_load_keeps_policy_configuration_witness :
  let W := Example.world Example.all_correct in
  exists l g',
    (startup W Example.argv_resume initial_globals).2 = inr (l, g') /\
    exists a c,
      parse_args (float_of_string W) parser Example.argv_resume = inr a /\
      derived_config a = Some c /\
      config l.1.1.1 = c /\
      policies_follow c l.1.1.1 /\
      state l.1.1.1 =
        from_option ck_state_dict
          (from_option ck_state_dict (initial_state (topology W))
             (loaded W a "resume"))
          (loaded W a "pretrained") /\
      args g' = match loaded W a "resume" with
                | Some ck => <["start_epoch" := VInt (ck_epoch ck)]> a
                | None => a
                end /\
      best_prec1 g' = match loaded W a "resume" with
                      | Some ck => ck_best_prec1 ck
                      | None => best_prec1 initial_globals
                      end.
Proof.
  intros W.
  destruct ((startup W Example.argv_resume initial_globals).2)
    as [e|[l g']] eqn:E.
  - exfalso. revert E. vm_compute. discriminate.
  - exists l, g'. split; [reflexivity|].
    exact (checkpoint_load_keeps_policy_configuration W Example.argv_resume
             initial_globals l g' E).
Defined.

(** The example resume: tensors, epoch counter and best precision come
    from the checkpoint; the bitwidths are the parser's defaults. *)
Example resume_run :
  match (startup (Example.world Example.all_correct) Example.argv_resume
           initial_globals).2 with
  | inr (l, g') =>
      state l.1.1.1 = ck_state_dict Example.saved /\
      args g' !! "start_epoch" = Some (VInt 7) /\
      best_prec1 g' = 93%Q /\
      bitwidth_data (config l.1.1.1) = 8 /\
      bitwidth_grad (config l.1.1.1) = 16
  | inl _ => False
  end.
Proof. vm_compute. repeat split. Qed.

(** ** Gradients *)

Lemma phase_event_untouched (W : World) c e :
  fix_grad c = false -> phase_event W c e -> gradients_untouched e.
Proof.
  intros Hc. destruct e; cbn; try tauto.
  intros ->. apply backward_hook_off. exact Hc.
Qed.

Lemma quiet_untouched (W : World) e : quiet W e -> gradients_untouched e.
Proof. destruct e; cbn; tauto. Qed.

(** C6.  When no [--fix-grad] occurs on the command line, the parser
    leaves [fix_grad] at its default, False, and in the run every gradient
    handed to the optimizer is exactly the gradient autograd computed:
    the backward hook of the model is the identity. *)
Theorem gradients_untouched_without_fix_grad (W : World)
    (argv : list Occurrence) :
  Forall (fun o => opt o <> "--fix-grad") argv ->
  (forall a, parse_args (float_of_string W) parser argv = inr a ->
             a !! "fix_grad" = Some (VBool false)) /\
  (forall l g', (startup W argv initial_globals).2 = inr (l, g') ->
     fix_grad (config l.1.1.1) = false /\
     forall t, backward_hook (estimate_range W) (rounding_mode W)
                 (config l.1.1.1) t = t) /\
  Forall gradients_untouched (run W argv).1.
Proof.
  intros Hno.
  assert (Hdef : forall a,
             parse_args (float_of_string W) parser argv = inr a ->
             a !! "fix_grad" = Some (VBool false)).
  { intros a Hp. exact (parse_args_fix_grad_default _ _ _ Hp Hno). }
  split; [exact Hdef|]. split.
  - intros l g' Hrun.
    pose proof (startup_started W argv initial_globals) as H.
    rewrite Hrun in H.
    destruct H as (a & Hp & c & Hd & _ & _ & Hc & _).
    assert (Hfg : fix_grad (config l.1.1.1) = false).
    { rewrite Hc.
      rewrite (derived_config_fix_grad a c (VBool false) Hd (Hdef a Hp)).
      reflexivity. }
    split; [exact Hfg|]. intros t. unfold backward_hook. rewrite Hfg.
    reflexivity.
  - unfold run.
    destruct (main_trace W argv initial_globals)
      as [[_ Hq]|(a & c & g' & Hp & Hd & _ & _ & _ & _ & Hi)].
    + eapply Forall_impl; [exact Hq|]. apply quiet_untouched.
    + eapply Forall_impl; [exact (events_of_inv W c _ g' Hi)|].
      intros e. apply phase_event_untouched.
      rewrite (derived_config_fix_grad a c (VBool false) Hd (Hdef a Hp)).
      reflexivity.
Qed.

Lemma gradients_untouched_without_fix_grad_witness :
  let W := Example.world Example.all_correct in
  Forall (fun o => opt o <> "--fix-grad") Example.argv_one_epoch /\
  Forall gradients_untouched (run W Example.argv_one_epoch).1.
Proof.
  intros W.
  assert (H : Forall (fun o => opt o <> "--fix-grad") Example.argv_one_epoch)
    by (repeat constructor; discriminate).
  split; [exact H|].
  exact (proj2 (proj2
    (gradients_untouched_without_fix_grad W Example.argv_one_epoch H))).
Defined.

(** ** Checkpoints *)

(** C8.  Whenever a run writes a checkpoint, the event just before the
    save is the summary of a validation whose precision exceeds 90 (the
    initial [best_prec1]), exceeds the best precision held before it, and
    exceeds the precision of every validation earlier in the run; the
    checkpoint records that precision.  So a run in which no validation
    exceeds 90 writes no checkpoint. *)
Theorem checkpoint_only_on_new_best (W : World) (argv : list Occurrence)
    (pre post : list event) (file : string) (ck : Checkpoint) :
  (run W argv).1 = pre ++ EvTorchSave file ck :: post ->
  best_prec1 initial_globals = 90%Q /\
  exists pre' avg best,
    pre = pre' ++ [EvPrintPrec avg best] /\
    (90 < avg)%Q /\ (best < avg)%Q /\
    ck_best_prec1 ck = avg /\
    (forall avg' best', In (EvPrintPrec avg' best') pre' -> (avg' < avg)%Q) /\
    ~ (forall avg' best', In (EvPrintPrec avg' best') (run W argv).1 ->
                          (avg' <= 90)%Q).
Proof.
  intros Hsplit. split; [reflexivity|].
  pose proof (main_justified W argv initial_globals) as Hj.
  destruct (justified_save_inv _ Hj pre post file ck Hsplit)
    as (pre' & avg & best & -> & H90 & Hb & Hck & Hprev).
  exists pre', avg, best. repeat split; try assumption.
  intros Hall. apply (Qlt_not_le _ _ H90). apply (Hall avg best).
  rewrite Hsplit. apply in_or_app. left. apply in_or_app. right.
  left. reflexivity.
Qed.

Lemma checkpoint_only_on_new_best_witness :
  let W := Example.world Example.all_correct in
  exists pre post file ck,
    (run W Example.argv_one_epoch).1 = pre ++ EvTorchSave file ck :: post /\
    exists pre' avg best,
      pre = pre' ++ [EvPrintPrec avg best] /\
      (90 < avg)%Q /\ (best < avg)%Q /\
      ck_best_prec1 ck = avg /\
      (forall avg' best', In (EvPrintPrec avg' best') pre' -> (avg' < avg)%Q) /\
      ~ (forall avg' best',
           In (EvPrintPrec avg' best') (run W Example.argv_one_epoch).1 ->
           (avg' <= 90)%Q).
Proof.
  intros W.
  destruct (split_at_save (run W Example.argv_one_epoch).1)
    as [[[pre [file ck]] post]|] eqn:E.
  - apply split_at_save_spec in E.
    exists pre, post, file, ck. split; [exact E|].
    exact (proj2 (checkpoint_only_on_new_best W Example.argv_one_epoch
                    pre post file ck E)).
  - exfalso. revert E. vm_compute. discriminate.
Defined.

(** A run whose validations never exceed 90 writes no checkpoint. *)
Corollary no_checkpoint_below_90 (W : World) (argv : list Occurrence) :
  (forall avg best, In (EvPrintPrec avg best) (run W argv).1 -> (avg <= 90)%Q) ->
  forall file ck, ~ In (EvTorchSave file ck) (run W argv).1.
Proof.
  intros Hall file ck Hin.
  apply in_split in Hin as (pre & post & Hsplit).
  pose proof (main_justified W argv initial_globals) as Hj.
  destruct (justified_save_inv _ Hj pre post file ck Hsplit)
    as (pre' & avg & best & -> & H90 & _).
  apply (Qlt_not_le _ _ H90). apply (Hall avg best).
  rewrite Hsplit. apply in_or_app. left. apply in_or_app. right.
  left. reflexivity.
Qed.

(** The two example runs of one epoch: with every sample classified
    correctly the precision is 100 and a checkpoint is written; with half
    of them it is 50 and none is. *)
Example one_epoch_saves :
  omap (fun e => match e with
                 | EvTorchSave _ ck => Some (ck_epoch ck, Qred (ck_best_prec1 ck))
                 | _ => None
                 end)
       (run (Example.world Example.all_correct) Example.argv_one_epoch).1
    = [(1, 100%Q)] /\
  omap (fun e => match e with
                 | EvTorchSave _ ck => Some (ck_epoch ck, ck_best_prec1 ck)
                 | _ => None
                 end)
       (run (Example.world Example.half_correct) Example.argv_one_epoch).1
    = [].
Proof. vm_compute. split; reflexivity. Qed.

(** ** Runs that a library refuses *)

(** [--lr -1] is refused by [torch.optim.SGD] and [-b 0] by the
    [DataLoader], both before any phase; an epoch of 10^400 passes both
    and is refused by [0.5 ** (epoch // 10)] in the first call of
    [adjust_learning_rate], before a learning rate is set. *)
Example refused_runs :
  let W := Example.world Example.all_correct in
  (run W Example.argv_negative_lr).2
    = inl (ValueError "Invalid learning rate") /\
  Forall (quiet W) (run W Example.argv_negative_lr).1 /\
  (run W Example.argv_zero_batch).2
    = inl (ValueError "batch_size should be a positive integer value") /\
  Forall (quiet W) (run W Example.argv_zero_batch).1 /\
  (run W Example.argv_far_epoch).2 = inl OverflowError /\
  Forall (quiet W) (run W Example.argv_far_epoch).1.
Proof.
  vm_compute. repeat split; try reflexivity; repeat constructor.
Qed.

(** * Further properties of the driver *)

Lemma succeeds_inr {E A} (r : E + A) : succeeds r = true -> exists a, r = inr a.
Proof. destruct r as [e|a]; [discriminate | eauto]. Qed.

(** ** AverageMeter: the zero weight *)

Section AverageMeterBounds.
Import AverageMeter.

Lemma last_default {A} (x : A) l d d' :
  List.last (x :: l) d = List.last (x :: l) d'.
Proof.
  revert x. induction l as [|y l IH]; intros x; [reflexivity|].
  change (List.last (y :: l) d = List.last (y :: l) d'). apply IH.
Qed.

(** A meter that has counted something keeps counting: with weights
    that are not negative no later update divides by zero, and [val]
    holds the value of the last update. *)
Lemma updates_nonneg us : forall m,
  0 < count m ->
  Forall (fun u : Q * Z => 0 <= u.2) us ->
  exists m',
    updates us m = inr m' /\ 0 < count m' /\
    val m' = List.last (map fst us) (val m).
Proof.
  induction us as [|[v n] us IH]; intros m Hc Hpos.
  - exists m. cbn. auto.
  - apply Forall_cons in Hpos as [Hn Hpos]. cbn in Hn.
    cbn [updates]. unfold update.
    destruct (Z.eqb_spec (count m + n) 0) as [E|E]; [lia|].
    set (m1 := {| val := v |}).
    destruct (IH m1) as (m' & Hrun & Hc' & Hval); [cbn; lia | assumption |].
    exists m'. split; [exact Hrun|]. split; [exact Hc'|].
    rewrite Hval. cbn [map fst val m1].
    destruct us as [|u us']; [reflexivity|]. cbn [map].
    change (List.last (v :: u.1 :: map fst us') (val m))
      with (List.last (u.1 :: map fst us') (val m)).
    apply last_default.
Qed.

End AverageMeterBounds.



(** ** The batches of train and validate *)

Section Batches.
Context (W : World).

Lemma update_inl v n m e :
  AverageMeter.update v n m = inl e -> e = ZeroDivisionError.
Proof.
  unfold AverageMeter.update. case_match; [|discriminate].
  intros [= <-]. reflexivity.
Qed.

(** One batch of [validate], in full. *)
Lemma validate_batch_spec model losses top1 i b h g :
  wp (validate_batch W (model, losses, top1) (i, b))
     (fun h' o =>
        match o with
        | inl e => h' = h ++ [EvValBatch i model] /\ batch_error g e
        | inr ((m', l', t'), g') =>
            g' = g /\ m' = forward W model b /\ target b <> [] /\
            AverageMeter.update (loss_of W model b)
              (Z.of_nat (length (input b))) losses = inr l' /\
            AverageMeter.update (prec_of W model b)
              (Z.of_nat (length (input b))) top1 = inr t' /\
            exists tr, h' = h ++ EvValBatch i model :: tr /\
                       progress_line g i (EvPrintTest i) tr
        end) h g.
Proof.
  unfold validate_batch, accuracy, progress.
  wp_walk.
  all: rewrite <- ?app_assoc; cbn [app].
  all: try (split; [reflexivity|]; unfold batch_error;
            first [ left; reflexivity
                  | left; eapply update_inl; eassumption
                  | right; left; split; [reflexivity|]; eauto
                  | right; right; split; [reflexivity|]; assumption ]).
  all: repeat match goal with
         | H : (_ =? _) = false |- _ => apply Z.eqb_neq in H
         | H : (_ =? _) = true |- _ => apply Z.eqb_eq in H
         end.
  all: repeat split; try assumption.
  all: try match goal with
         | H : Z.of_nat (length (target _)) <> 0 |- target _ <> [] =>
             let Ht := fresh in
             intros Ht; apply H; rewrite Ht; reflexivity
         end.
  all: eexists; (split; [reflexivity|]);
    unfold progress_line; do 2 eexists;
    (split; [eassumption|]); (split; [eassumption|]);
    (split; [assumption|]).
  all: match goal with
       | H : _ `mod` _ = 0 |- _ =>
           apply Z.eqb_eq in H; rewrite H; reflexivity
       | H : _ `mod` _ <> 0 |- _ =>
           apply Z.eqb_neq in H; rewrite H; reflexivity
       end.
Qed.

(** One batch of [train], in full. *)
Lemma train_batch_spec epoch model optimizer losses top1 i b h g :
  wp (train_batch W epoch (model, optimizer, losses, top1) (i, b))
     (fun h' o =>
        let raw := autograd W model b in
        let handed :=
          backward_hook (estimate_range W) (rounding_mode W) (config model)
            <$> raw in
        let steps := [EvTrainBatch epoch i model; EvBackward raw handed;
                      EvOptimizerStep] in
        let r := sgd_step W optimizer (state (forward W model b)) handed in
        match o with
        | inl e => h' = h ++ steps /\ batch_error g e
        | inr ((m', o', l', t'), g') =>
            g' = g /\
            m' = load_state_dict r.1 (forward W model b) /\
            param_groups o' = param_groups optimizer /\
            momentum_buffer o' = r.2 /\
            target b <> [] /\
            AverageMeter.update (loss_of W model b)
              (Z.of_nat (length (input b))) losses = inr l' /\
            AverageMeter.update (prec_of W model b)
              (Z.of_nat (length (input b))) top1 = inr t' /\
            exists tr, h' = h ++ steps ++ tr /\
                       progress_line g i (EvPrintEpoch epoch i) tr
        end) h g.
Proof.
  unfold train_batch, accuracy, progress.
  wp_walk.
  all: rewrite <- ?app_assoc; cbn [app].
  all: try (split; [reflexivity|]; unfold batch_error;
            first [ left; reflexivity
                  | left; eapply update_inl; eassumption
                  | right; left; split; [reflexivity|]; eauto
                  | right; right; split; [reflexivity|]; assumption ]).
  all: repeat match goal with
         | H : (_ =? _) = false |- _ => apply Z.eqb_neq in H
         | H : (_ =? _) = true |- _ => apply Z.eqb_eq in H
         | H : sgd_step _ _ _ _ = _ |- _ => rewrite H; clear H
         end.
  all: repeat split; try assumption.
  all: try match goal with
         | H : Z.of_nat (length (target _)) <> 0 |- target _ <> [] =>
             let Ht := fresh in
             intros Ht; apply H; rewrite Ht; reflexivity
         end.
  all: eexists; (split; [reflexivity|]);
    unfold progress_line; do 2 eexists;
    (split; [eassumption|]); (split; [eassumption|]);
    (split; [assumption|]).
  all: match goal with
       | H : _ `mod` _ = 0 |- _ =>
           apply Z.eqb_eq in H; rewrite H; reflexivity
       | H : _ `mod` _ <> 0 |- _ =>
           apply Z.eqb_neq in H; rewrite H; reflexivity
       end.
Qed.

End Batches.

(** ** print_freq 0 *)

Lemma zero_print_freq_batch_error g e :
  args g !! "print_freq" = Some (VInt 0) -> batch_error g e ->
  e = ZeroDivisionError.
Proof.
  intros Hpf [->|[[_ (v & Hv & Hi)]|[_ Hn]]]; [reflexivity| |congruence].
  rewrite Hpf in Hv. injection Hv as <-. discriminate.
Qed.

Lemma zero_print_freq_no_line g i line tr :
  args g !! "print_freq" = Some (VInt 0) -> ~ progress_line g i line tr.
Proof.
  intros Hpf (v & pf & Hv & Hi & Hne & _).
  rewrite Hpf in Hv. injection Hv as <-. cbn in Hi. congruence.
Qed.

(** X5.  The parser accepts [--print-freq 0], and then the first batch of
    a phase ends the run: [train] raises [ZeroDivisionError]
    ([i % args.print_freq]) after the forward pass, the backward pass and
    the optimizer step of its first batch, and [validate] raises it after
    the forward pass of its first batch. *)
Theorem zero_print_freq_stops_at_first_batch (W : World) (g : Globals)
    (model : FixNet) (optimizer : Optimizer) (epoch : Z)
    (loader : Z -> list Batch) (b : Batch) (bs : list Batch) :
  args g !! "print_freq" = Some (VInt 0) ->
  loader epoch = b :: bs ->
  let m1 := set_fix_method FIX_AUTO None model in
  let m2 := set_fix_method FIX_FIXED None model in
  let raw := autograd W m1 b in
  let handed :=
    backward_hook (estimate_range W) (rounding_mode W) (config m1) <$> raw in
  train W loader model optimizer epoch g =
    ([EvSetFixMethod FIX_AUTO None; EvModelTrain; EvTrainBatch epoch 0 m1;
      EvBackward raw handed; EvOptimizerStep],
     inl ZeroDivisionError) /\
  validate W (b :: bs) model g =
    ([EvSetFixMethod FIX_FIXED None; EvModelEval; EvValBatch 0 m2],
     inl ZeroDivisionError).
Proof.
  intros Hpf Hl m1 m2 raw handed. split.
  - assert (H : wp (train W loader model optimizer epoch)
                  (fun h o =>
                     h = [EvSetFixMethod FIX_AUTO None; EvModelTrain;
                          EvTrainBatch epoch 0 m1; EvBackward raw handed;
                          EvOptimizerStep] /\
                     o = inl ZeroDivisionError) [] g).
    { unfold train, _set_fix_method_train_ori.
      do 4 wp_step. do 2 wp_step. apply wp_bind.
      rewrite Hl. cbn [enumerate imap for_each Z.of_nat]. apply wp_bind.
      eapply wp_mono; [|apply train_batch_spec].
      intros h' [e|[[[[m' o'] l'] t'] g']]; cbv beta iota zeta.
      - intros [-> He].
        rewrite (zero_print_freq_batch_error g e Hpf He). split; reflexivity.
      - intros (-> & _ & _ & _ & _ & _ & _ & tr & _ & Hline).
        destruct (zero_print_freq_no_line g _ _ _ Hpf Hline). }
    unfold wp in H. cbn [app] in H. destruct H as [H1 H2].
    destruct (train W loader model optimizer epoch g) as [tr o].
    cbn [fst snd] in H1, H2. subst. reflexivity.
  - assert (H : wp (validate W (b :: bs) model)
                  (fun h o =>
                     h = [EvSetFixMethod FIX_FIXED None; EvModelEval;
                          EvValBatch 0 m2] /\
                     o = inl ZeroDivisionError) [] g).
    { unfold validate, _set_fix_method_eval_ori.
      do 4 wp_step. do 2 wp_step. apply wp_bind.
      cbn [enumerate imap for_each Z.of_nat]. apply wp_bind.
      eapply wp_mono; [|apply validate_batch_spec].
      intros h' [e|[[[m' l'] t'] g']]; cbv beta iota zeta.
      - intros [-> He].
        rewrite (zero_print_freq_batch_error g e Hpf He). split; reflexivity.
      - intros (-> & _ & _ & _ & _ & tr & _ & Hline).
        destruct (zero_print_freq_no_line g _ _ _ Hpf Hline). }
    unfold wp in H. cbn [app] in H. destruct H as [H1 H2].
    destruct (validate W (b :: bs) model g) as [tr o].
    cbn [fst snd] in H1, H2. subst. reflexivity.
Qed.

Lemma zero_print_freq_stops_at_first_batch_witness :
  let W := Example.world Example.all_correct in
  let g := {| args := {[ "print_freq" := VInt 0 ]}; best_prec1 := 90 |} in
  let loader := fun _ : Z => [Example.batch 4] in
  args g !! "print_freq" = Some (VInt 0) /\
  loader 0 = [Example.batch 4] /\
  (train W loader bn_model (SGD_groups (5 # 100) (9 # 10) (5 # 10000)) 0 g).2
    = inl ZeroDivisionError /\
  (validate W [Example.batch 4] bn_model g).2 = inl ZeroDivisionError.
Proof.
  intros W g loader.
  assert (Hpf : args g !! "print_freq" = Some (VInt 0))
    by (vm_compute; reflexivity).
  assert (Hl : loader 0 = [Example.batch 4]) by reflexivity.
  split; [exact Hpf|]. split; [exact Hl|].
  destruct (zero_print_freq_stops_at_first_batch W g bn_model
              (SGD_groups (5 # 100) (9 # 10) (5 # 10000)) 0 loader
              (Example.batch 4) [] Hpf Hl) as [Ht Hv].
  split; [rewrite Ht | rewrite Hv]; reflexivity.
Defined.

(** ** adjust_learning_rate and the optimizer *)


(** ** The parser: required, absent, repeated and unknown options *)

Section ParserFacts.
Variable fl : string -> option Q.

Lemma NoDup_map_inj {A B} (f : A -> B) (l : list A) x y :
  List.NoDup (map f l) -> In x l -> In y l -> f x = f y -> x = y.
Proof.
  induction l as [|z l IH]; cbn; [tauto|].
  intros Hnd. apply List.NoDup_cons_iff in Hnd as [Hz Hnd].
  intros [->|Hx] [->|Hy] E; try reflexivity.
  - exfalso. apply Hz. rewrite E. apply in_map. exact Hy.
  - exfalso. apply Hz. rewrite <- E. apply in_map. exact Hx.
  - apply IH; assumption.
Qed.

(** No two rows of the table write the same attribute. *)
Lemma parser_dests : List.NoDup (map dest parser).
Proof.
  unfold parser. cbn [map dest].
  repeat (apply List.NoDup_cons;
          [cbn; intros H;
           repeat (destruct H as [H|H]; [discriminate H|]); exact H|]).
  apply List.NoDup_nil.
Qed.

Lemma parser_defaults :
  Forall (fun a => defaults parser !! dest a = Some (default a)) parser.
Proof. unfold parser. repeat constructor. Qed.

(** An occurrence of another option leaves an attribute as it is. *)
Lemma consume_keeps a st o st' :
  In a parser -> opt o ∉ option_strings a ->
  consume fl parser st o = inr st' ->
  ns st' !! dest a = ns st !! dest a /\
  (dest a ∈ seen st' -> dest a ∈ seen st).
Proof.
  intros Ha Ho Hc.
  apply consume_inr in Hc as [[-> ->]|(a' & v & Ha' & Ho' & _ & -> & ->)];
    [auto|].
  assert (Hne : dest a' <> dest a).
  { intros E. apply (NoDup_map_inj dest parser a' a parser_dests Ha' Ha) in E.
    subst a'. contradiction. }
  split; [apply lookup_insert_ne; exact Hne|].
  intros Hin. apply elem_of_cons in Hin as [E|Hin]; [congruence | exact Hin].
Qed.

Lemma consume_all_keeps a os : forall st st',
  In a parser ->
  Forall (fun o => opt o ∉ option_strings a) os ->
  consume_all fl parser st os = inr st' ->
  ns st' !! dest a = ns st !! dest a /\
  (dest a ∈ seen st' -> dest a ∈ seen st).
Proof.
  induction os as [|o os IH]; intros st st' Ha Hos; cbn.
  - intros [= <-]. auto.
  - apply Forall_cons in Hos as [Ho Hos].
    destruct (consume fl parser st o) as [e|st1] eqn:E; [discriminate|].
    intros Hrest.
    destruct (consume_keeps a st o st1 Ha Ho E) as [H1 H2].
    destruct (IH st1 st' Ha Hos Hrest) as [H3 H4].
    split; [congruence | auto].
Qed.

Lemma consume_all_app os1 os2 : forall st st',
  consume_all fl parser st (os1 ++ os2) = inr st' ->
  exists st1, consume_all fl parser st os1 = inr st1 /\
              consume_all fl parser st1 os2 = inr st'.
Proof.
  induction os1 as [|o os1 IH]; intros st st'; cbn.
  - eauto.
  - destruct (consume fl parser st o) as [e|st1]; [discriminate|]. apply IH.
Qed.

(** What the occurrence of an option stores. *)
Lemma consume_stores a st o st' :
  find_action parser (opt o) = Some a ->
  consume fl parser st o = inr st' ->
  exists v, ns st' !! dest a = Some v /\ stored fl a (arg o) v.
Proof.
  unfold consume, stored.
  destruct (asks_help o); [discriminate|].
  destruct (bool_decide (opt o ∈ help_option_strings)); [discriminate|].
  intros ->.
  destruct (action a), (arg o) as [s|]; try discriminate.
  - destruct (convert fl (type_ a) s) as [v|] eqn:Ec; [|discriminate].
    destruct (match choices a with Some cs => py_in v cs | None => true end)
      eqn:Ech; [|discriminate].
    intros [= <-]. exists v. cbn. split; [apply lookup_insert_eq|].
    exists s. repeat split; [exact Ec|].
    destruct (choices a); [exact Ech | exact I].
  - intros [= <-]. exists (VBool true). cbn.
    split; [apply lookup_insert_eq | auto].
Qed.

(** An occurrence that matches no row is remembered to the end. *)
Lemma consume_all_extras os : forall st st',
  consume_all fl parser st os = inr st' ->
  extras st = true \/
  Exists unknown_option os ->
  extras st' = true.
Proof.
  induction os as [|o os IH]; intros st st'; cbn.
  - intros [= <-] [H|H]; [exact H | inversion H].
  - destruct (consume fl parser st o) as [e|st1] eqn:E; [discriminate|].
    intros Hrest Hex. apply (IH st1 st' Hrest).
    unfold consume in E.
    destruct (asks_help o); [discriminate|].
    destruct (bool_decide (opt o ∈ help_option_strings)); [discriminate|].
    destruct (find_action parser (opt o)) as [a|] eqn:Ef.
    + destruct Hex as [Hx|Hex].
      * left. revert E. repeat case_match; intros [= <-]; try discriminate;
          exact Hx.
      * apply Exists_cons in Hex as [Ho|Hos]; [|right; exact Hos].
        destruct Ho as [_ Ho]. congruence.
    + injection E as <-. left. reflexivity.
Qed.

(** The attributes of the namespace are the attributes of the table. *)
Lemma defaults_keys (p : list Action) k : forall ns0 : Namespace,
  is_Some (foldl (fun ns a => <[dest a := default a]> ns) ns0 p !! k) ->
  is_Some (ns0 !! k) \/ In k (map dest p).
Proof.
  induction p as [|a p IH]; intros ns0; cbn; [auto|].
  intros H. apply IH in H as [H|H]; [|auto].
  destruct (decide (dest a = k)) as [E|E]; [auto|].
  rewrite lookup_insert_ne in H by exact E. auto.
Qed.

End ParserFacts.

(** X7.  [--save-dir] is required: no command line without it is
    accepted, whatever else it holds.  The parser leaves with a usage
    error (exit status 2), or, when an occurrence of [-h] or [--help]
    comes before any error, with the help (exit status 0). *)
Theorem save_dir_is_required (fl : string -> option Q)
    (argv : list Occurrence) :
  Forall (fun o => opt o <> "--save-dir") argv ->
  exists e, parse_args fl parser argv = inl e /\ parser_exit argv e.
Proof.
  intros Hno.
  assert (H : exists e, parse_args fl parser argv = inl e).
  { unfold parse_args.
    destruct (consume_all fl parser _ argv) as [e|st] eqn:E; [eauto|].
    pose (a := add_argument ["--save-dir"] "save_dir" Store T_str VNone None true).
    destruct (consume_all_keeps fl a argv
                {| ns := defaults parser; seen := []; extras := false |} st)
      as [_ Hseen]; [left; reflexivity | | exact E |].
    { eapply Forall_impl; [exact Hno|]. intros o Ho Hin.
      apply list_elem_of_singleton in Hin. contradiction. }
    assert (Hns : "save_dir" ∉ seen st).
    { intros Hin. apply Hseen in Hin. cbn in Hin. inversion Hin. }
    unfold parser. cbn [forallb required dest negb orb].
    rewrite (bool_decide_eq_false_2 _ Hns). cbn [andb]. eauto. }
  destruct H as [e He]. exists e. split; [exact He|].
  exact (parse_args_inl fl parser argv e He).
Qed.

Lemma save_dir_is_required_witness :
  Forall (fun o => opt o <> "--save-dir") [Example.cmd "--epoch" (Some "1")] /\
  exists e,
    parse_args Example.parse_float parser [Example.cmd "--epoch" (Some "1")]
      = inl e /\
    parser_exit [Example.cmd "--epoch" (Some "1")] e.
Proof.
  assert (H : Forall (fun o => opt o <> "--save-dir")
                [Example.cmd "--epoch" (Some "1")])
    by (repeat constructor; discriminate).
  split; [exact H|].
  exact (save_dir_is_required Example.parse_float _ H).
Defined.

(** The two ways out: without [--save-dir] the parser reports the
    missing argument; with [-h] in front it prints the help and leaves
    with status 0, and after an error [-h] is not reached. *)
Example parser_exits :
  parse_args Example.parse_float parser [Example.cmd "--epoch" (Some "1")]
    = inl (UsageError "the following arguments are required") /\
  parse_args Example.parse_float parser
    [Example.cmd "-h" None; Example.cmd "--epoch" (Some "x")]
    = inl HelpExit /\
  parse_args Example.parse_float parser
    [Example.cmd "--epoch" (Some "x"); Example.cmd "--help" None]
    = inl (UsageError "invalid value") /\
  parse_args Example.parse_float parser
    [Example.cmd "--save-dir" (Some "out"); Example.cmd "--helps" None;
     Example.cmd "-h" None]
    = inl HelpExit.
Proof. vm_compute. repeat split; reflexivity. Qed.

(** X8.  An option that does not occur on the command line keeps the
    default of its row: after a successful parse the attribute holds the
    [default=] value of [add_argument]. *)
Theorem absent_option_keeps_default (fl : string -> option Q) (a : Action)
    (argv : list Occurrence) (args : Namespace) :
  In a parser ->
  Forall (fun o => opt o ∉ option_strings a) argv ->
  parse_args fl parser argv = inr args ->
  args !! dest a = Some (default a).
Proof.
  intros Ha Hno. unfold parse_args.
  destruct (consume_all fl parser _ argv) as [e|st] eqn:E; [discriminate|].
  destruct (consume_all_keeps fl a argv _ st Ha Hno E) as [Hns _].
  cbn [ns] in Hns.
  repeat case_match; try discriminate. intros [= <-].
  rewrite Hns. pose proof parser_defaults as Hd.
  rewrite Forall_forall in Hd. apply Hd. apply list_elem_of_In. exact Ha.
Qed.

Lemma absent_option_keeps_default_witness :
  let a := add_argument ["--epoch"] "epoch" Store T_int (VInt 100) None false in
  In a parser /\
  Forall (fun o => opt o ∉ option_strings a) Example.argv_resume_missing /\
  exists args,
    parse_args Example.parse_float parser Example.argv_resume_missing
      = inr args /\
    args !! "epoch" = Some (VInt 100).
Proof.
  intros a.
  assert (Ha : In a parser) by (right; right; left; reflexivity).
  assert (Hno : Forall (fun o => opt o ∉ option_strings a)
                  Example.argv_resume_missing).
  { repeat constructor; cbn; intros H; apply list_elem_of_singleton in H;
      discriminate H. }
  split; [exact Ha|]. split; [exact Hno|].
  destruct (succeeds_inr
              (parse_args Example.parse_float parser
                 Example.argv_resume_missing)) as [args E];
    [vm_compute; reflexivity|].
  exists args. split; [exact E|].
  exact (absent_option_keeps_default Example.parse_float a
             Example.argv_resume_missing args Ha Hno E).
Defined.

(** X9.  When an option occurs several times the last occurrence wins:
    after a successful parse its attribute holds what that occurrence
    stores, the [type=] conversion of its argument (one of the [choices=]
    when there are any), or True for a flag. *)
Theorem last_occurrence_wins (fl : string -> option Q)
    (pre post : list Occurrence) (o : Occurrence) (a : Action)
    (args : Namespace) :
  find_action parser (opt o) = Some a ->
  Forall (fun o' => opt o' ∉ option_strings a) post ->
  parse_args fl parser (pre ++ o :: post) = inr args ->
  exists v, args !! dest a = Some v /\ stored fl a (arg o) v.
Proof.
  intros Hf Hpost. unfold parse_args.
  destruct (consume_all fl parser _ (pre ++ o :: post)) as [e|st] eqn:E;
    [discriminate|].
  apply consume_all_app in E as (st1 & _ & E). cbn [consume_all] in E.
  destruct (consume fl parser st1 o) as [e|st2] eqn:Eo; [discriminate|].
  destruct (consume_stores fl a st1 o st2 Hf Eo) as (v & Hv & Hst).
  assert (Ha : In a parser) by (apply find_action_spec in Hf; tauto).
  destruct (consume_all_keeps fl a post st2 st Ha Hpost E) as [Hns _].
  repeat case_match; try discriminate. intros [= <-].
  exists v. split; [congruence | exact Hst].
Qed.

Lemma last_occurrence_wins_witness :
  let a := add_argument ["--epoch"] "epoch" Store T_int (VInt 100) None false in
  let pre := [Example.cmd "--save-dir" (Some "out");
              Example.cmd "--epoch" (Some "3")] in
  let o := Example.cmd "--epoch" (Some "8") in
  find_action parser (opt o) = Some a /\
  exists args,
    parse_args Example.parse_float parser (pre ++ [o]) = inr args /\
    exists v, args !! "epoch" = Some v /\ stored Example.parse_float a (arg o) v.
Proof.
  intros a pre o.
  assert (Hf : find_action parser (opt o) = Some a) by (vm_compute; reflexivity).
  split; [exact Hf|].
  destruct (succeeds_inr
              (parse_args Example.parse_float parser (pre ++ [o])))
    as [args E]; [vm_compute; reflexivity|].
  exists args. split; [exact E|].
  exact (last_occurrence_wins Example.parse_float pre [] o a args Hf
             (Forall_nil_2 _) E).
Defined.

(** The example: [--epoch 3 --epoch 8] gives 8. *)
Example last_epoch_wins :
  match parse_args Example.parse_float parser
          [Example.cmd "--save-dir" (Some "out");
           Example.cmd "--epoch" (Some "3"); Example.cmd "--epoch" (Some "8")]
  with
  | inr args => args !! "epoch"
  | inl _ => None
  end = Some (VInt 8).
Proof. vm_compute. reflexivity. Qed.

(** X10.  An option string that the parser does not know (no row of
    the table declares it, and it is not [-h] or [--help]) keeps the
    parser from accepting the command line, wherever it occurs and
    whatever the other occurrences are: the parser leaves with a usage
    error, or, when an occurrence of [-h] or [--help] comes before any
    error, with the help. *)
Theorem unknown_option_is_rejected (fl : string -> option Q)
    (argv : list Occurrence) :
  Exists unknown_option argv ->
  exists e, parse_args fl parser argv = inl e /\ parser_exit argv e.
Proof.
  intros Hex.
  assert (H : exists e, parse_args fl parser argv = inl e).
  { unfold parse_args.
    destruct (consume_all fl parser _ argv) as [e|st] eqn:E; [eauto|].
    rewrite (consume_all_extras fl argv _ st E (or_intror Hex)).
    destruct (forallb _ parser); eauto. }
  destruct H as [e He]. exists e. split; [exact He|].
  exact (parse_args_inl fl parser argv e He).
Qed.

Lemma unknown_option_is_rejected_witness :
  let argv := [Example.cmd "--save-dir" (Some "out");
               Example.cmd "--epochs" (Some "1")] in
  Exists unknown_option argv /\
  exists e, parse_args Example.parse_float parser argv = inl e /\
            parser_exit argv e.
Proof.
  intros argv.
  assert (H : Exists unknown_option argv).
  { apply Exists_cons_tl, Exists_cons_hd. split.
    - intros Hin. apply (bool_decide_eq_true_2 _) in Hin.
      vm_compute in Hin. discriminate Hin.
    - vm_compute. reflexivity. }
  split; [exact H|].
  exact (unknown_option_is_rejected Example.parse_float argv H).
Defined.

(** X11.  After a successful parse the namespace holds exactly the
    attributes of the table, each with a value of the type the driver
    uses it at: [save_dir] is a string (never the None of its missing
    default), the counts are ints, the rates floats, the flags bools. *)
Theorem parsed_namespace_is_complete (fl : string -> option Q)
    (argv : list Occurrence) (args : Namespace) :
  parse_args fl parser argv = inr args ->
  Forall (fun a => exists v t,
            args !! dest a = Some v /\ type_for (dest a) = Some t /\
            has_type t v) parser /\
  (forall k, is_Some (args !! k) -> In k (map dest parser)).
Proof.
  intros Hp. split.
  - pose proof (parse_args_well_typed fl argv args Hp) as Hwt.
    unfold parser. repeat constructor; cbn [dest].
    all: match goal with
         | |- exists v t, _ !! ?d = _ /\ _ =>
             let t := eval vm_compute in (type_for d) in
             match t with
             | Some ?ty =>
                 destruct (Hwt d ty eq_refl) as (v & Hv & Ht);
                 exists v, ty; auto
             end
         end.
  - revert Hp. unfold parse_args.
    destruct (consume_all fl parser _ argv) as [e|st] eqn:E; [discriminate|].
    repeat case_match; try discriminate. intros [= <-] k.
    eapply (consume_all_invariant fl parser
              (fun st => forall k, is_Some (ns st !! k) -> In k (map dest parser))
              argv); [| |exact E].
    + intros st1 o st2 _ Hst1 Hc k' Hk'.
      apply consume_inr in Hc as [[E1 _]|(a & v & Ha & _ & _ & E1 & _)];
        rewrite E1 in Hk'; [auto|].
      destruct (decide (dest a = k')) as [<-|Hne]; [apply in_map; exact Ha|].
      rewrite lookup_insert_ne in Hk' by exact Hne. auto.
    + cbn [ns]. intros k' Hk'. unfold defaults in Hk'.
      apply defaults_keys in Hk' as [Hk'|Hk']; [|exact Hk'].
      rewrite lookup_empty in Hk'. destruct Hk' as [? [=]].
Qed.

Lemma parsed_namespace_is_complete_witness :
  exists args,
    parse_args Example.parse_float parser Example.argv_one_epoch = inr args /\
    Forall (fun a => exists v t,
              args !! dest a = Some v /\ type_for (dest a) = Some t /\
              has_type t v) parser.
Proof.
  destruct (succeeds_inr
              (parse_args Example.parse_float parser Example.argv_one_epoch))
    as [args E]; [vm_compute; reflexivity|].
  exists args. split; [exact E|].
  exact (proj1 (parsed_namespace_is_complete Example.parse_float
                    Example.argv_one_epoch args E)).
Defined.

(** X12.  The two range methods cannot be selected on the command line:
    [--range-method] and [--grad-range-method] declare [choices=[0, 1, 3]]
    without [type=int], so the argument, a string, is never among the
    choices and no command line with an occurrence of either is accepted,
    also with the documented values 0, 1 and 3: the parser leaves with a
    usage error, or, when an occurrence of [-h] or [--help] comes before
    any error, with the help.  After a successful parse both attributes
    are the default, 0. *)
Theorem range_method_cannot_be_selected (fl : string -> option Q)
    (argv : list Occurrence) :
  (Exists selects_range_method argv ->
   exists e, parse_args fl parser argv = inl e /\ parser_exit argv e) /\
  (forall args, parse_args fl parser argv = inr args ->
     args !! "range_method" = Some (VInt 0) /\
     args !! "grad_range_method" = Some (VInt 0)).
Proof.
  split; [apply parse_args_range_method|].
  intros args Hp. apply parse_args_well_typed in Hp.
  destruct (Hp "range_method" TyZero eq_refl) as ([] & H1 & T1);
    try contradiction.
  destruct (Hp "grad_range_method" TyZero eq_refl) as ([] & H2 & T2);
    try contradiction.
  cbn in T1, T2. subst. auto.
Qed.

(** ** The loop of main *)

Section Reading.

Lemma lr_epochs_app h t : lr_epochs (h ++ t) = lr_epochs h ++ lr_epochs t.
Proof. apply omap_app. Qed.

Lemma summaries_app h t : summaries (h ++ t) = summaries h ++ summaries t.
Proof. apply omap_app. Qed.

Lemma cur_after_app h t : forall c,
  cur_after c (h ++ t) = cur_after (cur_after c h) t.
Proof. induction h as [|e h IH]; intros c; [reflexivity|]. destruct e; apply IH. Qed.

Lemma save_log_app h t : forall c,
  save_log c (h ++ t) = save_log c h ++ save_log (cur_after c h) t.
Proof.
  induction h as [|e h IH]; intros c; [reflexivity|].
  destruct e; cbn; rewrite ?IH; reflexivity.
Qed.

Lemma inert_reads t : Forall inert t ->
  lr_epochs t = [] /\ summaries t = [] /\
  forall c, save_log c t = [] /\ cur_after c t = c.
Proof.
  induction 1 as [|e t He _ (IH1 & IH2 & IH3)]; [repeat split|].
  destruct e; cbn in He; try contradiction; cbn; auto.
Qed.

Lemma best_after_snoc b l avg :
  best_after b (l ++ [avg]) = py_max avg (best_after b l).
Proof. unfold best_after. rewrite foldl_app. reflexivity. Qed.

Lemma train_trace_inert W c tr : train_trace W c tr -> Forall inert tr.
Proof.
  intros (bs & -> & Hb). repeat (constructor; [exact I|]).
  eapply Forall_impl; [exact Hb|]. intros []; cbn; tauto.
Qed.

Lemma validate_trace_inert c tr : validate_trace c tr -> Forall inert tr.
Proof.
  intros (bs & -> & Hb). repeat (constructor; [exact I|]).
  eapply Forall_impl; [exact Hb|]. intros []; cbn; tauto.
Qed.

Lemma quiet_inert W tr : Forall (quiet W) tr -> Forall inert tr.
Proof. intros H. eapply Forall_impl; [exact H|]. intros []; cbn; tauto. Qed.

End Reading.

(** Reading a trace assembled from pieces. *)
Ltac read_inert :=
  repeat match goal with
    | H : train_trace _ _ ?t |- _ => apply train_trace_inert in H
    | H : validate_trace _ ?t |- _ => apply validate_trace_inert in H
    | H : Forall (quiet _) ?t |- _ => apply quiet_inert in H
    | H : Forall inert ?t |- _ =>
        let E1 := fresh in let E2 := fresh in let E3 := fresh in
        destruct (inert_reads t H) as (E1 & E2 & E3); clear H;
        try rewrite !E1; try rewrite !E2;
        repeat rewrite (proj1 (E3 _)); repeat rewrite (proj2 (E3 _))
    end.

Ltac read_events :=
  repeat match goal with
    | |- context [lr_epochs (?e :: ?l)] =>
        let r := eval cbv beta iota delta [lr_epochs omap list_omap]
                   in (lr_epochs (e :: l)) in
        change (lr_epochs (e :: l)) with r
    | |- context [summaries (?e :: ?l)] =>
        let r := eval cbv beta iota delta [summaries omap list_omap]
                   in (summaries (e :: l)) in
        change (summaries (e :: l)) with r
    end;
  change (lr_epochs []) with (@nil Z);
  change (summaries []) with (@nil Q);
  cbn [save_log cur_after].

Ltac read_trace :=
  rewrite ?lr_epochs_app, ?summaries_app, ?save_log_app, ?cur_after_app;
  read_inert; read_events;
  rewrite ?app_nil_r, <- ?app_assoc; cbn [app].

Section Loop.
Context (W : World).

Lemma epoch_body_loop tl vl model optimizer epoch a best0 start total rest h g :
  loop_inv a best0 start total (epoch :: rest) h g ->
  wp (epoch_body W tl vl (model, optimizer) epoch)
     (fun h' o =>
        match o with
        | inl _ => exists rest', loop_trace a start total rest' h'
        | inr (_, g') => loop_inv a best0 start total rest h' g'
        end) h g.
Proof.
  intros ((Hlr & Hsv) & Ha & Hb).
  unfold epoch_body, adjust_learning_rate, save_checkpoint.
  wp_walk.
  all: try (exists (epoch :: rest); split; assumption).
  apply train_wp. intros tr [e|[[m1 o1] g1]] Htr Ho.
  { exists rest. split; read_trace; assumption. }
  destruct Ho as (-> & _ & _). cbv beta iota.
  apply wp_bind. apply validate_wp.
  { intros trv e Htrv. exists rest. split; read_trace; assumption. }
  intros trv avg m2 Htrv _ _. cbv beta iota.
  wp_walk; cbn [args best_prec1] in *.
  all: try (exists rest; split; read_trace; assumption).
  all: split; [split|split]; read_trace; cbn [args best_prec1];
    try assumption.
  all: try (rewrite best_after_snoc, Hb; reflexivity).
  apply Forall_app. split; [exact Hsv|]. constructor; [|constructor].
  split; [cbn [ck_epoch]; f_equal; lia|].
  do 2 eexists. rewrite <- Ha.
  split; [eassumption|]. split; [eassumption | reflexivity].
Qed.

(** The loop of [main], from its first value of [best_prec1]. *)
Lemma phases_loop l start total ev vs vt h g :
  args g !! "evaluate" = Some ev -> truthy ev = false ->
  args g !! "start_epoch" = Some vs -> int_of vs = Some start ->
  args g !! "epoch" = Some vt -> int_of vt = Some total ->
  Forall inert h ->
  wp (phases W l)
     (fun h' o =>
        match o with
        | inl _ => exists rest', loop_trace (args g) start total rest' h'
        | inr (_, g') =>
            loop_trace (args g) start total [] h' /\ args g' = args g /\
            exists h'',
              h' = h'' ++ [EvPrintBest (best_prec1 g')] /\
              best_prec1 g' = best_after (best_prec1 g) (summaries h'')
        end) h g.
Proof.
  intros Hev Hevf Hs Hsi Ht Hti Hh.
  assert (Hinit : loop_inv (args g) (best_prec1 g) start total
                    (py_range start total) h g).
  { split; [split|split]; read_trace; try reflexivity. constructor. }
  destruct l as [[[model optimizer] tl] vl]. unfold phases.
  wp_walk.
  all: try (exists (py_range start total); exact (proj1 Hinit)).
  - exfalso. congruence.
  - assert (z = start) by congruence. assert (z0 = total) by congruence.
    subst z z0.
    apply (wp_for_each _
             (fun rest _ h' g' =>
                loop_inv (args g) (best_prec1 g) start total rest h' g')).
    + exact Hinit.
    + intros epoch rest [m o] h' g' Hi.
      eapply wp_mono; [|apply epoch_body_loop; exact Hi].
      intros h'' [e|[[m' o'] g'']]; cbv beta iota; auto.
    + intros [m o] h' g' ((Hlr & Hsv) & Ha' & Hb'). cbv beta iota.
      wp_walk. split; [|split].
      * rewrite app_nil_r in Hlr. split; read_trace; assumption.
      * exact Ha'.
      * exists h'. split; [reflexivity | exact Hb'].
Qed.

End Loop.

Section Runs.
Context (W : World).

Lemma loop_trace_quiet a start total tr :
  Forall (quiet W) tr -> loop_trace a start total (py_range start total) tr.
Proof. intros Hq. split; read_trace; [reflexivity | constructor]. Qed.

(** A save is named after [save_dir] and [prefix], which a resume does
    not change. *)
Lemma loop_trace_args a a' start total rest h :
  a' !! "save_dir" = a !! "save_dir" -> a' !! "prefix" = a !! "prefix" ->
  loop_trace a' start total rest h -> loop_trace a start total rest h.
Proof.
  intros Hd Hp [Hlr Hsv]. split; [exact Hlr|].
  eapply Forall_impl; [exact Hsv|].
  intros [cur [file ck]] (H1 & dir & pfx & H2 & H3 & H4). cbn.
  split; [exact H1|]. exists dir, pfx. rewrite <- Hd, <- Hp. auto.
Qed.

(** What the first half of [main] leaves for the loop. *)
Lemma started_loop a g l g' :
  well_typed a -> started W a g l g' ->
  exists start total ev,
    first_epoch W a = Some start /\
    a !! "epoch" = Some (VInt total) /\
    a !! "evaluate" = Some (VBool ev) /\
    args g' !! "start_epoch" = Some (VInt start) /\
    args g' !! "epoch" = Some (VInt total) /\
    args g' !! "evaluate" = Some (VBool ev) /\
    args g' !! "save_dir" = a !! "save_dir" /\
    args g' !! "prefix" = a !! "prefix" /\
    best_prec1 g' = match loaded W a "resume" with
                    | Some ck => ck_best_prec1 ck
                    | None => best_prec1 g
                    end.
Proof.
  intros Hwt (c & _ & _ & _ & _ & _ & _ & Ha & Hb & _).
  destruct (Hwt "start_epoch" TyInt eq_refl) as ([] & Hs & Ts);
    try contradiction.
  destruct (Hwt "epoch" TyInt eq_refl) as ([] & Ht & Tt); try contradiction.
  destruct (Hwt "evaluate" TyBool eq_refl) as ([] & He & Te);
    try contradiction.
  unfold first_epoch, int_attr. rewrite Ha, Hb.
  destruct (loaded W a "resume") as [ck|].
  - exists (ck_epoch ck), z0, b.
    rewrite lookup_insert_eq, !lookup_insert_ne by discriminate. auto 10.
  - exists z, z0, b. rewrite Hs. cbn. auto 10.
Qed.

(** A run that is not [--evaluate], read as the loop of [main]. *)
Lemma main_loop argv a :
  parse_args (float_of_string W) parser argv = inr a ->
  a !! "evaluate" = Some (VBool false) ->
  exists start total,
    first_epoch W a = Some start /\
    a !! "epoch" = Some (VInt total) /\
    match (run W argv).2 with
    | inl _ => exists rest, loop_trace a start total rest (run W argv).1
    | inr (_, g') =>
        loop_trace a start total [] (run W argv).1 /\
        exists h,
          (run W argv).1 = h ++ [EvPrintBest (best_prec1 g')] /\
          best_prec1 g' = best_after (first_best W a) (summaries h)
    end.
Proof.
  intros Hp Hev. pose proof (parse_args_well_typed _ _ _ Hp) as Hwt.
  destruct (Hwt "epoch" TyInt eq_refl) as ([] & Ht & Tt); try contradiction.
  rename z into total.
  assert (Hfe : exists start, first_epoch W a = Some start).
  { unfold first_epoch, int_attr.
    destruct (loaded W a "resume"); [eauto|].
    destruct (Hwt "start_epoch" TyInt eq_refl) as ([] & Hs & Ts);
      try contradiction.
    rewrite Hs. cbn. eauto. }
  destruct Hfe as [start Hfe]. exists start, total.
  split; [exact Hfe|]. split; [exact Ht|].
  change (wp (main W argv)
            (fun h o =>
               match o with
               | inl _ => exists rest, loop_trace a start total rest h
               | inr (_, g') =>
                   loop_trace a start total [] h /\
                   exists h0,
                     h = h0 ++ [EvPrintBest (best_prec1 g')] /\
                     best_prec1 g' = best_after (first_best W a) (summaries h0)
               end) [] initial_globals).
  unfold main. apply wp_bind. apply startup_wp.
  - intros tr e Hq. eexists. apply loop_trace_quiet. exact Hq.
  - intros tr a0 l g1 Hq Hp0 Hst.
    assert (a0 = a) by congruence. subst a0.
    destruct (started_loop a _ l g1 Hwt Hst)
      as (start' & total' & ev & Hfe' & Ht' & Hev' & Hgs & Hgt & Hge &
          Hgd & Hgp & Hgb).
    assert (start' = start) by congruence.
    assert (total' = total) by congruence.
    assert (ev = false) by congruence. subst start' total' ev.
    eapply wp_mono;
      [|apply (phases_loop W l start total (VBool false) (VInt start)
                 (VInt total) tr g1 Hge eq_refl Hgs eq_refl Hgt eq_refl);
        apply (quiet_inert W); exact Hq].
    intros h' [e|[[] g2]]; cbv beta iota.
    + intros [rest Hl]. exists rest.
      exact (loop_trace_args a (args g1) start total rest h' Hgd Hgp Hl).
    + intros (Hl & _ & h0 & -> & Hbest). split.
      * exact (loop_trace_args a (args g1) start total [] _ Hgd Hgp Hl).
      * exists h0. split; [reflexivity|]. rewrite Hbest, Hgb. reflexivity.
Qed.

End Runs.

Lemma best_after_ge b l :
  (b <= best_after b l)%Q /\ Forall (fun x => (x <= best_after b l)%Q) l /\
  (best_after b l = b \/ In (best_after b l) l).
Proof.
  induction l as [|x l (IH1 & IH2 & IH3)] using rev_ind.
  - cbn. split; [apply Qle_refl|]. split; [constructor | left; reflexivity].
  - rewrite best_after_snoc. split; [|split].
    + eapply Qle_trans; [exact IH1 | apply py_max_ge_r].
    + apply Forall_app. split.
      * eapply Forall_impl; [exact IH2|]. intros y Hy. cbv beta in Hy.
        eapply Qle_trans; [exact Hy | apply py_max_ge_r].
      * repeat constructor. apply py_max_ge_l.
    + unfold py_max. destruct (Qlt_bool x (best_after b l)).
      * destruct IH3 as [E|Hin]; [left; exact E|].
        right. apply in_or_app. left. exact Hin.
      * right. apply in_or_app. right. left. reflexivity.
Qed.

(** X13.  A run that is not [--evaluate] goes through the epochs in
    order, starting at [args.start_epoch], or at the epoch of the
    checkpoint when [--resume] loads one, and ending before [args.epoch]:
    the epochs of its learning-rate lines are an initial part of
    [range(start, epoch)], and all of it when the run ends without an
    exception. *)
Theorem epochs_run_in_order (W : World) (argv : list Occurrence)
    (a : Namespace) :
  parse_args (float_of_string W) parser argv = inr a ->
  a !! "evaluate" = Some (VBool false) ->
  exists start total,
    first_epoch W a = Some start /\
    a !! "epoch" = Some (VInt total) /\
    lr_epochs (run W argv).1 `prefix_of` py_range start total /\
    (succeeds (run W argv).2 = true ->
     lr_epochs (run W argv).1 = py_range start total).
Proof.
  intros Hp Hev.
  destruct (main_loop W argv a Hp Hev) as (start & total & Hfe & Ht & H).
  exists start, total. split; [exact Hfe|]. split; [exact Ht|].
  destruct ((run W argv).2) as [e|[[] g']].
  - destruct H as (rest & Hlr & _). split; [|discriminate].
    exists rest. symmetry. exact Hlr.
  - destruct H as ((Hlr & _) & _). rewrite app_nil_r in Hlr.
    split; [|intros _; exact Hlr]. exists []. rewrite app_nil_r.
    symmetry. exact Hlr.
Qed.

(** X14.  When a run that is not [--evaluate] ends without an exception,
    its last line is "Best acc" with the final [best_prec1], which is the
    best of the first value (90, or the best precision of the resumed
    checkpoint) and the precisions of the validations of the run: no
    smaller than any of them, and equal to one of them. *)
Theorem best_acc_is_the_maximum (W : World) (argv : list Occurrence)
    (a : Namespace) (g' : Globals) :
  parse_args (float_of_string W) parser argv = inr a ->
  a !! "evaluate" = Some (VBool false) ->
  (run W argv).2 = inr (tt, g') ->
  exists h,
    (run W argv).1 = h ++ [EvPrintBest (best_prec1 g')] /\
    best_prec1 g' = best_after (first_best W a) (summaries h) /\
    (first_best W a <= best_prec1 g')%Q /\
    Forall (fun avg => (avg <= best_prec1 g')%Q) (summaries h) /\
    (best_prec1 g' = first_best W a \/ In (best_prec1 g') (summaries h)).
Proof.
  intros Hp Hev Hrun.
  destruct (main_loop W argv a Hp Hev) as (start & total & _ & _ & H).
  rewrite Hrun in H. destruct H as (_ & h & Hh & Hb).
  exists h. split; [exact Hh|]. split; [exact Hb|].
  rewrite Hb. apply best_after_ge.
Qed.

Section Evaluate.
Context (W : World).

Lemma validate_trace_no_training c tr :
  validate_trace c tr -> Forall (fun e => ~ training_event e) tr.
Proof.
  intros (bs & -> & Hb). repeat (constructor; [cbn; tauto|]).
  eapply Forall_impl; [exact Hb|]. intros []; cbn; tauto.
Qed.

Lemma quiet_no_training tr :
  Forall (quiet W) tr -> Forall (fun e => ~ training_event e) tr.
Proof. intros H. eapply Forall_impl; [exact H|]. intros []; cbn; tauto. Qed.

(** [if args.evaluate: validate(...); return]. *)
Lemma phases_evaluate l ev h g :
  args g !! "evaluate" = Some ev -> truthy ev = true ->
  wp (phases W l)
     (fun h' o =>
        exists trv rest,
          h' = h ++ trv ++ rest /\ validate_trace (config l.1.1.1) trv /\
          match o with
          | inl _ => rest = []
          | inr (_, g') =>
              g' = g /\ exists avg, rest = [EvPrintPrec avg (best_prec1 g)]
          end) h g.
Proof.
  intros Hev Hevt. destruct l as [[[model optimizer] tl] vl]. cbn [fst].
  unfold phases. wp_walk; try congruence.
  assert (p = ev) by congruence. subst p.
  apply validate_wp.
  - intros trv e Htrv. exists trv, []. rewrite app_nil_r. auto.
  - intros trv avg m' Htrv _ _. cbv beta iota. wp_walk.
    exists trv, [EvPrintPrec avg (best_prec1 g)].
    split; [reflexivity|]. split; [exact Htrv|]. eauto.
Qed.

(** A run with [--evaluate]. *)
Lemma main_evaluate argv a :
  parse_args (float_of_string W) parser argv = inr a ->
  a !! "evaluate" = Some (VBool true) ->
  exists tr trv rest,
    (run W argv).1 = tr ++ trv ++ rest /\
    Forall (quiet W) tr /\
    (trv = [] \/ exists c, validate_trace c trv) /\
    match (run W argv).2 with
    | inl _ => rest = []
    | inr (_, g') =>
        best_prec1 g' = first_best W a /\
        exists avg, rest = [EvPrintPrec avg (first_best W a)]
    end.
Proof.
  intros Hp Hev. pose proof (parse_args_well_typed _ _ _ Hp) as Hwt.
  change (wp (main W argv)
            (fun h o =>
               exists tr trv rest,
                 h = tr ++ trv ++ rest /\
                 Forall (quiet W) tr /\
                 (trv = [] \/ exists c, validate_trace c trv) /\
                 match o with
                 | inl _ => rest = []
                 | inr (_, g') =>
                     best_prec1 g' = first_best W a /\
                     exists avg, rest = [EvPrintPrec avg (first_best W a)]
                 end) [] initial_globals).
  unfold main. apply wp_bind. apply startup_wp.
  - intros tr e Hq. exists tr, [], []. rewrite app_nil_r. auto.
  - intros tr a0 l g1 Hq Hp0 Hst.
    assert (a0 = a) by congruence. subst a0.
    destruct (started_loop W a _ l g1 Hwt Hst)
      as (start & total & ev & _ & _ & Hev' & _ & _ & Hge & _ & _ & Hgb).
    assert (ev = true) by congruence. subst ev.
    eapply wp_mono;
      [|apply (phases_evaluate l (VBool true) tr g1 Hge eq_refl)].
    intros h' o (trv & rest & -> & Htrv & Ho).
    exists tr, trv, rest. split; [reflexivity|]. split; [exact Hq|].
    split; [right; eauto|].
    destruct o as [e|[[] g2]]; [exact Ho|].
    destruct Ho as (-> & avg & ->). unfold first_best. rewrite <- Hgb. eauto.
Qed.

End Evaluate.

(** X15.  With [--evaluate] a run only validates: none of its events is
    a learning-rate line, a step of [train], a save or the final "Best
    acc" line, and it prints at most one validation summary.  When it
    ends without an exception, that summary is its last event, and
    [best_prec1] is left as it was (90, or the best precision of the
    resumed checkpoint): the precision just measured is not recorded. *)
Theorem evaluate_only_validates (W : World) (argv : list Occurrence)
    (a : Namespace) :
  parse_args (float_of_string W) parser argv = inr a ->
  a !! "evaluate" = Some (VBool true) ->
  Forall (fun e => ~ training_event e) (run W argv).1 /\
  (length (summaries (run W argv).1) <= 1)%nat /\
  (forall g', (run W argv).2 = inr (tt, g') ->
     best_prec1 g' = first_best W a /\
     exists h avg, (run W argv).1 = h ++ [EvPrintPrec avg (first_best W a)]).
Proof.
  intros Hp Hev.
  destruct (main_evaluate W argv a Hp Hev)
    as (tr & trv & rest & Hrun & Hq & Htrv & Ho).
  assert (Hv : Forall (fun e => ~ training_event e) trv /\ Forall inert trv).
  { destruct Htrv as [->|[c Hc]]; [split; constructor|].
    split; [eapply validate_trace_no_training | eapply validate_trace_inert];
      exact Hc. }
  destruct Hv as [Hv1 Hv2].
  assert (Hr : rest = [] \/ exists avg, rest = [EvPrintPrec avg (first_best W a)]).
  { destruct ((run W argv).2) as [e|[[] g']]; [left; exact Ho|].
    right. tauto. }
  rewrite Hrun. split; [|split].
  - apply Forall_app. split; [apply (quiet_no_training W); exact Hq|].
    apply Forall_app. split; [exact Hv1|].
    destruct Hr as [->|[avg ->]]; repeat constructor. cbn. tauto.
  - pose proof (quiet_inert W tr Hq) as Hi.
    rewrite !summaries_app. read_inert.
    destruct Hr as [->|[avg ->]]; cbn; lia.
  - intros g' Hg. rewrite Hg in Ho. destruct Ho as (Hb & avg & ->).
    split; [exact Hb|]. exists (tr ++ trv), avg. rewrite app_assoc. reflexivity.
Qed.

Section Saves.
Context (W : World).

(** Every save of every run is named and numbered as [save_ok] says. *)
Lemma run_saves argv a :
  parse_args (float_of_string W) parser argv = inr a ->
  Forall (save_ok a) (save_log None (run W argv).1).
Proof.
  intros Hp. pose proof (parse_args_well_typed _ _ _ Hp) as Hwt.
  destruct (Hwt "evaluate" TyBool eq_refl) as ([] & He & Te);
    try contradiction.
  destruct b.
  - destruct (main_evaluate W argv a Hp He)
      as (tr & trv & rest & -> & Hq & Htrv & Ho).
    assert (Hv : Forall inert trv).
    { destruct Htrv as [->|[c Hc]]; [constructor|].
      eapply validate_trace_inert. exact Hc. }
    assert (Hr : save_log None rest = []).
    { destruct ((run W argv).2) as [e|[[] g']]; [subst rest; reflexivity|].
      destruct Ho as (_ & avg & ->). reflexivity. }
    read_trace. rewrite Hr. constructor.
  - destruct (main_loop W argv a Hp He) as (start & total & _ & _ & H).
    destruct ((run W argv).2) as [e|[[] g']].
    + destruct H as (rest & _ & Hsv). exact Hsv.
    + destruct H as ((_ & Hsv) & _). exact Hsv.
Qed.

Lemma loaded_resume a path ck :
  a !! "resume" = Some (VStr path) -> path <> "" ->
  files W !! path = Some (Some ck) ->
  loaded W a "resume" = Some ck.
Proof.
  intros Ha Hne Hf. unfold loaded. rewrite Ha.
  destruct (String.eqb_spec path ""); [contradiction|].
  rewrite Hf. reflexivity.
Qed.

(** The loop over an empty range. *)
Lemma phases_empty l start total ev vs vt h g :
  args g !! "evaluate" = Some ev -> truthy ev = false ->
  args g !! "start_epoch" = Some vs -> int_of vs = Some start ->
  args g !! "epoch" = Some vt -> int_of vt = Some total ->
  total <= start ->
  wp (phases W l)
     (fun h' o => h' = h ++ [EvPrintBest (best_prec1 g)] /\ o = inr (tt, g))
     h g.
Proof.
  intros Hev Hevf Hs Hsi Ht Hti Hle.
  destruct l as [[[model optimizer] tl] vl]. unfold phases.
  wp_walk; try congruence.
  assert (z = start) by congruence. assert (z0 = total) by congruence.
  subst z z0. unfold py_range.
  replace (Z.to_nat (total - start)) with 0%nat by lia.
  cbn [seq map for_each]. wp_walk. auto.
Qed.

End Saves.

(** X16.  Every checkpoint of every run is written to the file
    [os.path.join(save_dir, "checkpoint_{}_{:.3f}.tar".format(prefix,
    best))], where [save_dir] and [prefix] are the [--save-dir] and the
    [--prefix] of the command line and [best] is the precision the
    checkpoint records; and it records the number of the epoch just
    trained plus one, the epoch a resumed run has to start at. *)
Theorem checkpoints_are_named_and_numbered (W : World)
    (argv : list Occurrence) (a : Namespace) :
  parse_args (float_of_string W) parser argv = inr a ->
  exists dir pfx,
    a !! "save_dir" = Some (VStr dir) /\
    a !! "prefix" = Some (VStr pfx) /\
    Forall (fun s =>
              let '(cur, (file, ck)) := s in
              cur = Some (ck_epoch ck - 1) /\
              file = checkpoint_file dir pfx (ck_best_prec1 ck))
           (save_log None (run W argv).1).
Proof.
  intros Hp. pose proof (parse_args_well_typed _ _ _ Hp) as Hwt.
  destruct (Hwt "save_dir" TyStr eq_refl) as ([] & Hd & Td); try contradiction.
  destruct (Hwt "prefix" TyStr eq_refl) as ([] & Hx & Tx); try contradiction.
  do 2 eexists. split; [exact Hd|]. split; [exact Hx|].
  eapply Forall_impl; [exact (run_saves W argv a Hp)|].
  intros [cur [file ck]] (Hcur & dir & pfx & Hd' & Hx' & ->).
  split; [exact Hcur|]. congruence.
Qed.

(** X17.  Save and resume fit together: a run that resumes from a
    checkpoint which some run wrote while in epoch [e] takes its first
    best precision from the checkpoint and sets learning rates for the
    epochs [e + 1], [e + 2], ... only, up to its own [--epoch]. *)
Theorem resume_continues_after_the_saved_epoch (W W' : World)
    (argv argv' : list Occurrence) (a a' : Namespace) (cur : option Z)
    (file path : string) (ck : Checkpoint) :
  parse_args (float_of_string W) parser argv = inr a ->
  In (cur, (file, ck)) (save_log None (run W argv).1) ->
  parse_args (float_of_string W') parser argv' = inr a' ->
  a' !! "evaluate" = Some (VBool false) ->
  a' !! "resume" = Some (VStr path) ->
  path <> "" ->
  files W' !! path = Some (Some ck) ->
  exists e total,
    cur = Some e /\
    a' !! "epoch" = Some (VInt total) /\
    first_best W' a' = ck_best_prec1 ck /\
    lr_epochs (run W' argv').1 `prefix_of` py_range (e + 1) total.
Proof.
  intros Hp Hin Hp' Hev Hres Hne Hf.
  pose proof (run_saves W argv a Hp) as Hsv.
  rewrite Forall_forall in Hsv. apply list_elem_of_In in Hin.
  destruct (Hsv _ Hin) as (Hcur & _).
  pose proof (loaded_resume W' a' path ck Hres Hne Hf) as Hl.
  destruct (main_loop W' argv' a' Hp' Hev) as (start & total & Hfe & Ht & H).
  unfold first_epoch in Hfe. rewrite Hl in Hfe. injection Hfe as <-.
  exists (ck_epoch ck - 1), total.
  split; [exact Hcur|]. split; [exact Ht|].
  split; [unfold first_best; rewrite Hl; reflexivity|].
  replace (ck_epoch ck - 1 + 1) with (ck_epoch ck) by lia.
  destruct ((run W' argv').2) as [err|[[] g']].
  - destruct H as (rest & Hlr & _). exists rest. symmetry. exact Hlr.
  - destruct H as ((Hlr & _) & _). exists []. symmetry. exact Hlr.
Qed.

(** X18.  The checkpoints of a run record strictly increasing
    precisions: of two saves, the later one holds the greater
    [best_prec1]. *)
Theorem checkpoints_strictly_improve (W : World) (argv : list Occurrence)
    (pre mid post : list event) (f1 f2 : string)
    (ck1 ck2 : Checkpoint) :
  (run W argv).1 =
    pre ++ EvTorchSave f1 ck1 :: mid ++ EvTorchSave f2 ck2 :: post ->
  (ck_best_prec1 ck1 < ck_best_prec1 ck2)%Q.
Proof.
  intros Hrun.
  pose proof (main_justified W argv initial_globals) as Hj.
  destruct (justified_save_inv _ Hj pre _ f1 ck1 Hrun)
    as (pre1 & avg1 & b1 & -> & _ & _ & <- & _).
  rewrite app_comm_cons, app_assoc in Hrun.
  destruct (justified_save_inv _ Hj _ post f2 ck2 Hrun)
    as (pre2 & avg2 & b2 & Hpre2 & _ & _ & <- & Hprev).
  apply (Hprev (ck_best_prec1 ck1) b1).
  destruct mid as [|m mid' _] using rev_ind.
  - rewrite <- app_assoc in Hpre2. cbn [app] in Hpre2.
    change ([EvPrintPrec (ck_best_prec1 ck1) b1; EvTorchSave f1 ck1])
      with ([EvPrintPrec (ck_best_prec1 ck1) b1] ++ [EvTorchSave f1 ck1])
      in Hpre2.
    rewrite app_assoc in Hpre2.
    apply app_inj_tail in Hpre2 as [_ [=]].
  - rewrite app_comm_cons, app_assoc in Hpre2.
    apply app_inj_tail in Hpre2 as [<- _].
    apply in_or_app. left. apply in_or_app. right. left. reflexivity.
Qed.

(** X19.  When the first epoch is not below [--epoch] (a resumed run
    whose checkpoint has reached it, or [--start-epoch] at or past
    [--epoch]), a run that is not [--evaluate] trains nothing, validates
    nothing and writes nothing: after the first half of [main] it only
    prints "Best acc" with the first best precision. *)
Theorem nothing_left_to_train (W : World) (argv : list Occurrence)
    (a : Namespace) (start total : Z) :
  parse_args (float_of_string W) parser argv = inr a ->
  a !! "evaluate" = Some (VBool false) ->
  first_epoch W a = Some start ->
  a !! "epoch" = Some (VInt total) ->
  total <= start ->
  match (run W argv).2 with
  | inl _ => Forall (quiet W) (run W argv).1
  | inr (_, g') =>
      best_prec1 g' = first_best W a /\
      exists tr,
        (run W argv).1 = tr ++ [EvPrintBest (first_best W a)] /\
        Forall (quiet W) tr
  end.
Proof.
  intros Hp Hev Hfe Ht Hle.
  pose proof (parse_args_well_typed _ _ _ Hp) as Hwt.
  change (wp (main W argv)
            (fun h o =>
               match o with
               | inl _ => Forall (quiet W) h
               | inr (_, g') =>
                   best_prec1 g' = first_best W a /\
                   exists tr,
                     h = tr ++ [EvPrintBest (first_best W a)] /\
                     Forall (quiet W) tr
               end) [] initial_globals).
  unfold main. apply wp_bind. apply startup_wp.
  - intros tr e Hq. exact Hq.
  - intros tr a0 l g1 Hq Hp0 Hst.
    assert (a0 = a) by congruence. subst a0.
    destruct (started_loop W a _ l g1 Hwt Hst)
      as (start' & total' & ev & Hfe' & Ht' & Hev' & Hgs & Hgt & Hge &
          _ & _ & Hgb).
    assert (start' = start) by congruence.
    assert (total' = total) by congruence.
    assert (ev = false) by congruence. subst start' total' ev.
    eapply wp_mono;
      [|apply (phases_empty W l start total (VBool false) (VInt start)
                 (VInt total) tr g1 Hge eq_refl Hgs eq_refl Hgt eq_refl Hle)].
    intros h' o [-> ->]. unfold first_best. rewrite <- Hgb.
    split; [reflexivity|]. exists tr. auto.
Qed.

(** ** The exceptions of a run *)

(** Every attribute of a well-typed namespace, at its type. *)
Lemma well_typed_reads a :
  well_typed a ->
  (exists v, a !! "print_freq" = Some (VInt v)) /\
  (exists v, a !! "lr" = Some (VFloat v)) /\
  (exists v, a !! "momentum" = Some (VFloat v)) /\
  (exists v, a !! "weight_decay" = Some (VFloat v)) /\
  (exists v, a !! "batch_size" = Some (VInt v)) /\
  (exists v, a !! "test_batch_size" = Some (VInt v)) /\
  (exists v, a !! "start_epoch" = Some (VInt v)) /\
  (exists v, a !! "epoch" = Some (VInt v)) /\
  (exists v, a !! "evaluate" = Some (VBool v)) /\
  (exists v, a !! "resume" = Some (VStr v)) /\
  (exists v, a !! "pretrained" = Some (VStr v)) /\
  (exists v, a !! "prefix" = Some (VStr v)).
Proof.
  intros Hwt.
  repeat match goal with
    | |- _ /\ _ => split
    | |- exists v, _ !! ?d = Some (VInt v) =>
        destruct (Hwt d TyInt eq_refl) as ([] & H & T); try contradiction; eauto
    | |- exists v, _ !! ?d = Some (VFloat v) =>
        destruct (Hwt d TyFloat eq_refl) as ([] & H & T); try contradiction; eauto
    | |- exists v, _ !! ?d = Some (VBool v) =>
        destruct (Hwt d TyBool eq_refl) as ([] & H & T); try contradiction; eauto
    | |- exists v, _ !! ?d = Some (VStr v) =>
        destruct (Hwt d TyStr eq_refl) as ([] & H & T); try contradiction; eauto
    end.
Qed.

(** Rewriting the reads of [args] that are known. *)
Ltac read_args :=
  cbn [args];
  rewrite ?lookup_insert_ne by discriminate;
  repeat match goal with
    | H : ?a !! ?k = Some _ |- context [?a !! ?k] => rewrite H
    end;
  cbn [int_of num_of truthy]; cbv beta iota.

Ltac typed_walk := repeat first [progress read_args | wp_step].

Section StartupEvents.
Context (W : World).

Lemma startup_events argv a g :
  parse_args (float_of_string W) parser argv = inr a ->
  wp (startup W argv) (fun h _ => Forall (startup_event W a) h) [] g.
Proof.
  intros Hp. unfold startup. rewrite Hp.
  pose proof (parse_args_well_typed _ _ _ Hp) as Hwt.
  destruct (well_typed_lookups a Hwt)
    as (gpu & save_dir & float_bn & fix_grad & bd & bg &
        Hgpu & Hsd & Hfb & Hfg & Hrm & Hgrm & Hbd & Hbg).
  destruct (well_typed_reads _ Hwt)
    as (_ & [lr Hlr] & [mo Hmo] & [wd Hwd] & [bs Hbs] & [tbs Htbs] & _ & _ &
        _ & [res Hres] & [pre Hpre] & _).
  unfold select_device, build_model, resume_from, pretrained_from, torch_load.
  typed_walk.
  all: rewrite <- ?app_assoc; cbn [app].
  all: repeat (apply List.Forall_cons;
               [cbn [startup_event];
                first
                  [ exact I
                  | do 2 eexists; split; eassumption
                  | split; assumption
                  | split; [apply Nat.ltb_lt; assumption
                           | eexists; split; eassumption]
                  | split;
                    [match goal with
                     | H : negb (String.eqb ?p "") = true |- ?p <> "" =>
                         intros ->; discriminate H
                     end
                    | split; [assumption
                             | first [left; assumption | right; assumption]]]
                  | match goal with
                    | H : files W !! ?p = Some (Some ?c) |- _ =>
                        exists p, c; split; [exact H|];
                        split; [reflexivity
                               | first [left; assumption
                                       | right; assumption]]
                    end ]
               |]).
  all: apply List.Forall_nil.
Qed.

End StartupEvents.

(** X21.  In the first half of [main] nothing happens without its
    reason: the device set is the first of the [--gpu] list; the save
    directory is made only when it does not exist; the model is wrapped
    for several devices only when the list names more than one; a file
    is loaded only when [--resume] or [--pretrained] names it, the name is
    not empty and the file exists; the tensors restored are those of the
    checkpoint in such a file.  No phase has started. *)
Theorem startup_acts_only_on_its_arguments (W : World)
    (argv : list Occurrence) (a : Namespace) (g : Globals) :
  parse_args (float_of_string W) parser argv = inr a ->
  Forall (startup_event W a) (startup W argv g).1.
Proof. intros Hp. exact (startup_events W argv a g Hp). Qed.

(** ** The mode-set helpers for small bitwidths *)

Lemma resolve_by_type (default stat : fix_method) (ov : Overrides)
    (mtype role : string) :
  ov = {[ "BatchNorm2d_fix" :=
            <["weight" := default]> (<["bias" := default]>
            (<["running_mean" := stat]> (<["running_var" := stat]> ∅))) ]} ->
  (mtype = "BatchNorm2d_fix" /\ (role = "running_mean" \/ role = "running_var") ->
   resolve default (Some ov) mtype role = stat) /\
  (~ (mtype = "BatchNorm2d_fix" /\ (role = "running_mean" \/ role = "running_var")) ->
   resolve default (Some ov) mtype role = default).
Proof.
  intros ->. unfold resolve.
  destruct (decide (mtype = "BatchNorm2d_fix")) as [->|Hne].
  - rewrite lookup_singleton_eq.
    destruct (decide (role = "weight")) as [->|H1];
      [split; [intros [_ [H|H]]; discriminate H | reflexivity]|].
    rewrite lookup_insert_ne by congruence.
    destruct (decide (role = "bias")) as [->|H2];
      [split; [intros [_ [H|H]]; discriminate H | reflexivity]|].
    rewrite lookup_insert_ne by congruence.
    destruct (decide (role = "running_mean")) as [->|H3].
    { rewrite lookup_insert_eq. split; [reflexivity|]. intros H. destruct H. auto. }
    rewrite lookup_insert_ne by congruence.
    destruct (decide (role = "running_var")) as [->|H4].
    { rewrite lookup_insert_eq. split; [reflexivity|]. intros H. destruct H. auto. }
    rewrite lookup_insert_ne by congruence. rewrite lookup_empty.
    split; [intros [_ [H|H]]; contradiction | reflexivity].
  - rewrite lookup_singleton_ne by congruence.
    split; [intros [H _]; contradiction | reflexivity].
Qed.

Lemma set_fix_method_mode default ov model md role p :
  In md (modules (set_fix_method default ov model)) ->
  policies md !! role = Some p ->
  mode p = resolve default ov (module_type md) role.
Proof.
  unfold set_fix_method. cbn [modules]. intros Hin Hp.
  apply in_map_iff in Hin as (md0 & <- & _).
  cbn [policies set_module_method module_type] in Hp |- *.
  rewrite map_lookup_imap in Hp.
  destruct (policies md0 !! role) as [p0|]; [|discriminate].
  cbn in Hp. injection Hp as <-. reflexivity.
Qed.

(** X22.  The two helpers the source keeps for small bitwidths,
    [_set_fix_method_train] and [_set_fix_method_eval], which [train] and
    [validate] do not call: the first puts the running mean and the
    running variance of every BatchNorm2d_fix module in NONE and every
    other policy in AUTO; the second puts those statistics in AUTO and
    every other policy in FIXED.  Both leave the tensors, the
    configuration and the globals as they are.  (What
    [set_fix_method] does with its per-type table is taken from the
    design document.) *)
Theorem small_bitwidth_helpers_treat_running_statistics_apart
    (model : FixNet) (g : Globals) :
  exists mt me,
    _set_fix_method_train model g =
      ([EvSetFixMethod FIX_AUTO (Some train_method_by_type)], inr (mt, g)) /\
    _set_fix_method_eval model g =
      ([EvSetFixMethod FIX_FIXED (Some eval_method_by_type)], inr (me, g)) /\
    state mt = state model /\ config mt = config model /\
    state me = state model /\ config me = config model /\
    (forall md role p,
       In md (modules mt) -> policies md !! role = Some p ->
       (running_statistic md role -> mode p = FIX_NONE) /\
       (~ running_statistic md role -> mode p = FIX_AUTO)) /\
    (forall md role p,
       In md (modules me) -> policies md !! role = Some p ->
       (running_statistic md role -> mode p = FIX_AUTO) /\
       (~ running_statistic md role -> mode p = FIX_FIXED)).
Proof.
  exists (set_fix_method FIX_AUTO (Some train_method_by_type) model),
         (set_fix_method FIX_FIXED (Some eval_method_by_type) model).
  split; [reflexivity|]. split; [reflexivity|].
  split; [reflexivity|]. split; [reflexivity|].
  split; [reflexivity|]. split; [reflexivity|]. split.
  - intros md role p Hin Hp.
    rewrite (set_fix_method_mode _ _ _ md role p Hin Hp).
    apply (resolve_by_type FIX_AUTO FIX_NONE). reflexivity.
  - intros md role p Hin Hp.
    rewrite (set_fix_method_mode _ _ _ md role p Hin Hp).
    apply (resolve_by_type FIX_FIXED FIX_AUTO). reflexivity.
Qed.

(** ** The example runs *)

Lemma split_two_saves_spec h pre f1 ck1 mid f2 ck2 post :
  split_two_saves h = Some (pre, (f1, ck1), mid, (f2, ck2), post) ->
  h = pre ++ EvTorchSave f1 ck1 :: mid ++ EvTorchSave f2 ck2 :: post.
Proof.
  unfold split_two_saves.
  destruct (split_at_save h) as [[[pre' [f1' ck1']] rest]|] eqn:E1;
    [|discriminate].
  destruct (split_at_save rest) as [[[mid' [f2' ck2']] post']|] eqn:E2;
    [|discriminate].
  intros [= -> -> -> -> -> -> ->].
  apply split_at_save_spec in E1, E2. subst. reflexivity.
Qed.

Lemma parsed_spec argv :
  succeeds (parse_args Example.parse_float parser argv) = true ->
  parse_args Example.parse_float parser argv = inr (parsed argv).
Proof.
  unfold parsed.
  destruct (parse_args Example.parse_float parser argv);
    [discriminate | reflexivity].
Qed.

Lemma final_globals_spec (o : Outcome unit) :
  succeeds o = true -> o = inr (tt, final_globals o).
Proof. destruct o as [e|[[] g]]; [discriminate | reflexivity]. Qed.

Lemma epochs_run_in_order_witness :
  let W := rising_world ∅ in
  let a := parsed argv_two_epochs in
  parse_args (float_of_string W) parser argv_two_epochs = inr a /\
  a !! "evaluate" = Some (VBool false) /\
  exists start total,
    first_epoch W a = Some start /\
    a !! "epoch" = Some (VInt total) /\
    lr_epochs (run W argv_two_epochs).1 `prefix_of` py_range start total /\
    (succeeds (run W argv_two_epochs).2 = true ->
     lr_epochs (run W argv_two_epochs).1 = py_range start total).
Proof.
  intros W a.
  assert (Hp : parse_args (float_of_string W) parser argv_two_epochs = inr a)
    by (apply parsed_spec; vm_compute; reflexivity).
  assert (Hev : a !! "evaluate" = Some (VBool false))
    by (vm_compute; reflexivity).
  split; [exact Hp|]. split; [exact Hev|].
  exact (epochs_run_in_order W argv_two_epochs a Hp Hev).
Defined.

(** Two epochs in the world where training helps: the epochs 0 and 1,
    validation precisions 96 and 97, a checkpoint after each, named
    after the precision, the second numbered 2 and holding 97, which is
    the final best. *)
Example two_epochs_run :
  let h := (run (rising_world ∅) argv_two_epochs).1 in
  lr_epochs h = [0; 1] /\
  map Qred (summaries h) = [96%Q; 97%Q] /\
  map (fun s => (s.1, s.2.1, ck_epoch s.2.2, Qred (ck_best_prec1 s.2.2)))
      (save_log None h)
    = [(Some 0, "out/checkpoint__96.000.tar", 1, 96%Q);
       (Some 1, "out/checkpoint__97.000.tar", 2, 97%Q)] /\
  Qred (best_prec1 (final_globals (run (rising_world ∅) argv_two_epochs).2))
    = 97%Q.
Proof. vm_compute. repeat split. Qed.

Lemma best_acc_is_the_maximum_witness :
  let W := rising_world ∅ in
  let a := parsed argv_two_epochs in
  let g' := final_globals (run W argv_two_epochs).2 in
  parse_args (float_of_string W) parser argv_two_epochs = inr a /\
  a !! "evaluate" = Some (VBool false) /\
  (run W argv_two_epochs).2 = inr (tt, g') /\
  exists h,
    (run W argv_two_epochs).1 = h ++ [EvPrintBest (best_prec1 g')] /\
    best_prec1 g' = best_after (first_best W a) (summaries h) /\
    (first_best W a <= best_prec1 g')%Q /\
    Forall (fun avg => (avg <= best_prec1 g')%Q) (summaries h) /\
    (best_prec1 g' = first_best W a \/ In (best_prec1 g') (summaries h)).
Proof.
  intros W a g'.
  assert (Hp : parse_args (float_of_string W) parser argv_two_epochs = inr a)
    by (apply parsed_spec; vm_compute; reflexivity).
  assert (Hev : a !! "evaluate" = Some (VBool false))
    by (vm_compute; reflexivity).
  assert (Hrun : (run W argv_two_epochs).2 = inr (tt, g'))
    by (apply final_globals_spec; vm_compute; reflexivity).
  split; [exact Hp|]. split; [exact Hev|]. split; [exact Hrun|].
  exact (best_acc_is_the_maximum W argv_two_epochs a g' Hp Hev Hrun).
Defined.

Lemma evaluate_only_validates_witness :
  let W := Example.world Example.half_correct in
  let a := parsed argv_evaluate in
  parse_args (float_of_string W) parser argv_evaluate = inr a /\
  a !! "evaluate" = Some (VBool true) /\
  Forall (fun e => ~ training_event e) (run W argv_evaluate).1 /\
  (length (summaries (run W argv_evaluate).1) <= 1)%nat.
Proof.
  intros W a.
  assert (Hp : parse_args (float_of_string W) parser argv_evaluate = inr a)
    by (apply parsed_spec; vm_compute; reflexivity).
  assert (Hev : a !! "evaluate" = Some (VBool true))
    by (vm_compute; reflexivity).
  split; [exact Hp|]. split; [exact Hev|].
  destruct (evaluate_only_validates W argv_evaluate a Hp Hev) as (H1 & H2 & _).
  split; [exact H1 | exact H2].
Defined.

(** [--evaluate] with half of the samples correct: one summary, 50, and
    [best_prec1] still 90. *)
Example evaluate_run :
  map Qred (summaries (run (Example.world Example.half_correct) argv_evaluate).1)
    = [50%Q] /\
  best_prec1
    (final_globals (run (Example.world Example.half_correct) argv_evaluate).2)
    = 90%Q.
Proof. vm_compute. split; reflexivity. Qed.

Lemma checkpoints_are_named_and_numbered_witness :
  let W := rising_world ∅ in
  let a := parsed argv_two_epochs in
  parse_args (float_of_string W) parser argv_two_epochs = inr a /\
  exists dir pfx,
    a !! "save_dir" = Some (VStr dir) /\
    a !! "prefix" = Some (VStr pfx) /\
    Forall (fun s =>
              let '(cur, (file, ck)) := s in
              cur = Some (ck_epoch ck - 1) /\
              file = checkpoint_file dir pfx (ck_best_prec1 ck))
           (save_log None (run W argv_two_epochs).1).
Proof.
  intros W a.
  assert (Hp : parse_args (float_of_string W) parser argv_two_epochs = inr a)
    by (apply parsed_spec; vm_compute; reflexivity).
  split; [exact Hp|].
  exact (checkpoints_are_named_and_numbered W argv_two_epochs a Hp).
Defined.

Lemma resume_continues_after_the_saved_epoch_witness :
  let W := rising_world ∅ in
  let ck := first_saved (run W Example.argv_one_epoch).1 in
  let W' := rising_world {[ "out/checkpoint__96.000.tar" := Some ck ]} in
  let a := parsed Example.argv_one_epoch in
  let a' := parsed argv_rerun in
  parse_args (float_of_string W) parser Example.argv_one_epoch = inr a /\
  In (Some 0, ("out/checkpoint__96.000.tar", ck))
     (save_log None (run W Example.argv_one_epoch).1) /\
  parse_args (float_of_string W') parser argv_rerun = inr a' /\
  a' !! "evaluate" = Some (VBool false) /\
  a' !! "resume" = Some (VStr "out/checkpoint__96.000.tar") /\
  "out/checkpoint__96.000.tar" <> "" /\
  files W' !! "out/checkpoint__96.000.tar" = Some (Some ck) /\
  exists e total,
    Some 0 = Some e /\
    a' !! "epoch" = Some (VInt total) /\
    first_best W' a' = ck_best_prec1 ck /\
    lr_epochs (run W' argv_rerun).1 `prefix_of` py_range (e + 1) total.
Proof.
  intros W ck W' a a'.
  assert (Hp : parse_args (float_of_string W) parser Example.argv_one_epoch
               = inr a) by (apply parsed_spec; vm_compute; reflexivity).
  assert (Hin : In (Some 0, ("out/checkpoint__96.000.tar", ck))
                  (save_log None (run W Example.argv_one_epoch).1))
    by (vm_compute; left; reflexivity).
  assert (Hp' : parse_args (float_of_string W') parser argv_rerun = inr a')
    by (apply parsed_spec; vm_compute; reflexivity).
  assert (Hev : a' !! "evaluate" = Some (VBool false))
    by (vm_compute; reflexivity).
  assert (Hres : a' !! "resume" = Some (VStr "out/checkpoint__96.000.tar"))
    by (vm_compute; reflexivity).
  assert (Hne : "out/checkpoint__96.000.tar" <> "") by discriminate.
  assert (Hf : files W' !! "out/checkpoint__96.000.tar" = Some (Some ck))
    by (vm_compute; reflexivity).
  split; [exact Hp|]. split; [exact Hin|]. split; [exact Hp'|].
  split; [exact Hev|]. split; [exact Hres|]. split; [exact Hne|].
  split; [exact Hf|].
  exact (resume_continues_after_the_saved_epoch W W' Example.argv_one_epoch
           argv_rerun a a' (Some 0) "out/checkpoint__96.000.tar"
           "out/checkpoint__96.000.tar" ck
           Hp Hin Hp' Hev Hres Hne Hf).
Defined.

(** The resumed run: the checkpoint of epoch 0 is numbered 1, and the run
    that resumes from it with [--epoch 3] goes through the epochs 1
    and 2. *)
Example rerun_epochs :
  let W := rising_world ∅ in
  let ck := first_saved (run W Example.argv_one_epoch).1 in
  ck_epoch ck = 1 /\
  lr_epochs (run (rising_world {[ "out/checkpoint__96.000.tar" := Some ck ]}) argv_rerun).1 = [1; 2].
Proof. vm_compute. split; reflexivity. Qed.

Lemma checkpoints_strictly_improve_witness :
  let W := rising_world ∅ in
  exists pre mid post f1 ck1 f2 ck2,
    (run W argv_two_epochs).1 =
      pre ++ EvTorchSave f1 ck1 :: mid ++ EvTorchSave f2 ck2 :: post /\
    (ck_best_prec1 ck1 < ck_best_prec1 ck2)%Q.
Proof.
  intros W.
  assert (Hs : is_Some (split_two_saves (run W argv_two_epochs).1)).
  { apply (bool_decide_eq_true_1 _). vm_compute. reflexivity. }
  destruct Hs as [[[[[pre [f1 ck1]] mid] [f2 ck2]] post] E].
  apply split_two_saves_spec in E.
  exists pre, mid, post, f1, ck1, f2, ck2. split; [exact E|].
  exact (checkpoints_strictly_improve W argv_two_epochs pre mid post
           f1 f2 ck1 ck2 E).
Defined.

Lemma nothing_left_to_train_witness :
  let W := Example.world Example.all_correct in
  let a := parsed argv_finished in
  parse_args (float_of_string W) parser argv_finished = inr a /\
  a !! "evaluate" = Some (VBool false) /\
  first_epoch W a = Some 7 /\
  a !! "epoch" = Some (VInt 7) /\
  7 <= 7 /\
  match (run W argv_finished).2 with
  | inl _ => Forall (quiet W) (run W argv_finished).1
  | inr (_, g') =>
      best_prec1 g' = first_best W a /\
      exists tr,
        (run W argv_finished).1 = tr ++ [EvPrintBest (first_best W a)] /\
        Forall (quiet W) tr
  end.
Proof.
  intros W a.
  assert (Hp : parse_args (float_of_string W) parser argv_finished = inr a)
    by (apply parsed_spec; vm_compute; reflexivity).
  assert (Hev : a !! "evaluate" = Some (VBool false))
    by (vm_compute; reflexivity).
  assert (Hfe : first_epoch W a = Some 7) by (vm_compute; reflexivity).
  assert (Ht : a !! "epoch" = Some (VInt 7)) by (vm_compute; reflexivity).
  assert (Hle : 7 <= 7) by lia.
  split; [exact Hp|]. split; [exact Hev|]. split; [exact Hfe|].
  split; [exact Ht|]. split; [exact Hle|].
  exact (nothing_left_to_train W argv_finished a 7 7 Hp Hev Hfe Ht Hle).
Defined.

(** The finished run prints the best precision of its checkpoint, 93,
    after loading it, and nothing else follows. *)
Example finished_run :
  (run (Example.world Example.all_correct) argv_finished).2
    = inr (tt, {| args := <["start_epoch" := VInt 7]> (parsed argv_finished);
                  best_prec1 := 93 |}) /\
  List.last (run (Example.world Example.all_correct) argv_finished).1
    (EvPrint "") = EvPrintBest 93.
Proof. vm_compute. split; reflexivity. Qed.

Lemma startup_acts_only_on_its_arguments_witness :
  let W := Example.world Example.all_correct in
  let a := parsed Example.argv_resume in
  parse_args (float_of_string W) parser Example.argv_resume = inr a /\
  Forall (startup_event W a) (startup W Example.argv_resume initial_globals).1.
Proof.
  intros W a.
  assert (Hp : parse_args (float_of_string W) parser Example.argv_resume = inr a)
    by (apply parsed_spec; vm_compute; reflexivity).
  split; [exact Hp|].
  exact (startup_acts_only_on_its_arguments W Example.argv_resume a
           initial_globals Hp).
Defined.

(** The first half of the example resume: the one checkpoint is loaded,
    no directory is made, the model is not wrapped. *)
Example resume_startup_trace :
  omap (fun e => match e with
                 | EvTorchLoad p => Some p
                 | EvMakedirs d => Some d
                 | EvDataParallel _ => Some "DataParallel"
                 | _ => None
                 end)
       (startup (Example.world Example.all_correct) Example.argv_resume
          initial_globals).1
    = ["ck.tar"].
Proof. vm_compute. reflexivity. Qed.

